(** * shellbeats: playlist persistence, library store and playback session

    A shallow embedding of [shellbeats.c].

    - C strings are the list of their bytes before the terminating NUL; a
      pointer into a string is the suffix it points at, and a pointer that
      may be NULL is an [option].
    - [int], [size_t] and [time_t] quantities are mathematical integers:
      no count, length or clock difference in the program comes near the
      word size.
    - The arrays [items], [playlists] and [search_results] are the lists
      of their live slots, so that [count] is the length of the list.
    - Functions that change [AppState], the files or the player take them
      as arguments and return the new ones.
    - Allocation succeeds, and [<ctype.h>] classifies bytes as in the C
      locale. *)

From Stdlib Require Import ZArith Ascii String List Lia Bool.
From stdpp Require Import base list gmap strings.

Local Open Scope Z_scope.

(** ** C strings and the libc functions the program calls *)

Abbreviation cstring := (list ascii).

Definition lit (s : string) : cstring := list_ascii_of_string s.

Definition NUL : ascii := "000"%char.
Definition TAB : ascii := "009"%char.
Definition LF : ascii := "010"%char.
Definition CR : ascii := "013"%char.
Definition DQUOTE : ascii := "034"%char.
Definition BACKSLASH : ascii := "092"%char.

Definition MAX_RESULTS : Z := 50.
Definition MAX_PLAYLISTS : Z := 50.
Definition MAX_PLAYLIST_ITEMS : Z := 500.

Definition code (c : ascii) : Z := Z.of_N (N_of_ascii c).

(** The bytes of a buffer seen as a C string: everything before the first NUL. *)
Fixpoint c_str (buf : cstring) : cstring :=
  match buf with
  | [] => []
  | c :: rest => if (c =? NUL)%char then [] else c :: c_str rest
  end.

Definition cstr_wf (s : cstring) : Prop := NUL ∉ s.

Fixpoint starts_with (pat s : cstring) : bool :=
  match pat, s with
  | [], _ => true
  | _ :: _, [] => false
  | a :: pat', b :: s' => (a =? b)%char && starts_with pat' s'
  end.

(** [strstr h pat]: the suffix of [h] at the first occurrence of [pat]. *)
Fixpoint strstr (h pat : cstring) : option cstring :=
  if starts_with pat h then Some h
  else match h with
       | [] => None
       | _ :: h' => strstr h' pat
       end.

(** [strchr s c]: the suffix of [s] at the first occurrence of [c]. *)
Fixpoint strchr (s : cstring) (c : ascii) : option cstring :=
  match s with
  | [] => None
  | x :: s' => if (x =? c)%char then Some s else strchr s' c
  end.

Definition isdigit (c : ascii) : bool := (48 <=? code c) && (code c <=? 57).
Definition isupper (c : ascii) : bool := (65 <=? code c) && (code c <=? 90).
Definition islower (c : ascii) : bool := (97 <=? code c) && (code c <=? 122).
Definition isalnum (c : ascii) : bool := isdigit c || isupper c || islower c.

Definition tolower (c : ascii) : ascii :=
  if isupper c then ascii_of_N (Z.to_N (code c + 32)) else c.

Fixpoint strcmp (a b : cstring) : Z :=
  match a, b with
  | [], [] => 0
  | [], y :: _ => 0 - code y
  | x :: _, [] => code x
  | x :: a', y :: b' => if (x =? y)%char then strcmp a' b' else code x - code y
  end.

Fixpoint strcasecmp (a b : cstring) : Z :=
  match a, b with
  | [], [] => 0
  | [], y :: _ => 0 - code (tolower y)
  | x :: _, [] => code (tolower x)
  | x :: a', y :: b' =>
      if (tolower x =? tolower y)%char then strcasecmp a' b'
      else code (tolower x) - code (tolower y)
  end.

(** [snprintf] into a buffer of [size] bytes keeps at most [size - 1] bytes. *)
Definition snprintf (size : Z) (s : cstring) : cstring := take (Z.to_nat (size - 1)) s.

(** Decimal rendering of a non-negative [int], as [%d] prints it. *)
Definition digit_char (d : Z) : ascii := ascii_of_N (Z.to_N (48 + d)).

Fixpoint decimal_digits (fuel : nat) (n : Z) (acc : cstring) : cstring :=
  match fuel with
  | O => acc
  | S fuel' =>
      let acc' := digit_char (n mod 10) :: acc in
      if (n / 10 =? 0)%Z then acc' else decimal_digits fuel' (n / 10) acc'
  end.

Definition print_int (n : Z) : cstring :=
  if n <? 0 then "-"%char :: decimal_digits 20 (- n) [] else decimal_digits 20 n [].

(** ** JSON helpers *)

(** The loop of [json_escape_string]; [j] is the write index and [bound]
    is [alloc - 2]. *)
Fixpoint json_escape_loop (bound : Z) (s : cstring) (j : Z) : cstring :=
  match s with
  | [] => []
  | c :: s' =>
      if negb (j <? bound) then []
      else if (c =? DQUOTE)%char || (c =? BACKSLASH)%char then
        BACKSLASH :: c :: json_escape_loop bound s' (j + 2)
      else if (c =? LF)%char then
        BACKSLASH :: "n"%char :: json_escape_loop bound s' (j + 2)
      else if (c =? CR)%char then
        BACKSLASH :: "r"%char :: json_escape_loop bound s' (j + 2)
      else if (c =? TAB)%char then
        BACKSLASH :: "t"%char :: json_escape_loop bound s' (j + 2)
      else c :: json_escape_loop bound s' (j + 1)
  end.

(** [json_escape_string]; a NULL argument yields the empty string. *)
Definition json_escape_string (s : option cstring) : cstring :=
  match s with
  | None => []
  | Some s =>
      let len := Z.of_nat (length s) in
      let alloc := len * 2 + 1 in
      json_escape_loop (alloc - 2) s 0
  end.

Fixpoint skip_separators (p : cstring) : cstring :=
  match p with
  | [] => []
  | c :: p' =>
      if (c =? " ")%char || (c =? ":")%char || (c =? TAB)%char then skip_separators p' else p
  end.

(** The scan for the closing quote in [json_get_string]: returns the
    position where the loop stops. *)
Fixpoint scan_string (p : cstring) : cstring :=
  match p with
  | [] => []
  | c :: p1 =>
      if (c =? DQUOTE)%char then p
      else if (c =? BACKSLASH)%char then
        match p1 with
        | [] => []
        | _ :: p2 => scan_string p2
        end
      else scan_string p1
  end.

(** The unescape loop of [json_get_string] over the [len] bytes at [start]. *)
Fixpoint json_unescape (s : cstring) : cstring :=
  match s with
  | [] => []
  | c :: s1 =>
      if (c =? BACKSLASH)%char then
        match s1 with
        | [] => [c]
        | e :: s2 =>
            (if (e =? "n")%char then LF
             else if (e =? "r")%char then CR
             else if (e =? "t")%char then TAB
             else e) :: json_unescape s2
        end
      else c :: json_unescape s1
  end.

Definition json_get_string (json key : cstring) : option cstring :=
  let pattern := snprintf 256 (DQUOTE :: key ++ [DQUOTE]) in
  match strstr json pattern with
  | None => None
  | Some p =>
      let p := skip_separators (drop (length pattern) p) in
      match p with
      | [] => None
      | c :: start =>
          if (c =? DQUOTE)%char then
            let p_end := scan_string start in
            let len := (length start - length p_end)%nat in
            Some (json_unescape (take len start))
          else None
      end
  end.

(** ** Data structures *)

Record Song := mkSong {
  title : option cstring;
  video_id : option cstring;
  url : option cstring;
  duration : Z
}.

Record Playlist := mkPlaylist {
  name : cstring;
  filename : cstring;
  items : list Song
}.

Definition count (pl : Playlist) : Z := Z.of_nat (length (items pl)).

Inductive ViewMode :=
  | VIEW_SEARCH
  | VIEW_PLAYLISTS
  | VIEW_PLAYLIST_SONGS
  | VIEW_ADD_TO_PLAYLIST.

Record AppState := mkAppState {
  search_results : list Song;
  search_selected : Z;
  search_scroll : Z;
  query : cstring;
  playlists : list Playlist;
  playlist_selected : Z;
  playlist_scroll : Z;
  current_playlist_idx : Z;
  playlist_song_selected : Z;
  playlist_song_scroll : Z;
  playing_index : Z;
  playing_from_playlist : bool;
  playing_playlist_idx : Z;
  paused : bool;
  view : ViewMode;
  add_to_playlist_selected : Z;
  add_to_playlist_scroll : Z;
  song_to_add : option Z;
  playback_started : Z;
  config_dir : cstring;
  playlists_dir : cstring;
  playlists_index : cstring
}.

Definition search_count (st : AppState) : Z := Z.of_nat (length (search_results st)).
Definition playlist_count (st : AppState) : Z := Z.of_nat (length (playlists st)).

Definition set_playlists (st : AppState) (pls : list Playlist) : AppState :=
  mkAppState (search_results st) (search_selected st) (search_scroll st) (query st)
    pls (playlist_selected st) (playlist_scroll st) (current_playlist_idx st)
    (playlist_song_selected st) (playlist_song_scroll st)
    (playing_index st) (playing_from_playlist st) (playing_playlist_idx st) (paused st)
    (view st) (add_to_playlist_selected st) (add_to_playlist_scroll st) (song_to_add st)
    (playback_started st) (config_dir st) (playlists_dir st) (playlists_index st).

Definition set_playback (st : AppState) (idx : Z) (from_playlist : bool)
    (playlist_idx : Z) (is_paused : bool) (started : Z) : AppState :=
  mkAppState (search_results st) (search_selected st) (search_scroll st) (query st)
    (playlists st) (playlist_selected st) (playlist_scroll st) (current_playlist_idx st)
    (playlist_song_selected st) (playlist_song_scroll st)
    idx from_playlist playlist_idx is_paused
    (view st) (add_to_playlist_selected st) (add_to_playlist_scroll st) (song_to_add st)
    started (config_dir st) (playlists_dir st) (playlists_index st).

Definition set_search_selected (st : AppState) (sel : Z) : AppState :=
  mkAppState (search_results st) sel (search_scroll st) (query st)
    (playlists st) (playlist_selected st) (playlist_scroll st) (current_playlist_idx st)
    (playlist_song_selected st) (playlist_song_scroll st)
    (playing_index st) (playing_from_playlist st) (playing_playlist_idx st) (paused st)
    (view st) (add_to_playlist_selected st) (add_to_playlist_scroll st) (song_to_add st)
    (playback_started st) (config_dir st) (playlists_dir st) (playlists_index st).

Definition set_playlist_song_selected (st : AppState) (sel : Z) : AppState :=
  mkAppState (search_results st) (search_selected st) (search_scroll st) (query st)
    (playlists st) (playlist_selected st) (playlist_scroll st) (current_playlist_idx st)
    sel (playlist_song_scroll st)
    (playing_index st) (playing_from_playlist st) (playing_playlist_idx st) (paused st)
    (view st) (add_to_playlist_selected st) (add_to_playlist_scroll st) (song_to_add st)
    (playback_started st) (config_dir st) (playlists_dir st) (playlists_index st).

(** Replaces the songs of the playlist in slot [i]. *)
Definition set_items (st : AppState) (i : nat) (songs : list Song) : AppState :=
  match playlists st !! i with
  | None => st
  | Some pl =>
      set_playlists st (<[i := mkPlaylist (name pl) (filename pl) songs]> (playlists st))
  end.

(** ** The configuration tree on disk

    Regular files by path, the directories that exist, and whether the
    tree refuses writes (a read-only file system, say): [fopen(path, "w")]
    then returns NULL and [unlink] fails.  [fopen(path, "w")] also returns
    NULL when the directory part of the path is not a directory that
    exists, and when the path itself is a directory.  A file opened for
    writing holds the text printed to it once it is closed. *)

Record Disk := mkDisk {
  files : gmap cstring cstring;
  dirs : gset cstring;
  read_only : bool
}.

Definition file_exists (d : Disk) (path : cstring) : bool :=
  bool_decide (is_Some (files d !! path)) || bool_decide (path ∈ dirs d).

(** The directory part of a path: the bytes before its last slash. *)
Fixpoint dirname (path : cstring) : cstring :=
  match path with
  | [] => []
  | c :: rest => if bool_decide ("/"%char ∈ rest) then c :: dirname rest else []
  end.

(** Whether [fopen(path, "w")] returns a stream. *)
Definition fopen_w (d : Disk) (path : cstring) : bool :=
  negb (read_only d)
  && bool_decide (dirname path ∈ dirs d)
  && negb (bool_decide (path ∈ dirs d)).

Definition write_file (d : Disk) (path text : cstring) : Disk :=
  mkDisk (<[path := text]> (files d)) (dirs d) (read_only d).

Definition unlink (d : Disk) (path : cstring) : Disk :=
  if read_only d then d else mkDisk (delete path (files d)) (dirs d) (read_only d).

Definition playlist_path (st : AppState) (fname : cstring) : cstring :=
  snprintf 1024 (playlists_dir st ++ lit "/" ++ fname).

(** ** Playlist persistence *)

Definition quoted (s : cstring) : cstring := DQUOTE :: s ++ [DQUOTE].

(** The [i < len && j < len] loop of [sanitize_filename]. *)
Fixpoint sanitize_loop (len : Z) (s : cstring) (j : Z) : cstring :=
  match s with
  | [] => []
  | c :: s' =>
      if negb (j <? len) then []
      else if isalnum c || (c =? "-")%char || (c =? "_")%char then
        tolower c :: sanitize_loop len s' (j + 1)
      else if (c =? " ")%char then "_"%char :: sanitize_loop len s' (j + 1)
      else sanitize_loop len s' j
  end.

Definition sanitize_filename (nm : cstring) : cstring :=
  sanitize_loop (Z.of_nat (length nm)) nm 0 ++ lit ".json".

(** One line of the index file; [last] tells whether a comma follows. *)
Definition index_line (pl : Playlist) (last : bool) : cstring :=
  lit "    {" ++ quoted (lit "name") ++ lit ": "
    ++ quoted (json_escape_string (Some (name pl)))
    ++ lit ", " ++ quoted (lit "filename") ++ lit ": "
    ++ quoted (json_escape_string (Some (filename pl)))
    ++ lit "}" ++ (if last then [] else lit ",") ++ [LF].

Fixpoint index_lines (pls : list Playlist) : cstring :=
  match pls with
  | [] => []
  | pl :: rest =>
      index_line pl (match rest with [] => true | _ => false end) ++ index_lines rest
  end.

Definition index_text (pls : list Playlist) : cstring :=
  lit "{" ++ [LF] ++ lit "  " ++ quoted (lit "playlists") ++ lit ": [" ++ [LF]
    ++ index_lines pls
    ++ lit "  ]" ++ [LF] ++ lit "}" ++ [LF].

Definition save_playlists_index (st : AppState) (d : Disk) : Disk :=
  if negb (fopen_w d (playlists_index st)) then d
  else write_file d (playlists_index st) (index_text (playlists st)).

Definition song_line (s : Song) (last : bool) : cstring :=
  lit "    {" ++ quoted (lit "title") ++ lit ": "
    ++ quoted (json_escape_string (title s))
    ++ lit ", " ++ quoted (lit "video_id") ++ lit ": "
    ++ quoted (json_escape_string (video_id s))
    ++ lit "}" ++ (if last then [] else lit ",") ++ [LF].

Fixpoint song_lines (songs : list Song) : cstring :=
  match songs with
  | [] => []
  | s :: rest =>
      song_line s (match rest with [] => true | _ => false end) ++ song_lines rest
  end.

(** The text [save_playlist] prints; the name goes out as it is. *)
Definition playlist_text (pl : Playlist) : cstring :=
  lit "{" ++ [LF] ++ lit "  " ++ quoted (lit "name") ++ lit ": " ++ quoted (name pl)
    ++ lit "," ++ [LF] ++ lit "  " ++ quoted (lit "songs") ++ lit ": [" ++ [LF]
    ++ song_lines (items pl)
    ++ lit "  ]" ++ [LF] ++ lit "}" ++ [LF].

Definition save_playlist (st : AppState) (d : Disk) (idx : Z) : Disk :=
  if (idx <? 0) || (idx >=? playlist_count st) then d
  else match playlists st !! Z.to_nat idx with
       | None => d
       | Some pl =>
           let path := playlist_path st (filename pl) in
           if negb (fopen_w d path) then d else write_file d path (playlist_text pl)
       end.

Definition youtube_url (vid : cstring) : cstring :=
  snprintf 256 (lit "https://www.youtube.com/watch?v=" ++ vid).

(** The object scan shared by [load_playlist_songs] and [load_playlists]:
    [n] is the running [count], [max] the capacity of the array, [accept]
    the body that extracts the two fields and decides whether the slot is
    filled.  Every round moves [p] past a closing brace, so [length p]
    rounds are enough. *)
Fixpoint parse_objects {A} (accept : cstring -> option A) (max : Z)
    (fuel : nat) (n : Z) (p : cstring) : list A :=
  match fuel with
  | O => []
  | S fuel' =>
      if negb (n <? max) then []
      else match strchr p "{"%char with
           | None => []
           | Some obj_start =>
               match strchr obj_start "}"%char with
               | None => []
               | Some obj_end =>
                   let obj_len := (length obj_start - length obj_end + 1)%nat in
                   let obj := take obj_len obj_start in
                   let p' := drop 1 obj_end in
                   match accept obj with
                   | Some x => x :: parse_objects accept max fuel' (n + 1) p'
                   | None => parse_objects accept max fuel' n p'
                   end
               end
           end
  end.

(** [strstr] for the array label, then [strchr] for the bracket, then the scan. *)
Definition parse_array {A} (label : cstring) (accept : cstring -> option A)
    (max : Z) (content : cstring) : list A :=
  match strstr content (quoted label) with
  | None => []
  | Some p =>
      match strchr p "["%char with
      | None => []
      | Some p => parse_objects accept max (length p) 0 p
      end
  end.

(** Reading a whole file as [load_playlist_songs] and [load_playlists] do:
    nothing for an empty file or one above 1 MiB, else the bytes up to the
    first NUL. *)
Definition read_content (d : Disk) (path : cstring) : option cstring :=
  match files d !! path with
  | None => None
  | Some bytes =>
      let fsize := Z.of_nat (length bytes) in
      if (fsize <=? 0) || (fsize >? 1024 * 1024) then None
      else Some (c_str bytes)
  end.

Definition song_of_object (obj : cstring) : option Song :=
  match json_get_string obj (lit "title"), json_get_string obj (lit "video_id") with
  | Some t, Some (c :: v) =>
      Some (mkSong (Some t) (Some (c :: v)) (Some (youtube_url (c :: v))) 0)
  | _, _ => None
  end.

Definition decode_songs (content : cstring) : list Song :=
  parse_array (lit "songs") song_of_object MAX_PLAYLIST_ITEMS content.

Definition load_playlist_songs (st : AppState) (d : Disk) (idx : Z) : AppState :=
  if (idx <? 0) || (idx >=? playlist_count st) then st
  else match playlists st !! Z.to_nat idx with
       | None => st
       | Some pl =>
           match read_content d (playlist_path st (filename pl)) with
           | None => set_items st (Z.to_nat idx) []
           | Some content => set_items st (Z.to_nat idx) (decode_songs content)
           end
       end.

Definition playlist_of_object (obj : cstring) : option Playlist :=
  match json_get_string obj (lit "name"), json_get_string obj (lit "filename") with
  | Some (c :: n), Some (c' :: f) => Some (mkPlaylist (c :: n) (c' :: f) [])
  | _, _ => None
  end.

Definition decode_index (content : cstring) : list Playlist :=
  parse_array (lit "playlists") playlist_of_object MAX_PLAYLISTS content.

Definition load_playlists (st : AppState) (d : Disk) : AppState :=
  match read_content d (playlists_index st) with
  | None => set_playlists st []
  | Some content => set_playlists st (decode_index content)
  end.

(** ** Library store *)

Definition create_playlist (st : AppState) (d : Disk) (nm : option cstring)
    : Z * AppState * Disk :=
  if playlist_count st >=? MAX_PLAYLISTS then (-1, st, d)
  else match nm with
       | None | Some [] => (-1, st, d)
       | Some nm =>
           if existsb (fun pl => strcasecmp (name pl) nm =? 0) (playlists st)
           then (-2, st, d)
           else
             let fname := sanitize_filename nm in
             let fname :=
               if existsb (fun pl => strcmp (filename pl) fname =? 0) (playlists st)
               then snprintf (Z.of_nat (length fname) + 10)
                      (print_int (playlist_count st) ++ lit "_" ++ fname)
               else fname in
             let idx := playlist_count st in
             let st' := set_playlists st (playlists st ++ [mkPlaylist nm fname []]) in
             let d' := save_playlists_index st' d in
             let d' := save_playlist st' d' idx in
             (idx, st', d')
       end.

Definition delete_playlist (st : AppState) (d : Disk) (idx : Z)
    : bool * AppState * Disk :=
  if (idx <? 0) || (idx >=? playlist_count st) then (false, st, d)
  else match playlists st !! Z.to_nat idx with
       | None => (false, st, d)
       | Some pl =>
           let d' := unlink d (playlist_path st (filename pl)) in
           let st' := set_playlists st (delete (Z.to_nat idx) (playlists st)) in
           (true, st', save_playlists_index st' d')
       end.

Definition same_video (vid : cstring) (s : Song) : bool :=
  match video_id s with
  | Some v => strcmp v vid =? 0
  | None => false
  end.

Definition add_song_to_playlist (st : AppState) (d : Disk) (playlist_idx : Z)
    (song : option Song) : bool * AppState * Disk :=
  if (playlist_idx <? 0) || (playlist_idx >=? playlist_count st) then (false, st, d)
  else match song with
       | None => (false, st, d)
       | Some song =>
           match video_id song, playlists st !! Z.to_nat playlist_idx with
           | Some vid, Some pl =>
               let st :=
                 if (count pl =? 0) && file_exists d (playlists_dir st)
                 then load_playlist_songs st d playlist_idx else st in
               match playlists st !! Z.to_nat playlist_idx with
               | None => (false, st, d)
               | Some pl =>
                   if count pl >=? MAX_PLAYLIST_ITEMS then (false, st, d)
                   else if existsb (same_video vid) (items pl) then (false, st, d)
                   else
                     let t := match title song with
                              | Some t => t
                              | None => lit "Unknown"
                              end in
                     let new_song :=
                       mkSong (Some t) (Some vid) (Some (youtube_url vid)) (duration song) in
                     let st' := set_items st (Z.to_nat playlist_idx) (items pl ++ [new_song]) in
                     (true, st', save_playlist st' d playlist_idx)
               end
           | _, _ => (false, st, d)
           end
       end.

Definition remove_song_from_playlist (st : AppState) (d : Disk)
    (playlist_idx song_idx : Z) : bool * AppState * Disk :=
  if (playlist_idx <? 0) || (playlist_idx >=? playlist_count st) then (false, st, d)
  else match playlists st !! Z.to_nat playlist_idx with
       | None => (false, st, d)
       | Some pl =>
           if (song_idx <? 0) || (song_idx >=? count pl) then (false, st, d)
           else
             let st' := set_items st (Z.to_nat playlist_idx)
                          (delete (Z.to_nat song_idx) (items pl)) in
             (true, st', save_playlist st' d playlist_idx)
       end.

(** ** The player process and its control channel

    The part of the operating system the IPC client talks to: whether the
    socket endpoint exists and accepts connections, which descriptor
    [socket()] hands out, which pid [fork()] returns, and whether a freshly
    started player brings its endpoint up while [mpv_start_if_needed]
    polls for it.  [inbox] holds the bytes the player has written that the
    client has not read yet; [outbox] the lines the client has written. *)

Record Player := mkPlayer {
  mpv_pid : Z;
  mpv_ipc_fd : Z;
  socket_present : bool;
  accepting : bool;
  peer_open : bool;
  socket_fd : Z;
  fork_pid : Z;
  player_comes_up : bool;
  inbox : cstring;
  outbox : list cstring
}.

Definition set_fd (p : Player) (fd : Z) : Player :=
  mkPlayer (mpv_pid p) fd (socket_present p) (accepting p) (peer_open p)
    (socket_fd p) (fork_pid p) (player_comes_up p) (inbox p) (outbox p).

Definition set_inbox (p : Player) (data : cstring) : Player :=
  mkPlayer (mpv_pid p) (mpv_ipc_fd p) (socket_present p) (accepting p) (peer_open p)
    (socket_fd p) (fork_pid p) (player_comes_up p) data (outbox p).

Definition write_line (p : Player) (bytes : cstring) : Player :=
  mkPlayer (mpv_pid p) (mpv_ipc_fd p) (socket_present p) (accepting p) (peer_open p)
    (socket_fd p) (fork_pid p) (player_comes_up p) (inbox p) (outbox p ++ [bytes]).

Definition set_endpoint (p : Player) (present listening : bool) : Player :=
  mkPlayer (mpv_pid p) (mpv_ipc_fd p) present listening (peer_open p)
    (socket_fd p) (fork_pid p) (player_comes_up p) (inbox p) (outbox p).

Definition set_pid (p : Player) (pid : Z) : Player :=
  mkPlayer pid (mpv_ipc_fd p) (socket_present p) (accepting p) (peer_open p)
    (socket_fd p) (fork_pid p) (player_comes_up p) (inbox p) (outbox p).

(** Closing the descriptor drops what was buffered on it. *)
Definition mpv_disconnect (p : Player) : Player :=
  if mpv_ipc_fd p >=? 0 then set_inbox (set_fd p (-1)) [] else p.

Definition observe_cmd : cstring :=
  lit "{" ++ quoted (lit "command") ++ lit ":[" ++ quoted (lit "observe_property")
    ++ lit ",1," ++ quoted (lit "eof-reached") ++ lit "]}" ++ [LF].

Definition mpv_connect (p : Player) : bool * Player :=
  if mpv_ipc_fd p >=? 0 then (true, p)
  else if negb (socket_present p) then (false, p)
  else if socket_fd p <? 0 then (false, p)
  else if negb (accepting p) then (false, p)
  else (true, write_line (set_fd p (socket_fd p)) observe_cmd).

Definition mpv_send_command (cmd : cstring) (p : Player) : Player :=
  let '(connected, p) := mpv_connect p in
  if negb connected then
    if socket_fd p <? 0 then p
    else if socket_present p && accepting p then write_line (write_line p cmd) [LF]
    else p
  else write_line (write_line p cmd) [LF].

Definition mpv_toggle_pause (p : Player) : Player :=
  mpv_send_command
    (lit "{" ++ quoted (lit "command") ++ lit ":[" ++ quoted (lit "cycle") ++ lit ","
       ++ quoted (lit "pause") ++ lit "]}") p.

Definition mpv_stop_playback (p : Player) : Player :=
  mpv_send_command
    (lit "{" ++ quoted (lit "command") ++ lit ":[" ++ quoted (lit "stop") ++ lit "]}") p.

Fixpoint escape_url (u : cstring) : cstring :=
  match u with
  | [] => []
  | c :: u' =>
      if (c =? DQUOTE)%char || (c =? BACKSLASH)%char
      then BACKSLASH :: c :: escape_url u'
      else c :: escape_url u'
  end.

Definition mpv_load_url (u : cstring) (p : Player) : Player :=
  let escaped := quoted (escape_url u) in
  let cmd := snprintf 4096
    (lit "{" ++ quoted (lit "command") ++ lit ":[" ++ quoted (lit "loadfile") ++ lit ","
       ++ escaped ++ lit "," ++ quoted (lit "replace") ++ lit "]}") in
  mpv_send_command cmd p.

Definition mpv_start_if_needed (p : Player) : Player :=
  if socket_present p && fst (mpv_connect p) then snd (mpv_connect p)
  else
    let p := mpv_disconnect (set_endpoint p false (accepting p)) in
    if fork_pid p >? 0 then
      let p := set_pid p (fork_pid p) in
      if player_comes_up p then snd (mpv_connect (set_endpoint p true true))
      else p
    else p.

Definition end_file_marker : cstring :=
  quoted (lit "event") ++ lit ":" ++ quoted (lit "end-file").

Definition eof_reason_marker : cstring :=
  quoted (lit "reason") ++ lit ":" ++ quoted (lit "eof").

(** [mpv_check_track_end]: one [read] of at most 4095 bytes.  With nothing
    buffered and the peer there, the read fails with [EAGAIN] and the
    descriptor stays open.  Once the peer is gone the read returns 0
    without setting [errno], or fails with another error: the test of
    [errno] then sees what the last failing call left, and [errno_again]
    tells whether that is [EAGAIN] or [EWOULDBLOCK]. *)
Definition mpv_check_track_end (errno_again : bool) (p : Player) : bool * Player :=
  if mpv_ipc_fd p <? 0 then (false, p)
  else match inbox p with
       | [] =>
           if peer_open p then (false, p)
           else if errno_again then (false, p)
           else (false, mpv_disconnect p)
       | _ :: _ =>
           let buf := c_str (take (Z.to_nat 4095) (inbox p)) in
           let p := set_inbox p (drop (Z.to_nat 4095) (inbox p)) in
           if bool_decide (is_Some (strstr buf end_file_marker))
              && bool_decide (is_Some (strstr buf eof_reason_marker))
           then (true, p) else (false, p)
       end.

(** The drain loop of the grace period: [read] 4096 bytes at a time until
    nothing comes back. *)
Fixpoint drain_loop (fuel : nat) (p : Player) : Player :=
  match fuel with
  | O => p
  | S fuel' =>
      match inbox p with
      | [] => p
      | _ :: _ => drain_loop fuel' (set_inbox p (drop (Z.to_nat 4096) (inbox p)))
      end
  end.

Definition drain (p : Player) : Player := drain_loop (length (inbox p)) p.

(** ** Playback

    [now] is what [time(NULL)] returns to the play function. *)

Definition play_search_result (st : AppState) (p : Player) (now idx : Z)
    : AppState * Player :=
  if (idx <? 0) || (idx >=? search_count st) then (st, p)
  else match search_results st !! Z.to_nat idx with
       | None => (st, p)
       | Some s =>
           match url s with
           | None => (st, p)
           | Some u =>
               let p := mpv_load_url u (mpv_start_if_needed p) in
               (set_playback st idx false (-1) false now, p)
           end
       end.

Definition play_playlist_song (st : AppState) (p : Player) (now playlist_idx song_idx : Z)
    : AppState * Player :=
  if (playlist_idx <? 0) || (playlist_idx >=? playlist_count st) then (st, p)
  else match playlists st !! Z.to_nat playlist_idx with
       | None => (st, p)
       | Some pl =>
           if (song_idx <? 0) || (song_idx >=? count pl) then (st, p)
           else match items pl !! Z.to_nat song_idx with
                | None => (st, p)
                | Some s =>
                    match url s with
                    | None => (st, p)
                    | Some u =>
                        let p := mpv_load_url u (mpv_start_if_needed p) in
                        (set_playback st song_idx true playlist_idx false now, p)
                    end
                end
       end.

(** [count] of the slot [&st->playlists[i]]; the slots past
    [playlist_count] are zeroed. *)
Definition slot_count (st : AppState) (i : Z) : Z :=
  match playlists st !! Z.to_nat i with
  | Some pl => count pl
  | None => 0
  end.

Definition play_next (st : AppState) (p : Player) (now : Z) : AppState * Player :=
  if playing_from_playlist st && (playing_playlist_idx st >=? 0) then
    let next := playing_index st + 1 in
    if next <? slot_count st (playing_playlist_idx st) then
      let '(st, p) := play_playlist_song st p now (playing_playlist_idx st) next in
      (set_playlist_song_selected st next, p)
    else (st, p)
  else if search_count st >? 0 then
    let next := playing_index st + 1 in
    if next <? search_count st then
      let '(st, p) := play_search_result st p now next in
      (set_search_selected st next, p)
    else (st, p)
  else (st, p).

Definition play_prev (st : AppState) (p : Player) (now : Z) : AppState * Player :=
  if playing_from_playlist st && (playing_playlist_idx st >=? 0) then
    let prev := playing_index st - 1 in
    if prev >=? 0 then
      let '(st, p) := play_playlist_song st p now (playing_playlist_idx st) prev in
      (set_playlist_song_selected st prev, p)
    else (st, p)
  else if search_count st >? 0 then
    let prev := playing_index st - 1 in
    if prev >=? 0 then
      let '(st, p) := play_search_result st p now prev in
      (set_search_selected st prev, p)
    else (st, p)
  else (st, p).

(** The head of the loop in [main]: the check for the end of the track.
    [now] is the clock reading of the loop, [now_play] the one a play
    function takes if it runs, [errno_again] what [mpv_check_track_end]
    finds in [errno].  The third component counts the calls of [play_next]
    made in the iteration. *)
Definition check_track_end_step (errno_again : bool) (st : AppState) (p : Player)
    (now now_play : Z) : AppState * Player * nat :=
  if (playing_index st >=? 0) && (mpv_ipc_fd p >=? 0) then
    if now - playback_started st >=? 3 then
      let '(ended, p) := mpv_check_track_end errno_again p in
      if ended then
        let '(st, p) := play_next st p now_play in (st, p, 1%nat)
      else (st, p, 0%nat)
    else (st, drain p, 0%nat)
  else (st, p, 0%nat).

(** ** Input helpers *)

(** [isspace] in the C locale: space, and the bytes 9 to 13. *)
Definition isspace (c : ascii) : bool :=
  (c =? " ")%char || ((9 <=? code c) && (code c <=? 13)).

(** The forward loop of [trim_whitespace]. *)
Fixpoint skip_spaces (s : cstring) : cstring :=
  match s with
  | [] => []
  | c :: s' => if isspace c then skip_spaces s' else s
  end.

(** The backward loop of [trim_whitespace]: [e] is the offset of [end]
    from [s]; it stops at offset 0 or at a byte that is no space. *)
Fixpoint trim_end (s : cstring) (e : nat) : nat :=
  match e with
  | O => O
  | S e' => if isspace (nth e s NUL) then trim_end s e' else e
  end.

(** [trim_whitespace]: the string at the pointer returned, after the NUL
    has been written behind [end]. *)
Definition trim_whitespace (s : option cstring) : option cstring :=
  match s with
  | None => None
  | Some s =>
      match skip_spaces s with
      | [] => Some []
      | c :: rest =>
          let e := trim_end (c :: rest) (length (c :: rest) - 1)%nat in
          Some (take (S e) (c :: rest))
      end
  end.

(** [strncpy(dst, src, n)] followed by [dst[n] = 0]. *)
Definition strncpy (n : Z) (src : cstring) : cstring := take (Z.to_nat n) src.

(** ** Durations *)

(** [%02d] of a non-negative number. *)
Definition print_02d (n : Z) : cstring :=
  replicate (2 - length (print_int n))%nat "0"%char ++ print_int n.

(** What the format of [format_duration] prints. *)
Definition duration_text (sec : Z) : cstring :=
  if sec <=? 0 then lit "--:--"
  else
    let h := sec / 3600 in
    let m := (sec mod 3600) / 60 in
    let s := sec mod 60 in
    if h >? 0 then print_int h ++ lit ":" ++ print_02d m ++ lit ":" ++ print_02d s
    else print_02d m ++ lit ":" ++ print_02d s.

Definition format_duration (sec : Z) : cstring := snprintf 16 (duration_text sec).

(** ** Search *)

Definition set_search (st : AppState) (results : list Song) (sel scroll : Z)
    (q : cstring) : AppState :=
  mkAppState results sel scroll q
    (playlists st) (playlist_selected st) (playlist_scroll st) (current_playlist_idx st)
    (playlist_song_selected st) (playlist_song_scroll st)
    (playing_index st) (playing_from_playlist st) (playing_playlist_idx st) (paused st)
    (view st) (add_to_playlist_selected st) (add_to_playlist_scroll st) (song_to_add st)
    (playback_started st) (config_dir st) (playlists_dir st) (playlists_index st).

Definition free_search_results (st : AppState) : AppState :=
  set_search st [] 0 0 (query st).

Definition shell_special (c : ascii) : bool :=
  (c =? DQUOTE)%char || (c =? BACKSLASH)%char || (c =? "$")%char || (c =? "`")%char.

(** The escaping loop of [run_search]; [j] is the write index and [bound]
    is [sizeof(escaped_query) - 5]. *)
Fixpoint shell_escape_loop (bound : Z) (q : cstring) (j : Z) : cstring :=
  match q with
  | [] => []
  | c :: q' =>
      if negb (j <? bound) then []
      else if shell_special c then BACKSLASH :: c :: shell_escape_loop bound q' (j + 2)
      else c :: shell_escape_loop bound q' (j + 1)
  end.

(** The command line given to [popen]. *)
Definition search_command (escaped_query : cstring) : cstring :=
  snprintf 2048
    (lit "yt-dlp --flat-playlist --print '%(title)s|||%(id)s' "
       ++ [DQUOTE] ++ lit "ytsearch" ++ print_int MAX_RESULTS ++ lit ":" ++ escaped_query
       ++ [DQUOTE] ++ lit " 2>/dev/null").

(** [getline]: the next line of the stream with its newline, and what is
    left of the stream; nothing at the end of the stream. *)
Fixpoint read_line (stream : cstring) : cstring * cstring :=
  match stream with
  | [] => ([], [])
  | c :: rest =>
      if (c =? LF)%char then ([c], rest)
      else let '(line, rest') := read_line rest in (c :: line, rest')
  end.

Definition getline (stream : cstring) : option (cstring * cstring) :=
  match stream with
  | [] => None
  | _ :: _ => Some (read_line stream)
  end.

(** The loop that cuts the line ends off: [len] goes down while the byte
    before it is a newline or a carriage return. *)
Fixpoint strip_eol (line : cstring) (len : nat) : nat :=
  match len with
  | O => O
  | S len' =>
      let c := nth len' line NUL in
      if (c =? LF)%char || (c =? CR)%char then strip_eol line len' else len
  end.

(** The body of the loop of [run_search] for one line read: the song it
    stores, or nothing when the line is skipped. *)
Definition search_line (raw : cstring) : option Song :=
  let line := c_str raw in
  let line := take (strip_eol line (length line)) line in
  match line with
  | [] => None
  | _ :: _ =>
      if starts_with (lit "ERROR") line then None
      else if starts_with (lit "WARNING") line then None
      else match strstr line (lit "|||") with
           | None => None
           | Some sep =>
               let t := take (length line - length sep)%nat line in
               let vid := drop 3 sep in
               match vid with
               | [] => None
               | _ :: _ =>
                   let id_len := Z.of_nat (length vid) in
                   if (id_len <? 5) || (id_len >? 20) then None
                   else Some (mkSong (Some t) (Some vid) (Some (youtube_url vid)) 0)
               end
           end
  end.

(** The reading loop of [run_search]; every [getline] takes at least one
    byte off the stream. *)
Fixpoint search_loop (fuel : nat) (n : Z) (stream : cstring) : list Song :=
  match fuel with
  | O => []
  | S fuel' =>
      if negb (n <? MAX_RESULTS) then []
      else match getline stream with
           | None => []
           | Some (raw, rest) =>
               match search_line raw with
               | Some s => s :: search_loop fuel' (n + 1) rest
               | None => search_loop fuel' n rest
               end
           end
  end.

(** [run_search]; [popen] tells what the command prints, or that it could
    not be started. *)
Definition run_search (popen : cstring -> option cstring) (st : AppState)
    (raw_query : cstring) : Z * AppState :=
  let st := free_search_results st in
  let query_buf := strncpy 255 raw_query in
  match trim_whitespace (Some query_buf) with
  | None | Some [] => (0, st)
  | Some q =>
      let escaped_query := shell_escape_loop (512 - 5) q 0 in
      match popen (search_command escaped_query) with
      | None => (-1, st)
      | Some out =>
          let results := search_loop (S (length out)) 0 out in
          (Z.of_nat (length results), set_search st results 0 0 (strncpy 255 q))
      end
  end.

(** ** The configuration directories *)

Definition dir_exists (d : Disk) (path : cstring) : bool := bool_decide (path ∈ dirs d).

(** [mkdir]: it fails on a tree that refuses writes, on a path that is
    there already, and when the directory part of the path is not a
    directory that exists. *)
Definition mkdir (d : Disk) (path : cstring) : option Disk :=
  if read_only d || file_exists d path || negb (bool_decide (dirname path ∈ dirs d))
  then None
  else Some (mkDisk (files d) ({[ path ]} ∪ dirs d) (read_only d)).

Definition set_config_paths (st : AppState) (cd pd pi : cstring) : AppState :=
  mkAppState (search_results st) (search_selected st) (search_scroll st) (query st)
    (playlists st) (playlist_selected st) (playlist_scroll st) (current_playlist_idx st)
    (playlist_song_selected st) (playlist_song_scroll st)
    (playing_index st) (playing_from_playlist st) (playing_playlist_idx st) (paused st)
    (view st) (add_to_playlist_selected st) (add_to_playlist_scroll st) (song_to_add st)
    (playback_started st) cd pd pi.

(** The text of the index of an empty library, as [init_config_dirs]
    prints it. *)
Definition empty_index : cstring :=
  lit "{" ++ quoted (lit "playlists") ++ lit ":[]}" ++ [LF].

(** [init_config_dirs]; [home] is what [getenv("HOME")] returns. *)
Definition init_config_dirs (home : option cstring) (st : AppState) (d : Disk)
    : bool * AppState * Disk :=
  let home := match home with Some h => h | None => lit "/tmp" end in
  let cd := snprintf 1024 (home ++ lit "/" ++ lit ".shellbeats") in
  let pd := snprintf 1024 (cd ++ lit "/" ++ lit "playlists") in
  let pi := snprintf 1024 (cd ++ lit "/" ++ lit "playlists.json") in
  let st := set_config_paths st cd pd pi in
  match (if dir_exists d cd then Some d else mkdir d cd) with
  | None => (false, st, d)
  | Some d1 =>
      match (if dir_exists d1 pd then Some d1 else mkdir d1 pd) with
      | None => (false, st, d1)
      | Some d2 =>
          let d3 :=
            if file_exists d2 pi then d2
            else if fopen_w d2 pi then write_file d2 pi empty_index else d2 in
          (true, st, d3)
      end
  end.

(** ** The user interface

    What the drawing functions and the key handling of [main] do to the
    application state, the files and the player.  What they print on the
    terminal, the status line included, is not part of the model. *)

Definition set_search_scroll (st : AppState) (scroll : Z) : AppState :=
  mkAppState (search_results st) (search_selected st) scroll (query st)
    (playlists st) (playlist_selected st) (playlist_scroll st) (current_playlist_idx st)
    (playlist_song_selected st) (playlist_song_scroll st)
    (playing_index st) (playing_from_playlist st) (playing_playlist_idx st) (paused st)
    (view st) (add_to_playlist_selected st) (add_to_playlist_scroll st) (song_to_add st)
    (playback_started st) (config_dir st) (playlists_dir st) (playlists_index st).

Definition set_playlist_selected (st : AppState) (sel : Z) : AppState :=
  mkAppState (search_results st) (search_selected st) (search_scroll st) (query st)
    (playlists st) sel (playlist_scroll st) (current_playlist_idx st)
    (playlist_song_selected st) (playlist_song_scroll st)
    (playing_index st) (playing_from_playlist st) (playing_playlist_idx st) (paused st)
    (view st) (add_to_playlist_selected st) (add_to_playlist_scroll st) (song_to_add st)
    (playback_started st) (config_dir st) (playlists_dir st) (playlists_index st).

Definition set_playlist_scroll (st : AppState) (scroll : Z) : AppState :=
  mkAppState (search_results st) (search_selected st) (search_scroll st) (query st)
    (playlists st) (playlist_selected st) scroll (current_playlist_idx st)
    (playlist_song_selected st) (playlist_song_scroll st)
    (playing_index st) (playing_from_playlist st) (playing_playlist_idx st) (paused st)
    (view st) (add_to_playlist_selected st) (add_to_playlist_scroll st) (song_to_add st)
    (playback_started st) (config_dir st) (playlists_dir st) (playlists_index st).

Definition set_current_playlist_idx (st : AppState) (idx : Z) : AppState :=
  mkAppState (search_results st) (search_selected st) (search_scroll st) (query st)
    (playlists st) (playlist_selected st) (playlist_scroll st) idx
    (playlist_song_selected st) (playlist_song_scroll st)
    (playing_index st) (playing_from_playlist st) (playing_playlist_idx st) (paused st)
    (view st) (add_to_playlist_selected st) (add_to_playlist_scroll st) (song_to_add st)
    (playback_started st) (config_dir st) (playlists_dir st) (playlists_index st).

Definition set_playlist_song_scroll (st : AppState) (scroll : Z) : AppState :=
  mkAppState (search_results st) (search_selected st) (search_scroll st) (query st)
    (playlists st) (playlist_selected st) (playlist_scroll st) (current_playlist_idx st)
    (playlist_song_selected st) scroll
    (playing_index st) (playing_from_playlist st) (playing_playlist_idx st) (paused st)
    (view st) (add_to_playlist_selected st) (add_to_playlist_scroll st) (song_to_add st)
    (playback_started st) (config_dir st) (playlists_dir st) (playlists_index st).

Definition set_view (st : AppState) (v : ViewMode) : AppState :=
  mkAppState (search_results st) (search_selected st) (search_scroll st) (query st)
    (playlists st) (playlist_selected st) (playlist_scroll st) (current_playlist_idx st)
    (playlist_song_selected st) (playlist_song_scroll st)
    (playing_index st) (playing_from_playlist st) (playing_playlist_idx st) (paused st)
    v (add_to_playlist_selected st) (add_to_playlist_scroll st) (song_to_add st)
    (playback_started st) (config_dir st) (playlists_dir st) (playlists_index st).

Definition set_add_to_playlist_selected (st : AppState) (sel : Z) : AppState :=
  mkAppState (search_results st) (search_selected st) (search_scroll st) (query st)
    (playlists st) (playlist_selected st) (playlist_scroll st) (current_playlist_idx st)
    (playlist_song_selected st) (playlist_song_scroll st)
    (playing_index st) (playing_from_playlist st) (playing_playlist_idx st) (paused st)
    (view st) sel (add_to_playlist_scroll st) (song_to_add st)
    (playback_started st) (config_dir st) (playlists_dir st) (playlists_index st).

Definition set_add_to_playlist_scroll (st : AppState) (scroll : Z) : AppState :=
  mkAppState (search_results st) (search_selected st) (search_scroll st) (query st)
    (playlists st) (playlist_selected st) (playlist_scroll st) (current_playlist_idx st)
    (playlist_song_selected st) (playlist_song_scroll st)
    (playing_index st) (playing_from_playlist st) (playing_playlist_idx st) (paused st)
    (view st) (add_to_playlist_selected st) scroll (song_to_add st)
    (playback_started st) (config_dir st) (playlists_dir st) (playlists_index st).

Definition set_song_to_add (st : AppState) (song : option Z) : AppState :=
  mkAppState (search_results st) (search_selected st) (search_scroll st) (query st)
    (playlists st) (playlist_selected st) (playlist_scroll st) (current_playlist_idx st)
    (playlist_song_selected st) (playlist_song_scroll st)
    (playing_index st) (playing_from_playlist st) (playing_playlist_idx st) (paused st)
    (view st) (add_to_playlist_selected st) (add_to_playlist_scroll st) song
    (playback_started st) (config_dir st) (playlists_dir st) (playlists_index st).

(** *** Drawing *)

(** [list_height] of the drawing functions and of [main]: the rows of the
    terminal less the seven that frame the list, and 1 at least. *)
Definition list_height (rows : Z) : Z :=
  let h := rows - 5 - 2 in if h <? 1 then 1 else h.

(** The way every view adjusts its scroll offset to its selection. *)
Definition adjust_scroll (selected scroll height : Z) : Z :=
  if selected <? scroll then selected
  else if selected >=? scroll + height then selected - height + 1
  else scroll.

Definition draw_search_view (st : AppState) (rows : Z) : AppState :=
  set_search_scroll st
    (adjust_scroll (search_selected st) (search_scroll st) (list_height rows)).

(** The rows of [draw_playlists_view]: row [i] shows the playlist at
    [playlist_scroll + i], whose songs are loaded first when it has none
    in memory.  The loop ends at the last playlist at the latest. *)
Fixpoint draw_playlist_rows (fuel : nat) (i height : Z) (st : AppState) (d : Disk)
    : AppState :=
  match fuel with
  | O => st
  | S fuel' =>
      let idx := playlist_scroll st + i in
      if (i <? height) && (idx <? playlist_count st) then
        let st := if slot_count st idx =? 0 then load_playlist_songs st d idx else st in
        draw_playlist_rows fuel' (i + 1) height st d
      else st
  end.

Definition draw_playlists_view (st : AppState) (d : Disk) (rows : Z) : AppState :=
  if playlist_count st =? 0 then st
  else
    let st := set_playlist_scroll st
                (adjust_scroll (playlist_selected st) (playlist_scroll st)
                   (list_height rows)) in
    draw_playlist_rows (Z.to_nat (playlist_count st - playlist_scroll st)) 0
      (list_height rows) st d.

Definition draw_playlist_songs_view (st : AppState) (rows : Z) : AppState :=
  if (current_playlist_idx st <? 0) || (current_playlist_idx st >=? playlist_count st)
  then st
  else if slot_count st (current_playlist_idx st) =? 0 then st
  else set_playlist_song_scroll st
         (adjust_scroll (playlist_song_selected st) (playlist_song_scroll st)
            (list_height rows)).

Definition draw_add_to_playlist_view (st : AppState) (rows : Z) : AppState :=
  if playlist_count st =? 0 then st
  else set_add_to_playlist_scroll st
         (adjust_scroll (add_to_playlist_selected st) (add_to_playlist_scroll st)
            (list_height rows)).

Definition draw_ui (st : AppState) (d : Disk) (rows : Z) : AppState :=
  match view st with
  | VIEW_SEARCH => draw_search_view st rows
  | VIEW_PLAYLISTS => draw_playlists_view st d rows
  | VIEW_PLAYLIST_SONGS => draw_playlist_songs_view st rows
  | VIEW_ADD_TO_PLAYLIST => draw_add_to_playlist_view st rows
  end.

(** *** Input *)

(** [get_string_input]: [typed] is what the user types before Enter;
    the result is the length returned and the buffer. *)
Definition get_string_input (bufsz cols : Z) (prompt typed : cstring) : Z * cstring :=
  let prompt_len := Z.of_nat (length prompt) in
  let max_input := cols - prompt_len - 2 in
  let max_input := if max_input >? bufsz - 1 then bufsz - 1 else max_input in
  let max_input := if max_input <? 1 then 1 else max_input in
  let buf := take (Z.to_nat max_input) typed in
  let buf := match trim_whitespace (Some buf) with Some t => t | None => buf end in
  (Z.of_nat (length buf), buf).

(** The key codes of the terminal library that [main] tests. *)
Definition ERR : Z := -1.
Definition KEY_DOWN : Z := 258.
Definition KEY_UP : Z := 259.
Definition KEY_HOME : Z := 262.
Definition KEY_NPAGE : Z := 338.
Definition KEY_PPAGE : Z := 339.
Definition KEY_ENTER : Z := 343.
Definition KEY_END : Z := 360.
Definition KEY_RESIZE : Z := 410.

(** The code of a character key. *)
Definition key (c : ascii) : Z := code c.

(** The song a [Song *] into the search results points at; the slots
    behind the results are zeroed. *)
Definition song_at (st : AppState) (i : Z) : Song :=
  match search_results st !! Z.to_nat i with
  | Some s => s
  | None => mkSong None None None 0
  end.

(** The state of the program between two events. *)
Definition World : Type := AppState * Disk * Player.

(** The keys [main] handles whatever the view is. *)
Definition global_key (now ch : Z) (w : World) : World :=
  let '(st, d, p) := w in
  if ch =? key " " then
    if (playing_index st >=? 0) && socket_present p then
      let p := mpv_toggle_pause p in
      (set_playback st (playing_index st) (playing_from_playlist st)
         (playing_playlist_idx st) (negb (paused st)) (playback_started st), d, p)
    else w
  else if ch =? key "n" then
    if playing_index st >=? 0 then
      let '(st, p) := play_next st p now in (st, d, p)
    else w
  else if ch =? key "p" then
    if playing_index st >=? 0 then
      let '(st, p) := play_prev st p now in (st, d, p)
    else w
  else if ch =? 27 then
    match view st with
    | VIEW_SEARCH => w
    | VIEW_PLAYLISTS => (set_view st VIEW_SEARCH, d, p)
    | VIEW_PLAYLIST_SONGS => (set_view st VIEW_PLAYLISTS, d, p)
    | VIEW_ADD_TO_PLAYLIST => (set_song_to_add (set_view st VIEW_SEARCH) None, d, p)
    end
  else w.

(** The x key of the search view and of the song view. *)
Definition stop_key (w : World) : World :=
  let '(st, d, p) := w in
  if playing_index st >=? 0 then
    let p := mpv_stop_playback p in
    (set_playback st (-1) false (-1) false (playback_started st), d, p)
  else w.

(** The c key: a prompt for a name, then [create_playlist]. *)
Definition create_key (cols : Z) (typed : cstring) (w : World) : Z * World :=
  let '(st, d, p) := w in
  let '(len, nm) := get_string_input 128 cols (lit "New playlist name: ") typed in
  if len >? 0 then
    let '(idx, st, d) := create_playlist st d (Some nm) in (idx, (st, d, p))
  else (-1, w).

Definition search_view_key (popen : cstring -> option cstring) (rows cols now : Z)
    (typed : cstring) (ch : Z) (w : World) : World :=
  let '(st, d, p) := w in
  let height := list_height rows in
  if (ch =? KEY_UP) || (ch =? key "k") then
    (if search_selected st >? 0 then set_search_selected st (search_selected st - 1) else st,
     d, p)
  else if (ch =? KEY_DOWN) || (ch =? key "j") then
    (if search_selected st + 1 <? search_count st
     then set_search_selected st (search_selected st + 1) else st, d, p)
  else if ch =? KEY_PPAGE then
    let sel := search_selected st - height in
    (set_search_selected st (if sel <? 0 then 0 else sel), d, p)
  else if ch =? KEY_NPAGE then
    let sel := search_selected st + height in
    let sel := if sel >=? search_count st then search_count st - 1 else sel in
    (set_search_selected st (if sel <? 0 then 0 else sel), d, p)
  else if (ch =? KEY_HOME) || (ch =? key "g") then
    (set_search_scroll (set_search_selected st 0) 0, d, p)
  else if ch =? KEY_END then
    (if search_count st >? 0 then set_search_selected st (search_count st - 1) else st, d, p)
  else if (ch =? key LF) || (ch =? KEY_ENTER) then
    if search_count st >? 0 then
      let '(st, p) := play_search_result st p now (search_selected st) in (st, d, p)
    else w
  else if (ch =? key "/") || (ch =? key "s") then
    let '(len, q) := get_string_input 256 cols (lit "Search: ") typed in
    if len >? 0 then
      let st := draw_ui st d rows in
      (snd (run_search popen st q), d, p)
    else w
  else if ch =? key "x" then stop_key w
  else if ch =? key "f" then
    let st := set_playlist_scroll (set_playlist_selected (set_view st VIEW_PLAYLISTS) 0) 0 in
    (load_playlists st d, d, p)
  else if ch =? key "a" then
    if search_count st >? 0 then
      let st := set_song_to_add st (Some (search_selected st)) in
      let st := set_add_to_playlist_scroll (set_add_to_playlist_selected st 0) 0 in
      (set_view st VIEW_ADD_TO_PLAYLIST, d, p)
    else w
  else if ch =? key "c" then snd (create_key cols typed w)
  else w.

Definition playlists_view_key (rows cols : Z) (typed : cstring) (ch : Z) (w : World)
    : World :=
  let '(st, d, p) := w in
  let height := list_height rows in
  if (ch =? KEY_UP) || (ch =? key "k") then
    (if playlist_selected st >? 0
     then set_playlist_selected st (playlist_selected st - 1) else st, d, p)
  else if (ch =? KEY_DOWN) || (ch =? key "j") then
    (if playlist_selected st + 1 <? playlist_count st
     then set_playlist_selected st (playlist_selected st + 1) else st, d, p)
  else if ch =? KEY_PPAGE then
    let sel := playlist_selected st - height in
    (set_playlist_selected st (if sel <? 0 then 0 else sel), d, p)
  else if ch =? KEY_NPAGE then
    let sel := playlist_selected st + height in
    let sel := if sel >=? playlist_count st then playlist_count st - 1 else sel in
    (set_playlist_selected st (if sel <? 0 then 0 else sel), d, p)
  else if (ch =? key LF) || (ch =? KEY_ENTER) then
    if playlist_count st >? 0 then
      let st := set_current_playlist_idx st (playlist_selected st) in
      let st := load_playlist_songs st d (current_playlist_idx st) in
      let st := set_playlist_song_scroll (set_playlist_song_selected st 0) 0 in
      (set_view st VIEW_PLAYLIST_SONGS, d, p)
    else w
  else if ch =? key "c" then
    let '(idx, (st, d, p)) := create_key cols typed w in
    if idx >=? 0 then (set_playlist_selected st idx, d, p) else (st, d, p)
  else if (ch =? key "x") || (ch =? key "d") then
    if playlist_count st >? 0 then
      let nm := match playlists st !! Z.to_nat (playlist_selected st) with
                | Some pl => name pl
                | None => []
                end in
      let prompt := snprintf 256 (lit "Delete '" ++ nm ++ lit "'? (y/n): ") in
      let '(_, confirm) := get_string_input 8 cols prompt typed in
      match confirm with
      | c :: _ =>
          if (c =? "y")%char || (c =? "Y")%char then
            let '(ok, st, d) := delete_playlist st d (playlist_selected st) in
            if ok then
              (if (playlist_selected st >=? playlist_count st) && (playlist_count st >? 0)
               then set_playlist_selected st (playlist_count st - 1) else st, d, p)
            else (st, d, p)
          else w
      | [] => w
      end
    else w
  else w.

Definition playlist_songs_view_key (rows now : Z) (ch : Z) (w : World) : World :=
  let '(st, d, p) := w in
  let height := list_height rows in
  let valid := negb ((current_playlist_idx st <? 0)
                     || (current_playlist_idx st >=? playlist_count st)) in
  let n := slot_count st (current_playlist_idx st) in
  if (ch =? KEY_UP) || (ch =? key "k") then
    (if playlist_song_selected st >? 0
     then set_playlist_song_selected st (playlist_song_selected st - 1) else st, d, p)
  else if (ch =? KEY_DOWN) || (ch =? key "j") then
    (if valid && (playlist_song_selected st + 1 <? n)
     then set_playlist_song_selected st (playlist_song_selected st + 1) else st, d, p)
  else if ch =? KEY_PPAGE then
    let sel := playlist_song_selected st - height in
    (set_playlist_song_selected st (if sel <? 0 then 0 else sel), d, p)
  else if ch =? KEY_NPAGE then
    if valid then
      let sel := playlist_song_selected st + height in
      let sel := if sel >=? n then n - 1 else sel in
      (set_playlist_song_selected st (if sel <? 0 then 0 else sel), d, p)
    else w
  else if (ch =? key LF) || (ch =? KEY_ENTER) then
    if valid && (n >? 0) then
      let '(st, p) := play_playlist_song st p now (current_playlist_idx st)
                        (playlist_song_selected st) in
      (st, d, p)
    else w
  else if ch =? key "d" then
    if valid && (n >? 0) then
      let '(ok, st, d) := remove_song_from_playlist st d (current_playlist_idx st)
                            (playlist_song_selected st) in
      if ok then
        let n := slot_count st (current_playlist_idx st) in
        (if (playlist_song_selected st >=? n) && (n >? 0)
         then set_playlist_song_selected st (n - 1) else st, d, p)
      else (st, d, p)
    else w
  else if ch =? key "x" then stop_key w
  else w.

Definition add_to_playlist_view_key (cols : Z) (typed : cstring) (ch : Z) (w : World)
    : World :=
  let '(st, d, p) := w in
  if (ch =? KEY_UP) || (ch =? key "k") then
    (if add_to_playlist_selected st >? 0
     then set_add_to_playlist_selected st (add_to_playlist_selected st - 1) else st, d, p)
  else if (ch =? KEY_DOWN) || (ch =? key "j") then
    (if add_to_playlist_selected st + 1 <? playlist_count st
     then set_add_to_playlist_selected st (add_to_playlist_selected st + 1) else st, d, p)
  else if (ch =? key LF) || (ch =? KEY_ENTER) then
    match song_to_add st with
    | Some i =>
        if playlist_count st >? 0 then
          let '(_, st, d) := add_song_to_playlist st d (add_to_playlist_selected st)
                               (Some (song_at st i)) in
          (set_view (set_song_to_add st None) VIEW_SEARCH, d, p)
        else w
    | None => w
    end
  else if ch =? key "c" then
    let '(idx, (st, d, p)) := create_key cols typed w in
    if idx >=? 0 then
      match song_to_add st with
      | Some i =>
          let '(_, st, d) := add_song_to_playlist st d idx (Some (song_at st i)) in
          (set_view (set_song_to_add st None) VIEW_SEARCH, d, p)
      | None => (st, d, p)
      end
    else (st, d, p)
  else w.

(** One key event of the loop of [main], from [getch] to the redraw:
    the state and whether the loop goes on.  [typed] is what the user
    types when the key opens a prompt, [popen] what a search command
    prints, [now] the reading of the clock. *)
Definition handle_key (popen : cstring -> option cstring) (rows cols now : Z)
    (typed : cstring) (ch : Z) (w : World) : World * bool :=
  if ch =? ERR then (w, true)
  else if ch =? key "q" then (w, false)
  else
    let w := global_key now ch w in
    let w :=
      match view w.1.1 with
      | VIEW_SEARCH => search_view_key popen rows cols now typed ch w
      | VIEW_PLAYLISTS => playlists_view_key rows cols typed ch w
      | VIEW_PLAYLIST_SONGS => playlist_songs_view_key rows now ch w
      | VIEW_ADD_TO_PLAYLIST => add_to_playlist_view_key cols typed ch w
      end in
    ((draw_ui w.1.1 w.1.2 rows, w.1.2, w.2), true).

(** * Notions used in the statements *)

(** [pat] occurs in [h]. *)
Definition contains (pat h : cstring) : Prop := exists pre suf, h = pre ++ pat ++ suf.

(** ** Escaping, byte by byte *)

(** What [json_escape_string] writes for one byte. *)
Definition escape_char (c : ascii) : cstring :=
  if (c =? DQUOTE)%char || (c =? BACKSLASH)%char then [BACKSLASH; c]
  else if (c =? LF)%char then [BACKSLASH; "n"%char]
  else if (c =? CR)%char then [BACKSLASH; "r"%char]
  else if (c =? TAB)%char then [BACKSLASH; "t"%char]
  else [c].

Definition escaped (s : cstring) : cstring := s ≫= escape_char.

(** The bytes that [json_escape_string] writes as two. *)
Definition special (c : ascii) : bool :=
  (c =? DQUOTE)%char || (c =? BACKSLASH)%char || (c =? LF)%char
  || (c =? CR)%char || (c =? TAB)%char.

(** What [sanitize_filename] writes for one byte of the name. *)
Definition sanitize_char (c : ascii) : cstring :=
  if isalnum c || (c =? "-")%char || (c =? "_")%char then [tolower c]
  else if (c =? " ")%char then ["_"%char]
  else [].

(** ** The two record formats *)

(** The value [t] is mistaken for the label [k] when the quoted value ends
    with the quoted label: [t] is [k], or ends with a quote and [k]. *)
Definition confuses (k t : cstring) : Prop :=
  (DQUOTE :: k) `suffix_of` (DQUOTE :: t).

#[global] Instance confuses_dec k t : Decision (confuses k t).
Proof. unfold confuses. apply _. Defined.

Definition object_body (k1 k2 v1 v2 : cstring) : cstring :=
  quoted k1 ++ lit ": " ++ quoted (escaped v1) ++ lit ", "
    ++ quoted k2 ++ lit ": " ++ quoted (escaped v2).

(** An object with the two string fields [k1] and [k2], as [save_playlist]
    and [save_playlists_index] print them. *)
Definition object_text (k1 k2 v1 v2 : cstring) : cstring :=
  "{"%char :: object_body k1 k2 v1 v2 ++ ["}"%char].

(** The pair of values [e] goes through the scan: no closing brace in it,
    and [accept] makes of its object what [make] makes of the values. *)
Definition scannable {A} (k1 k2 : cstring) (accept : cstring -> option A)
    (make : cstring -> cstring -> A) (e : cstring * cstring) : Prop :=
  ("}"%char ∉ fst e) /\ ("}"%char ∉ snd e)
  /\ accept (object_text k1 k2 (fst e) (snd e)) = Some (make (fst e) (snd e)).

(** One line of an array of such objects, and all of them. *)
Definition entry_line (k1 k2 : cstring) (e : cstring * cstring) (last : bool) : cstring :=
  lit "    " ++ object_text k1 k2 (fst e) (snd e) ++ (if last then [] else lit ",") ++ [LF].

Fixpoint entry_lines (k1 k2 : cstring) (es : list (cstring * cstring)) : cstring :=
  match es with
  | [] => []
  | e :: rest =>
      entry_line k1 k2 e (match rest with [] => true | _ => false end)
        ++ entry_lines k1 k2 rest
  end.

(** The two values [save_playlist] prints for a song; a NULL field prints
    as the empty string. *)
Definition song_fields (s : Song) : cstring * cstring :=
  (default [] (title s), default [] (video_id s)).

(** The song [load_playlist_songs] makes of a title and a source id. *)
Definition decoded_song (t v : cstring) : Song :=
  mkSong (Some t) (Some v) (Some (youtube_url v)) 0.

Definition index_fields (pl : Playlist) : cstring * cstring := (name pl, filename pl).

(** A playlist as [load_playlists] leaves it: its songs not loaded yet. *)
Definition unloaded (pl : Playlist) : Playlist := mkPlaylist (name pl) (filename pl) [].

(** A song the playlist format carries: title and source id are there, the
    source id is not empty, the link is the one derived from it and no
    duration is known; no field holds a NUL or a closing brace, and the
    title is not mistaken for the source id label. *)
Definition storable_song (s : Song) : Prop :=
  exists t v,
    s = decoded_song t v /\ v <> []
    /\ (NUL ∉ t) /\ (NUL ∉ v) /\ ("}"%char ∉ t) /\ ("}"%char ∉ v)
    /\ ~ confuses (lit "video_id") t.

(** A playlist the index format carries. *)
Definition storable_entry (pl : Playlist) : Prop :=
  name pl <> [] /\ filename pl <> []
  /\ (NUL ∉ name pl) /\ (NUL ∉ filename pl)
  /\ ("}"%char ∉ name pl) /\ ("}"%char ∉ filename pl)
  /\ ~ confuses (lit "filename") (name pl).

(** ** The playback session *)

(** The size of the source the session plays from. *)
Definition source_size (st : AppState) : Z :=
  if playing_from_playlist st then slot_count st (playing_playlist_idx st)
  else search_count st.

(** The session is at the last index of its source; a session that plays
    from a playlist refers to a playlist slot. *)
Definition at_last_index (st : AppState) : Prop :=
  (playing_from_playlist st = true -> 0 <= playing_playlist_idx st)
  /\ playing_index st = source_size st - 1.

(** The five fields of the playback session. *)
Definition session (st : AppState) : Z * bool * Z * bool * Z :=
  (playing_index st, playing_from_playlist st, playing_playlist_idx st, paused st,
   playback_started st).


(** ** Messages of the player *)




(** The player is connected and its endpoint is there. *)
Definition connected (p : Player) : Prop :=
  0 <= mpv_ipc_fd p /\ socket_present p = true.

(** The line [mpv_load_url] prints for a link, before the cut at the size
    of its buffer. *)
Definition loadfile_line (u : cstring) : cstring :=
  lit "{" ++ quoted (lit "command") ++ lit ":[" ++ quoted (lit "loadfile") ++ lit ","
    ++ quoted (escape_url u) ++ lit "," ++ quoted (lit "replace") ++ lit "]}".

Definition all_space (s : cstring) : Prop := Forall (fun c => isspace c = true) s.

(** What the escaping loop writes for one byte. *)
Definition shell_escape_char (c : ascii) : cstring :=
  if shell_special c then [BACKSLASH; c] else [c].

(** The text stays inside the double quotes of a shell word: a backslash
    is followed by a byte, and no quote, dollar or backquote stands without
    a backslash before it. *)
Fixpoint dq_safe (s : cstring) : bool :=
  match s with
  | [] => true
  | c :: s1 =>
      if (c =? BACKSLASH)%char then
        match s1 with
        | [] => false
        | _ :: s2 => dq_safe s2
        end
      else if shell_special c then false
      else dq_safe s1
  end.

(** A search result as [run_search] stores it. *)
Definition search_result (t vid : cstring) : Song :=
  mkSong (Some t) (Some vid) (Some (lit "https://www.youtube.com/watch?v=" ++ vid)) 0.

Definition INT_MAX : Z := 2147483647.



(** The text of the lines, each with its newline. *)
Definition unlines (lines : list cstring) : cstring :=
  concat ((fun l => l ++ [LF]) <$> lines).

(** The bytes of a storage key before its extension: lower-case letters,
    digits, dash and underscore. *)
Definition key_char (c : ascii) : bool :=
  islower c || isdigit c || (c =? "-")%char || (c =? "_")%char.

(** The song [add_song_to_playlist] stores for [song] with source id [vid]. *)
Definition stored_song (song : Song) (vid : cstring) : Song :=
  mkSong (Some (default (lit "Unknown") (title song))) (Some vid)
    (Some (youtube_url vid)) (duration song).

(** The songs of a playlist as [add_song_to_playlist] sees them: those in
    memory, or those of the file when none is in memory and the playlist
    directory exists. *)
Definition songs_on_add (st : AppState) (d : Disk) (pl : Playlist) : list Song :=
  if (count pl =? 0) && file_exists d (playlists_dir st) then
    match read_content d (playlist_path st (filename pl)) with
    | Some content => decode_songs content
    | None => []
    end
  else items pl.


(** The selection [sel] is a row of the [height] rows shown from [scroll]. *)
Definition in_window (sel scroll height : Z) : Prop := scroll <= sel < scroll + height.

(** The selection is a place of a list of [n] entries, or 0 when the list
    is empty. *)
Definition cursor_ok (sel n : Z) : Prop := 0 <= sel /\ (sel < n \/ sel = 0).

(** The names and storage keys of a library. *)
Definition library_keys (pls : list Playlist) : list (cstring * cstring) :=
  (fun pl => (name pl, filename pl)) <$> pls.

(** The selections a key can act on are places of their lists: the one of
    the search results, the one of the playlists and, while a playlist is
    being chosen for a song, the one of that view. *)
Definition cursors_ok (st : AppState) : Prop :=
  cursor_ok (search_selected st) (search_count st)
  /\ cursor_ok (playlist_selected st) (playlist_count st)
  /\ (view st = VIEW_ADD_TO_PLAYLIST ->
      cursor_ok (add_to_playlist_selected st) (playlist_count st)).


(** The state [st'] is [st] but for scroll offsets, the songs in memory,
    the session and the song to be added. *)
Definition cursor_frame (st st' : AppState) : Prop :=
  search_selected st' = search_selected st
  /\ search_results st' = search_results st
  /\ playlist_selected st' = playlist_selected st
  /\ length (playlists st') = length (playlists st)
  /\ view st' = view st
  /\ add_to_playlist_selected st' = add_to_playlist_selected st.

(** * Sample states *)

(** The application state right after start-up, with the given playlists. *)
Definition sample_state (pls : list Playlist) : AppState :=
  mkAppState [] 0 0 [] pls 0 0 (-1) 0 0 (-1) false (-1) false VIEW_SEARCH 0 0 None 0
    (lit "/home/u/.shellbeats") (lit "/home/u/.shellbeats/playlists")
    (lit "/home/u/.shellbeats/playlists.json").

(** The configuration tree with its two directories and no file yet. *)
Definition sample_disk : Disk :=
  mkDisk ∅ {[ lit "/home/u/.shellbeats"; lit "/home/u/.shellbeats/playlists" ]} false.

Definition sample_song : Song :=
  mkSong (Some (lit "A")) (Some (lit "abc123")) (Some (youtube_url (lit "abc123"))) 0.

Definition road_trip : Playlist := mkPlaylist (lit "Road Trip") (lit "road_trip.json") [].

(** A playlist that holds [MAX_PLAYLIST_ITEMS] songs. *)
Definition full_playlist : Playlist :=
  mkPlaylist (lit "mix") (lit "mix.json")
    (replicate 500 (mkSong (Some (lit "t")) (Some (lit "abcde"))
                      (Some (youtube_url (lit "abcde"))) 0)).

(** [create_playlist] for each of the names in turn. *)
Definition create_all (names : list cstring) (st : AppState) (d : Disk) : AppState * Disk :=
  foldl (fun w nm => let '(_, st', d') := create_playlist w.1 w.2 (Some nm) in (st', d'))
    (st, d) names.

(** Fifty names: a, aa, aaa, ... *)
Definition fifty_names : list cstring :=
  (fun i => replicate (S i) "a"%char) <$> seq 0 50.

Definition full_library : AppState * Disk :=
  create_all fifty_names (sample_state []) sample_disk.

Definition colliding_names : list cstring := [lit "2_a"; lit "a"; lit "a!"].

Definition colliding_library : AppState * Disk :=
  create_all colliding_names (sample_state []) sample_disk.

Definition five_results : list Song :=
  (fun i => mkSong (Some (lit "track")) (Some (replicate 6 (digit_char (Z.of_nat i))))
              (Some (youtube_url (replicate 6 (digit_char (Z.of_nat i))))) 0) <$> seq 0 5.

(** A session over five search results that plays the one at [idx] since
    the clock read [started]. *)
Definition search_session (idx started : Z) : AppState :=
  mkAppState five_results idx 0 (lit "q") [] 0 0 (-1) 0 0 idx false (-1) false
    VIEW_SEARCH 0 0 None started
    (lit "/home/u/.shellbeats") (lit "/home/u/.shellbeats/playlists")
    (lit "/home/u/.shellbeats/playlists.json").

Definition three_songs : Playlist :=
  mkPlaylist (lit "mix") (lit "mix.json")
    [decoded_song (lit "one") (lit "aaaaa1"); decoded_song (lit "two") (lit "aaaaa2");
     decoded_song (lit "three") (lit "aaaaa3")].

(** A session over a playlist of three songs that plays the one at [idx]. *)
Definition playlist_session (idx started : Z) : AppState :=
  mkAppState [] 0 0 [] [three_songs] 0 0 0 idx 0 idx true 0 false
    VIEW_PLAYLIST_SONGS 0 0 None started
    (lit "/home/u/.shellbeats") (lit "/home/u/.shellbeats/playlists")
    (lit "/home/u/.shellbeats/playlists.json").

(** A player connected on descriptor 3 with [data] waiting to be read. *)
Definition connected_player (data : cstring) : Player :=
  mkPlayer 4242 3 true true true 4 4243 true data [].







(** A song as a search gives it, with a closing brace in its title, and one
    with a quote in front of the text of the source id label. *)
Definition braced_song : Song := decoded_song (lit "a}b") (lit "abc123").

Definition quoted_label_song : Song :=
  decoded_song (lit "say " ++ [DQUOTE] ++ lit "video_id") (lit "abc123").

(** A playlist file whose only entry has a source id and no title. *)
Definition title_less_file : cstring :=
  lit "{" ++ [LF] ++ lit "  " ++ quoted (lit "name") ++ lit ": " ++ quoted (lit "mix")
    ++ lit "," ++ [LF] ++ lit "  " ++ quoted (lit "songs") ++ lit ": [" ++ [LF]
    ++ lit "    {" ++ quoted (lit "video_id") ++ lit ": " ++ quoted (lit "abc123")
    ++ lit "}" ++ [LF]
    ++ lit "  ]" ++ [LF] ++ lit "}" ++ [LF].

Definition title_less_object : cstring :=
  lit "{" ++ quoted (lit "video_id") ++ lit ": " ++ quoted (lit "abc123") ++ lit "}".

(** A playlist name that reads like the start of a song array. *)
Definition phantom_name : cstring :=
  quoted (lit "songs") ++ lit ": [{" ++ quoted (lit "title") ++ lit ": "
    ++ quoted (lit "ghost") ++ lit ", " ++ quoted (lit "video_id") ++ lit ": "
    ++ quoted (lit "ghost1") ++ lit "}]".

(** A title with a quote, a backslash, a newline, a carriage return, a tab,
    an opening brace and brackets. *)
Definition tricky_title : cstring :=
  lit "He said " ++ [DQUOTE] ++ lit "hi" ++ [DQUOTE; BACKSLASH; LF; CR; TAB] ++ lit "{[ok]".

Definition tricky_playlist : Playlist :=
  mkPlaylist (lit "Road " ++ [DQUOTE] ++ lit "Trip" ++ [DQUOTE]) (lit "road_trip.json")
    [decoded_song tricky_title (lit "abc123"); decoded_song [] (lit "xyz")].

(** * Properties *)

(** ** Sample runs of the helpers *)

Example escape_sample :
  json_escape_string (Some (lit "a" ++ [DQUOTE; LF] ++ lit "b"))
  = lit "a" ++ [BACKSLASH; DQUOTE; BACKSLASH] ++ lit "nb".
Proof. reflexivity. Qed.

Example get_string_sample :
  json_get_string
    (lit "{" ++ [DQUOTE] ++ lit "title" ++ [DQUOTE] ++ lit ": " ++ [DQUOTE]
     ++ lit "a" ++ [BACKSLASH; DQUOTE] ++ lit "b" ++ [DQUOTE] ++ lit "}")
    (lit "title")
  = Some (lit "a" ++ [DQUOTE] ++ lit "b").
Proof. reflexivity. Qed.

Example print_int_sample : print_int 12 = lit "12" /\ print_int 0 = lit "0".
Proof. split; reflexivity. Qed.

Example sanitize_sample : sanitize_filename (lit "Road Trip #1!") = lit "road_trip_1.json".
Proof. reflexivity. Qed.

(** Create a playlist, add a song, add it again, remove it. *)
Example road_trip_scenario :
  let '(i, st1, d1) := create_playlist (sample_state []) sample_disk (Some (lit "Road Trip")) in
  let '(r1, st2, d2) := add_song_to_playlist st1 d1 i (Some sample_song) in
  let '(r2, st3, d3) := add_song_to_playlist st2 d2 i (Some sample_song) in
  let '(r3, st4, d4) := remove_song_from_playlist st3 d3 i 0 in
  (i, r1, r2, r3) = (0, true, false, true)
  /\ playlists st3 = [mkPlaylist (lit "Road Trip") (lit "road_trip.json") [sample_song]]
  /\ playlists st4 = [road_trip]
  /\ decode_songs <$> read_content d3 (playlist_path st3 (lit "road_trip.json"))
     = Some [sample_song]
  /\ decode_songs <$> read_content d4 (playlist_path st4 (lit "road_trip.json"))
     = Some [].
Proof. vm_compute. repeat split. Qed.

(** From result 2 of 5: one step to 3, one to 4, and none past the end. *)
Example advance_scenario :
  let p0 := connected_player [] in
  let '(st1, p1) := play_next (search_session 2 100) p0 110 in
  let '(st2, p2) := play_next st1 p1 120 in
  let '(st3, p3) := play_next st2 p2 130 in
  (playing_index st1, playing_index st2, playing_index st3) = (3, 4, 4)
  /\ (playback_started st1, playback_started st2, playback_started st3) = (110, 120, 120)
  /\ length (outbox p1) = 2%nat /\ length (outbox p2) = 4%nat /\ p3 = p2.
Proof. vm_compute. repeat split. Qed.

(** ** Bytes and the libc functions *)

Lemma starts_with_spec pat s :
  starts_with pat s = true <-> exists k, s = pat ++ k.
Proof.
  revert s. induction pat as [|a pat IH]; intros s; simpl.
  - split; [intros _; by exists s | done].
  - destruct s as [|b s]; simpl.
    + split; [done | intros [k Hk]; discriminate].
    + rewrite andb_true_iff, IH. split.
      * intros [Hab [k ->]]. apply Ascii.eqb_eq in Hab as ->. by exists k.
      * intros [k Hk]. injection Hk as -> ->. split; [apply Ascii.eqb_refl | by exists k].
Qed.

Lemma starts_with_app pat k : starts_with pat (pat ++ k) = true.
Proof. apply starts_with_spec. by exists k. Qed.

Lemma strstr_unfold h pat :
  strstr h pat =
    if starts_with pat h then Some h
    else match h with [] => None | _ :: h' => strstr h' pat end.
Proof. by destruct h. Qed.

Lemma strstr_Some h pat p :
  strstr h pat = Some p -> exists pre, h = pre ++ p /\ starts_with pat p = true.
Proof.
  induction h as [|c h IH]; rewrite strstr_unfold.
  - destruct (starts_with pat []) eqn:E; [|done]. intros [= <-]. by exists [].
  - destruct (starts_with pat (c :: h)) eqn:E.
    + intros [= <-]. by exists [].
    + intros [pre [-> Hp]]%IH. by exists (c :: pre).
Qed.

Lemma strstr_contains h pat : is_Some (strstr h pat) <-> contains pat h.
Proof.
  split.
  - intros [p Hp]. apply strstr_Some in Hp as [pre [-> [k ->]%starts_with_spec]].
    by exists pre, k.
  - intros [pre [suf ->]]. induction pre as [|c pre IH]; rewrite strstr_unfold.
    + simpl. by rewrite starts_with_app.
    + destruct (starts_with pat _); [done | exact IH].
Qed.

Lemma strstr_None h pat : strstr h pat = None <-> ~ contains pat h.
Proof.
  rewrite <- strstr_contains. apply eq_None_not_Some.
Qed.

Lemma strchr_Some s c q :
  strchr s c = Some q -> exists pre q', s = pre ++ q /\ q = c :: q' /\ c ∉ pre.
Proof.
  induction s as [|x s IH]; simpl; [done|].
  destruct (Ascii.eqb_spec x c) as [->|Hne].
  - intros [= <-]. exists [], s. repeat split. apply not_elem_of_nil.
  - intros (pre & q' & -> & -> & Hpre)%IH. exists (x :: pre), q'.
    repeat split. intros [?|?]%elem_of_cons; congruence.
Qed.

Lemma strchr_skip pre c s : c ∉ pre -> strchr (pre ++ s) c = strchr s c.
Proof.
  induction pre as [|x pre IH]; simpl; [done|]. intros Hni.
  apply not_elem_of_cons in Hni as [Hne Hni].
  destruct (Ascii.eqb_spec x c); [congruence | auto].
Qed.

Lemma strchr_hit c s : strchr (c :: s) c = Some (c :: s).
Proof. simpl. by rewrite Ascii.eqb_refl. Qed.

Lemma strchr_None s c : strchr s c = None <-> c ∉ s.
Proof.
  induction s as [|x s IH]; simpl.
  - split; [intros _; apply not_elem_of_nil | done].
  - destruct (Ascii.eqb_spec x c) as [->|Hne].
    + split; [done | intros []; left].
    + rewrite IH, not_elem_of_cons. split; [by split | by intros []].
Qed.

Lemma c_str_prefix buf : exists rest, buf = c_str buf ++ rest.
Proof.
  induction buf as [|c buf [rest IH]]; simpl; [by exists []|].
  destruct (c =? NUL)%char; [by exists (c :: buf)|].
  exists rest. simpl. by f_equal.
Qed.

Lemma c_str_wf s : cstr_wf s -> c_str s = s.
Proof.
  unfold cstr_wf. induction s as [|c s IH]; simpl; [done|]. intros Hni.
  apply not_elem_of_cons in Hni as [Hne Hni].
  destruct (Ascii.eqb_spec c NUL); [congruence | by rewrite IH].
Qed.


Lemma strcmp_refl a : strcmp a a = 0.
Proof. induction a as [|x a IH]; simpl; [done|]. by rewrite Ascii.eqb_refl. Qed.

Lemma strcasecmp_fold a b : tolower <$> a = tolower <$> b -> strcasecmp a b = 0.
Proof.
  revert b. induction a as [|x a IH]; intros [|y b]; simpl; try done.
  intros [= Hxy Hab]. rewrite Hxy, Ascii.eqb_refl. auto.
Qed.

(** ** The object scan *)

Lemma strchr_length s c q : strchr s c = Some q -> (0 < length q <= length s)%nat.
Proof.
  intros (pre & q' & -> & -> & _)%strchr_Some. rewrite length_app. simpl. lia.
Qed.

Lemma parse_objects_fuel {A} (accept : cstring -> option A) max f1 f2 n p :
  (length p <= f1)%nat -> (length p <= f2)%nat ->
  parse_objects accept max f1 n p = parse_objects accept max f2 n p.
Proof.
  revert f2 n p. induction f1 as [|f1 IH]; intros f2 n p H1 H2.
  - destruct p; [|simpl in H1; lia]. destruct f2; simpl; [done|].
    by destruct (negb (n <? max)).
  - destruct f2 as [|f2].
    + destruct p; [|simpl in H2; lia]. simpl. by destruct (negb (n <? max)).
    + simpl. destruct (negb (n <? max)); [done|].
      destruct (strchr p "{") as [obj_start|] eqn:Hs; [|done].
      destruct (strchr obj_start "}") as [obj_end|] eqn:He; [|done].
      apply strchr_length in Hs, He.
      assert (length (drop 1 obj_end) < length p)%nat by (rewrite length_drop; lia).
      destruct (accept _); [f_equal|]; apply IH; lia.
Qed.

Lemma parse_objects_bound {A} (accept : cstring -> option A) max fuel n p :
  0 <= n <= max ->
  Z.of_nat (length (parse_objects accept max fuel n p)) <= max - n.
Proof.
  revert n p. induction fuel as [|fuel IH]; intros n p Hn; simpl; [lia|].
  destruct (Z.ltb_spec n max); simpl; [|lia].
  destruct (strchr p "{") as [obj_start|]; [|simpl; lia].
  destruct (strchr obj_start "}") as [obj_end|]; [|simpl; lia].
  destruct (accept _).
  - simpl length. specialize (IH (n + 1) (drop 1 obj_end)). lia.
  - specialize (IH n (drop 1 obj_end)). lia.
Qed.

Lemma parse_objects_S {A} (accept : cstring -> option A) max fuel n p :
  parse_objects accept max (S fuel) n p =
    if negb (n <? max) then []
    else match strchr p "{"%char with
         | None => []
         | Some obj_start =>
             match strchr obj_start "}"%char with
             | None => []
             | Some obj_end =>
                 let obj_len := (length obj_start - length obj_end + 1)%nat in
                 let obj := take obj_len obj_start in
                 let p' := drop 1 obj_end in
                 match accept obj with
                 | Some x => x :: parse_objects accept max fuel (n + 1) p'
                 | None => parse_objects accept max fuel n p'
                 end
             end
         end.
Proof. reflexivity. Qed.

(** One round of the scan over [junk ++ "{" ++ body ++ "}" ++ rest]. *)
Lemma parse_objects_step {A} (accept : cstring -> option A) max n junk body rest :
  "{"%char ∉ junk -> "}"%char ∉ body -> n < max ->
  let obj := "{"%char :: body ++ ["}"%char] in
  let p := junk ++ "{"%char :: body ++ "}"%char :: rest in
  parse_objects accept max (length p) n p =
    match accept obj with
    | Some x => x :: parse_objects accept max (length rest) (n + 1) rest
    | None => parse_objects accept max (length rest) n rest
    end.
Proof.
  intros Hj Hb Hn obj p.
  assert (Hs1 : strchr p "{" = Some ("{"%char :: body ++ "}"%char :: rest)).
  { unfold p. by rewrite strchr_skip, strchr_hit. }
  assert (Hs2 : strchr ("{"%char :: body ++ "}"%char :: rest) "}" = Some ("}"%char :: rest)).
  { change (strchr (("{"%char :: body) ++ "}"%char :: rest) "}" = Some ("}"%char :: rest)).
    rewrite strchr_skip, strchr_hit; [done|].
    intros [?|?]%elem_of_cons; [done | contradiction]. }
  assert (Ht : take (length ("{"%char :: body ++ "}"%char :: rest)
                     - length ("}"%char :: rest) + 1)
                 ("{"%char :: body ++ "}"%char :: rest) = obj).
  { replace ("{"%char :: body ++ "}"%char :: rest) with (obj ++ rest)
      by (unfold obj; simpl; by rewrite <- app_assoc).
    replace (length (obj ++ rest) - length ("}"%char :: rest) + 1)%nat with (length obj).
    - apply take_app_length.
    - unfold obj. simpl. rewrite !length_app. simpl. lia. }
  assert (Hlen : length p = S (length junk + length body + 1 + length rest)).
  { unfold p. rewrite length_app. simpl. rewrite length_app. simpl. lia. }
  rewrite Hlen, parse_objects_S.
  destruct (Z.ltb_spec n max); [|lia]. cbn [negb].
  rewrite Hs1, Hs2. cbv zeta. rewrite Ht. cbn [drop].
  destruct (accept obj); [f_equal|]; apply parse_objects_fuel; lia.
Qed.

(** ** Library store: capacity and duplicate songs *)

Lemma index_in_range {A} (l : list A) (idx : Z) (x : A) :
  0 <= idx -> l !! Z.to_nat idx = Some x ->
  (idx <? 0) || (idx >=? Z.of_nat (length l)) = false.
Proof.
  intros Hge Hl. apply lookup_lt_Some in Hl.
  apply orb_false_iff. split; [apply Z.ltb_ge; lia | rewrite Z.geb_leb; apply Z.leb_gt; lia].
Qed.

Lemma set_items_lookup st i pl songs :
  playlists st !! i = Some pl ->
  playlists (set_items st i songs) !! i = Some (mkPlaylist (name pl) (filename pl) songs).
Proof.
  intros Hl. unfold set_items. rewrite Hl. simpl.
  apply list_lookup_insert_eq. by apply lookup_lt_Some in Hl.
Qed.

Lemma set_items_length st i songs :
  length (playlists (set_items st i songs)) = length (playlists st).
Proof.
  unfold set_items. destruct (playlists st !! i); [|done]. simpl. apply length_insert.
Qed.

Lemma decode_songs_bound content :
  Z.of_nat (length (decode_songs content)) <= MAX_PLAYLIST_ITEMS.
Proof.
  unfold decode_songs, parse_array.
  destruct (strstr content _); [|simpl; unfold MAX_PLAYLIST_ITEMS; lia].
  destruct (strchr _ _); [|simpl; unfold MAX_PLAYLIST_ITEMS; lia].
  pose proof (parse_objects_bound song_of_object MAX_PLAYLIST_ITEMS (length l0) 0 l0).
  unfold MAX_PLAYLIST_ITEMS in *. lia.
Qed.

Lemma load_playlist_songs_lookup st d idx pl :
  0 <= idx -> playlists st !! Z.to_nat idx = Some pl ->
  exists songs,
    playlists (load_playlist_songs st d idx) !! Z.to_nat idx
      = Some (mkPlaylist (name pl) (filename pl) songs)
    /\ Z.of_nat (length songs) <= MAX_PLAYLIST_ITEMS.
Proof.
  intros Hge Hl. unfold load_playlist_songs, playlist_count.
  rewrite (index_in_range _ _ _ Hge Hl), Hl.
  destruct (read_content d _) as [content|].
  - exists (decode_songs content). split; [by apply set_items_lookup|].
    apply decode_songs_bound.
  - exists []. split; [by apply set_items_lookup|]. simpl. unfold MAX_PLAYLIST_ITEMS. lia.
Qed.

(** C10.  A playlist that holds [MAX_PLAYLIST_ITEMS] songs takes no more:
    [add_song_to_playlist] returns false and leaves the application state
    and the disk as they were; and whatever the file contains, the decoder
    yields at most [MAX_PLAYLIST_ITEMS] songs, both as a function of the
    text and in the playlist left by [load_playlist_songs]. *)
Theorem capacity_limit st d idx song pl :
  0 <= idx ->
  playlists st !! Z.to_nat idx = Some pl ->
  count pl = MAX_PLAYLIST_ITEMS ->
  add_song_to_playlist st d idx song = (false, st, d)
  /\ (forall content, Z.of_nat (length (decode_songs content)) <= MAX_PLAYLIST_ITEMS)
  /\ (forall d' pl',
        playlists (load_playlist_songs st d' idx) !! Z.to_nat idx = Some pl' ->
        count pl' <= MAX_PLAYLIST_ITEMS).
Proof.
  intros Hge Hl Hfull. split; [|split].
  - unfold add_song_to_playlist, playlist_count.
    rewrite (index_in_range _ _ _ Hge Hl).
    destruct song as [song|]; [|done].
    destruct (video_id song) as [vid|]; [|done].
    rewrite Hl, Hfull. cbn [Z.eqb MAX_PLAYLIST_ITEMS andb].
    rewrite Hl, Hfull. reflexivity.
  - apply decode_songs_bound.
  - intros d' pl' Hl'.
    destruct (load_playlist_songs_lookup st d' idx pl Hge Hl) as (songs & Hs & Hb).
    rewrite Hs in Hl'. injection Hl' as <-. exact Hb.
Qed.

Lemma capacity_limit_witness :
  add_song_to_playlist (sample_state [full_playlist]) sample_disk 0
    (Some (mkSong (Some (lit "new")) (Some (lit "zzzzz")) None 0))
  = (false, sample_state [full_playlist], sample_disk).
Proof.
  apply (capacity_limit (sample_state [full_playlist]) sample_disk 0
           (Some (mkSong (Some (lit "new")) (Some (lit "zzzzz")) None 0)) full_playlist).
  - lia.
  - reflexivity.
  - reflexivity.
Defined.

Lemma same_video_false vid s : same_video vid s = false -> video_id s <> Some vid.
Proof.
  unfold same_video. intros H Heq. rewrite Heq, strcmp_refl in H. discriminate.
Qed.

Lemma same_video_true vid s : video_id s = Some vid -> same_video vid s = true.
Proof. unfold same_video. intros ->. by rewrite strcmp_refl. Qed.

Lemma filter_no_copy vid (songs : list Song) :
  existsb (same_video vid) songs = false ->
  filter (fun s => video_id s = Some vid) songs = [].
Proof.
  induction songs as [|s songs IH]; simpl; [done|].
  intros [Hs Hr]%orb_false_iff. rewrite filter_cons.
  destruct (decide _) as [Heq|_]; [by apply same_video_false in Hs | auto].
Qed.

(** What a successful [add_song_to_playlist] did. *)
Lemma add_song_success st0 d0 idx song st d :
  add_song_to_playlist st0 d0 idx (Some song) = (true, st, d) ->
  exists st1 pl1 vid t,
    video_id song = Some vid
    /\ playlists st1 !! Z.to_nat idx = Some pl1
    /\ count pl1 < MAX_PLAYLIST_ITEMS
    /\ existsb (same_video vid) (items pl1) = false
    /\ st = set_items st1 (Z.to_nat idx)
              (items pl1 ++ [mkSong (Some t) (Some vid) (Some (youtube_url vid)) (duration song)])
    /\ d = save_playlist st d0 idx.
Proof.
  unfold add_song_to_playlist.
  destruct (_ || _); [done|].
  destruct (video_id song) as [vid|]; [|done].
  destruct (playlists st0 !! Z.to_nat idx) as [pl|]; [|done].
  match goal with |- context [if ?c then ?a else st0] =>
    set (st1 := if c then a else st0) end.
  destruct (playlists st1 !! Z.to_nat idx) as [pl1|] eqn:Hl1; [|done].
  destruct (Z.geb_spec (count pl1) MAX_PLAYLIST_ITEMS) as [|Hlt]; [done|].
  destruct (existsb _ _) eqn:Hex; [done|].
  intros [= <- <-].
  exists st1, pl1, vid, (match title song with Some t => t | None => lit "Unknown" end).
  repeat split; first [done | lia].
Qed.

(** C5.  When the playlist already holds a song with the source id of the
    song offered, [add_song_to_playlist] returns false and leaves the
    application state (hence the song list) and the disk as they were; so
    a second call after a call that added the song changes nothing, and
    the playlist then holds exactly one song with that id. *)
Theorem no_duplicate_songs st d idx song vid pl s0 :
  0 <= idx ->
  playlists st !! Z.to_nat idx = Some pl ->
  video_id song = Some vid ->
  s0 ∈ items pl ->
  video_id s0 = Some vid ->
  add_song_to_playlist st d idx (Some song) = (false, st, d)
  /\ (forall st0 d0,
        add_song_to_playlist st0 d0 idx (Some song) = (true, st, d) ->
        length (filter (fun s => video_id s = Some vid) (items pl)) = 1%nat).
Proof.
  intros Hge Hl Hvid Hin Hs0. split.
  - unfold add_song_to_playlist, playlist_count.
    rewrite (index_in_range _ _ _ Hge Hl), Hvid, Hl.
    assert (Hne : (count pl =? 0) = false).
    { apply Z.eqb_neq. unfold count. destruct (items pl); [by apply elem_of_nil in Hin|].
      simpl length. lia. }
    rewrite Hne. cbn [andb]. rewrite Hl.
    destruct (count pl >=? MAX_PLAYLIST_ITEMS); [done|].
    assert (Hex : existsb (same_video vid) (items pl) = true).
    { apply existsb_exists. exists s0. split; [by apply list_elem_of_In|].
      by apply same_video_true. }
    by rewrite Hex.
  - intros st0 d0 Hadd.
    apply add_song_success in Hadd
      as (st1 & pl1 & vid' & t & Hvid' & Hl1 & _ & Hex & -> & _).
    rewrite Hvid in Hvid'. injection Hvid' as <-.
    rewrite (set_items_lookup _ _ _ _ Hl1) in Hl. injection Hl as <-. simpl.
    rewrite filter_app, (filter_no_copy _ _ Hex), filter_cons. simpl.
    by destruct (decide _).
Qed.

Lemma no_duplicate_songs_witness :
  let st0 := sample_state [road_trip] in
  let st1 := sample_state [mkPlaylist (lit "Road Trip") (lit "road_trip.json") [sample_song]] in
  let d1 := save_playlist st1 sample_disk 0 in
  add_song_to_playlist st0 sample_disk 0 (Some sample_song) = (true, st1, d1)
  /\ add_song_to_playlist st1 d1 0 (Some sample_song) = (false, st1, d1)
  /\ length (filter (fun s => video_id s = Some (lit "abc123")) [sample_song]) = 1%nat.
Proof.
  intros st0 st1 d1.
  assert (Hfirst : add_song_to_playlist st0 sample_disk 0 (Some sample_song) = (true, st1, d1))
    by reflexivity.
  destruct (no_duplicate_songs st1 d1 0 sample_song (lit "abc123")
              (mkPlaylist (lit "Road Trip") (lit "road_trip.json") [sample_song])
              sample_song) as [Hsecond Hone].
  - lia.
  - reflexivity.
  - reflexivity.
  - apply list_elem_of_In. left. reflexivity.
  - reflexivity.
  - split; [exact Hfirst|]. split; [exact Hsecond|].
    exact (Hone st0 sample_disk Hfirst).
Defined.

(** ** Library store: creating and deleting playlists *)

Lemma create_playlist_full st d nm :
  playlist_count st >= MAX_PLAYLISTS -> create_playlist st d nm = (-1, st, d).
Proof.
  intros H. unfold create_playlist.
  destruct (Z.geb_spec (playlist_count st) MAX_PLAYLISTS); [done | lia].
Qed.

(** C4, as stated, fails on a full library: with fifty playlists, one of
    them named [a], creating [A] returns the general failure -1 and not the
    duplicate-name failure -2, since the capacity test comes first. *)
Lemma duplicate_name_full_library :
  playlist_count full_library.1 = 50
  /\ (exists pl, pl ∈ playlists full_library.1
                 /\ tolower <$> name pl = tolower <$> lit "A")
  /\ (create_playlist full_library.1 full_library.2 (Some (lit "A"))).1.1 = -1
  /\ (create_playlist full_library.1 full_library.2 (Some (lit "A"))).1.1 <> -2.
Proof.
  assert (Hc : playlist_count full_library.1 = 50) by (vm_compute; reflexivity).
  split; [exact Hc|]. split.
  - exists (mkPlaylist (lit "a") (lit "a.json") []). split; [|reflexivity].
    apply list_elem_of_lookup. exists 0%nat. vm_compute. reflexivity.
  - rewrite create_playlist_full by (rewrite Hc; unfold MAX_PLAYLISTS; lia).
    simpl. split; [reflexivity | discriminate].
Qed.

Lemma create_playlist_duplicate st d nm pl :
  pl ∈ playlists st ->
  nm <> [] ->
  tolower <$> name pl = tolower <$> nm ->
  create_playlist st d (Some nm)
  = (if playlist_count st <? MAX_PLAYLISTS then -2 else -1, st, d).
Proof.
  intros Hin Hne Hcase. unfold create_playlist.
  destruct (Z.geb_spec (playlist_count st) MAX_PLAYLISTS) as [Hfull|Hroom].
  - destruct (Z.ltb_spec (playlist_count st) MAX_PLAYLISTS); [lia | done].
  - destruct (Z.ltb_spec (playlist_count st) MAX_PLAYLISTS); [|lia].
    destruct nm as [|c nm]; [done|].
    assert (Hex : existsb (fun pl => strcasecmp (name pl) (c :: nm) =? 0) (playlists st) = true).
    { apply existsb_exists. exists pl. split; [by apply list_elem_of_In|].
      apply Z.eqb_eq. by apply strcasecmp_fold. }
    by rewrite Hex.
Qed.

(** A successful [create_playlist] appends a playlist of the given name
    under the key derived from it: the sanitized name, with the position of
    the new entry in front when that key is taken. *)
Lemma create_playlist_success st d nm i st' d' :
  create_playlist st d (Some nm) = (i, st', d') -> 0 <= i ->
  let key := sanitize_filename nm in
  let taken := existsb (fun pl => strcmp (filename pl) key =? 0) (playlists st) in
  nm <> [] /\ i = playlist_count st
  /\ playlists st' =
       playlists st ++
       [mkPlaylist nm
          (if taken
           then snprintf (Z.of_nat (length key) + 10)
                  (print_int (playlist_count st) ++ lit "_" ++ key)
           else key) []].
Proof.
  unfold create_playlist.
  destruct (_ >=? _); [intros [= <- _ _]; lia|].
  destruct nm as [|c nm]; [intros [= <- _ _]; lia|].
  destruct (existsb _ _); [intros [= <- _ _]; lia|].
  intros [= <- <- _] _. by repeat split.
Qed.

(** C4, amended.  When the library holds a playlist whose name equals the
    new, non-empty name up to ASCII case, [create_playlist] fails and
    leaves the application state (count and entries) and the disk as they
    were; the failure is the duplicate-name code -2 while the library holds
    fewer than [MAX_PLAYLISTS] playlists, and the general code -1 once it
    is full.  So after a call that created a playlist, a call with any case
    variant of the name fails and changes nothing. *)
Theorem duplicate_name_rejected st d nm pl :
  pl ∈ playlists st ->
  nm <> [] ->
  tolower <$> name pl = tolower <$> nm ->
  create_playlist st d (Some nm)
  = (if playlist_count st <? MAX_PLAYLISTS then -2 else -1, st, d)
  /\ (forall st0 d0 nm0 i,
        create_playlist st0 d0 (Some nm0) = (i, st, d) -> 0 <= i ->
        tolower <$> nm0 = tolower <$> nm ->
        exists e, e < 0 /\ create_playlist st d (Some nm) = (e, st, d)).
Proof.
  intros Hin Hne Hcase. split; [by apply (create_playlist_duplicate st d nm pl)|].
  intros st0 d0 nm0 i Hc Hi Hcase0.
  destruct (create_playlist_success _ _ _ _ _ _ Hc Hi) as (Hne0 & _ & Hpl).
  exists (if playlist_count st <? MAX_PLAYLISTS then -2 else -1). split.
  - destruct (_ <? _); lia.
  - match type of Hpl with
    | _ = _ ++ [?new] => apply (create_playlist_duplicate st d nm new)
    end; [|exact Hne|exact Hcase0].
    rewrite Hpl. apply elem_of_app. right. apply list_elem_of_In. by left.
Qed.

Lemma duplicate_name_rejected_witness :
  let st1 := sample_state [road_trip] in
  let d1 := save_playlist st1 (save_playlists_index st1 sample_disk) 0 in
  create_playlist (sample_state []) sample_disk (Some (lit "Road Trip")) = (0, st1, d1)
  /\ create_playlist st1 d1 (Some (lit "ROAD trip")) = (-2, st1, d1)
  /\ exists e, e < 0 /\ create_playlist st1 d1 (Some (lit "ROAD trip")) = (e, st1, d1).
Proof.
  intros st1 d1.
  assert (Hfirst : create_playlist (sample_state []) sample_disk (Some (lit "Road Trip"))
                   = (0, st1, d1)) by reflexivity.
  destruct (duplicate_name_rejected st1 d1 (lit "ROAD trip") road_trip) as [Hsecond Htwice].
  - apply list_elem_of_In. left. reflexivity.
  - discriminate.
  - reflexivity.
  - split; [exact Hfirst|]. split; [exact Hsecond|].
    apply (Htwice (sample_state []) sample_disk (lit "Road Trip") 0 Hfirst); [lia|reflexivity].
Defined.

(** [strcmp] returns 0 only on equal strings. *)
Lemma strcmp_eq a b : cstr_wf a -> cstr_wf b -> strcmp a b = 0 -> a = b.
Proof.
  unfold cstr_wf. revert b. induction a as [|x a IH]; intros [|y b] Ha Hb; simpl.
  - done.
  - apply not_elem_of_cons in Hb as [Hy _]. intros H.
    assert (code y = 0) as Hc by lia. destruct Hy.
    unfold code in Hc. apply (f_equal Z.to_N) in Hc. rewrite N2Z.id in Hc.
    apply (f_equal ascii_of_N) in Hc. by rewrite ascii_N_embedding in Hc.
  - apply not_elem_of_cons in Ha as [Hx _]. intros Hc. destruct Hx.
    unfold code in Hc. apply (f_equal Z.to_N) in Hc. rewrite N2Z.id in Hc.
    apply (f_equal ascii_of_N) in Hc. by rewrite ascii_N_embedding in Hc.
  - apply not_elem_of_cons in Ha as [_ Ha]. apply not_elem_of_cons in Hb as [_ Hb].
    destruct (Ascii.eqb_spec x y) as [->|Hne].
    + intros H. f_equal. by apply IH.
    + intros H. destruct Hne.
      assert (Hc : code x = code y) by lia.
      unfold code in Hc. apply N2Z.inj in Hc.
      rewrite <- (ascii_N_embedding x), <- (ascii_N_embedding y). by rewrite Hc.
Qed.

(** The storage keys stay pairwise distinct through a [create_playlist]
    whose sanitized key is not taken; only the prefixed key goes in
    unchecked. *)
Lemma create_playlist_keeps_keys_distinct st d nm i st' d' :
  create_playlist st d (Some nm) = (i, st', d') -> 0 <= i ->
  Forall (fun pl => cstr_wf (filename pl)) (playlists st) ->
  cstr_wf (sanitize_filename nm) ->
  NoDup (filename <$> playlists st) ->
  sanitize_filename nm ∉ filename <$> playlists st ->
  filename <$> playlists st' = (filename <$> playlists st) ++ [sanitize_filename nm]
  /\ NoDup (filename <$> playlists st').
Proof.
  intros Hc Hi Hwf Hkey Hnd Hfresh.
  destruct (create_playlist_success _ _ _ _ _ _ Hc Hi) as (_ & _ & Hpl).
  assert (Hfree : existsb (fun pl => strcmp (filename pl) (sanitize_filename nm) =? 0)
                    (playlists st) = false).
  { destruct (existsb _ _) eqn:E; [|done].
    apply existsb_exists in E as (pl & Hin & Heq). destruct Hfresh.
    apply list_elem_of_In in Hin. apply Z.eqb_eq in Heq.
    apply strcmp_eq in Heq; [|by apply (proj1 (Forall_forall _ _) Hwf)|done].
    rewrite <- Heq. by apply list_elem_of_fmap_2. }
  rewrite Hfree in Hpl. rewrite Hpl, fmap_app. cbn [fmap list_fmap filename].
  split; [done|]. apply NoDup_app. repeat split; [done| |apply NoDup_singleton].
  intros x Hx Hx'. apply list_elem_of_singleton in Hx'. by subst.
Qed.

Lemma sanitize_loop_spec len s j :
  j + Z.of_nat (length s) <= len ->
  sanitize_loop len s j = s ≫= sanitize_char.
Proof.
  revert j. induction s as [|c s IH]; intros j Hj; simpl; [done|].
  simpl length in Hj.
  destruct (Z.ltb_spec j len); [|lia]. cbn [negb]. unfold sanitize_char at 1.
  destruct (_ || _); [|destruct (_ =? _)%char]; simpl; rewrite IH; try done; lia.
Qed.

Lemma sanitize_filename_spec nm :
  sanitize_filename nm = (nm ≫= sanitize_char) ++ lit ".json".
Proof. unfold sanitize_filename. rewrite sanitize_loop_spec; [done | lia]. Qed.

(** C9.  Three calls of [create_playlist] on the empty library, with the
    names [2_a], [a] and [a!]: the third name sanitizes to the key of the
    second, is given the prefix of its position 2, and so receives the key
    of the first.  The keys are not pairwise distinct. *)
Theorem storage_key_collision :
  name <$> playlists colliding_library.1 = [lit "2_a"; lit "a"; lit "a!"]
  /\ filename <$> playlists colliding_library.1
     = [lit "2_a.json"; lit "a.json"; lit "2_a.json"]
  /\ ~ NoDup (filename <$> playlists colliding_library.1).
Proof.
  assert (H : filename <$> playlists colliding_library.1
              = [lit "2_a.json"; lit "a.json"; lit "2_a.json"])
    by (vm_compute; reflexivity).
  split; [vm_compute; reflexivity|]. split; [exact H|].
  rewrite H. intros Hnd. apply NoDup_cons in Hnd as [Hni _].
  apply Hni. right. left.
Qed.

Lemma fopen_w_writable d path : fopen_w d path = true -> read_only d = false.
Proof. unfold fopen_w. by destruct (read_only d). Qed.

Lemma fopen_w_read_only d path : read_only d = true -> fopen_w d path = false.
Proof. unfold fopen_w. by intros ->. Qed.

(** What can be opened for writing depends on the directories and on
    whether the tree takes writes, not on the files. *)
Lemma fopen_w_files d d' path :
  dirs d' = dirs d -> read_only d' = read_only d -> fopen_w d' path = fopen_w d path.
Proof. unfold fopen_w. by intros -> ->. Qed.

(** What [delete_playlist] does for a valid index on a tree where the
    index file can be written: the entry is removed and the order of the
    others kept, the file of the entry is gone, and every other path that
    is not the index file keeps what it held. *)
Lemma delete_playlist_spec st d idx pl :
  0 <= idx -> playlists st !! Z.to_nat idx = Some pl ->
  fopen_w d (playlists_index st) = true ->
  playlist_path st (filename pl) <> playlists_index st ->
  exists st' d',
    delete_playlist st d idx = (true, st', d')
    /\ playlists st' = delete (Z.to_nat idx) (playlists st)
    /\ (forall j, (j < Z.to_nat idx)%nat -> playlists st' !! j = playlists st !! j)
    /\ (forall j, (Z.to_nat idx <= j)%nat -> playlists st' !! j = playlists st !! S j)
    /\ files d' !! playlist_path st (filename pl) = None
    /\ (forall q, q <> playlist_path st (filename pl) -> q <> playlists_index st ->
                  files d' !! q = files d !! q).
Proof.
  intros Hge Hl Hopen Hidx. unfold delete_playlist, playlist_count.
  rewrite (index_in_range _ _ _ Hge Hl), Hl.
  eexists _, _. split; [reflexivity|].
  pose proof (fopen_w_writable _ _ Hopen) as Hrw.
  unfold save_playlists_index, unlink. rewrite Hrw.
  cbn [set_playlists playlists_index]. rewrite (fopen_w_files d) by done.
  rewrite Hopen. cbn.
  repeat split.
  - intros j Hj. by apply list_lookup_delete_lt.
  - intros j Hj. by apply list_lookup_delete_ge.
  - rewrite lookup_insert_ne by done. apply lookup_delete_eq.
  - intros q Hq Hqi. rewrite lookup_insert_ne by done. by apply lookup_delete_ne.
Qed.

(** C6.  On the library built by the three calls above, deleting playlist 0
    (named [2_a]) succeeds, leaves the playlists [a] and [a!] in this
    order, and removes the file [2_a.json], which is also the file of the
    playlist [a!] that stays in the library: that playlist had its file
    before the call and has none after it. *)
Theorem delete_removes_shared_file :
  let st := colliding_library.1 in
  let d := colliding_library.2 in
  let r := delete_playlist st d 0 in
  let shared := playlist_path st (lit "2_a.json") in
  r.1.1 = true
  /\ playlists r.1.2 = [mkPlaylist (lit "a") (lit "a.json") [];
                        mkPlaylist (lit "a!") (lit "2_a.json") []]
  /\ is_Some (files d !! shared)
  /\ files r.2 !! shared = None.
Proof. vm_compute. repeat split. by eexists. Qed.

(** ** Playback session *)

(** C3.  At the last index of its source [play_next] returns the
    application state and the player as they were, so that no field of the
    session changes and nothing is sent to the player; at index 0
    [play_prev] does the same. *)
Theorem advance_bounds_safe st_last st_first p now :
  at_last_index st_last ->
  playing_index st_first = 0 ->
  play_next st_last p now = (st_last, p)
  /\ play_prev st_first p now = (st_first, p).
Proof.
  intros [Hpl Hlast] Hfirst. split.
  - unfold play_next. unfold source_size in Hlast.
    destruct (playing_from_playlist st_last).
    + specialize (Hpl eq_refl).
      destruct (Z.geb_spec (playing_playlist_idx st_last) 0); [|lia]. cbn [andb].
      destruct (Z.ltb_spec (playing_index st_last + 1)
                  (slot_count st_last (playing_playlist_idx st_last))); [lia | done].
    + cbn [andb]. destruct (search_count st_last >? 0); [|done].
      destruct (Z.ltb_spec (playing_index st_last + 1) (search_count st_last)); [lia | done].
  - unfold play_prev. rewrite Hfirst. cbn.
    by destruct (_ && _); [|destruct (_ >? _)].
Qed.

Lemma advance_bounds_safe_witness :
  play_next (search_session 4 100) (connected_player []) 200
    = (search_session 4 100, connected_player [])
  /\ play_prev (search_session 0 100) (connected_player []) 200
    = (search_session 0 100, connected_player [])
  /\ play_next (playlist_session 2 100) (connected_player []) 200
    = (playlist_session 2 100, connected_player [])
  /\ play_prev (playlist_session 0 100) (connected_player []) 200
    = (playlist_session 0 100, connected_player []).
Proof.
  destruct (advance_bounds_safe (search_session 4 100) (search_session 0 100)
              (connected_player []) 200) as [Hnext Hprev].
  - split; [discriminate | reflexivity].
  - reflexivity.
  - destruct (advance_bounds_safe (playlist_session 2 100) (playlist_session 0 100)
                (connected_player []) 200) as [Hnext' Hprev'].
    + split; [intros _; cbn; lia | reflexivity].
    + reflexivity.
    + by repeat split.
Defined.

Lemma play_search_result_index st p now idx :
  playing_index (play_search_result st p now idx).1 = playing_index st
  \/ playing_index (play_search_result st p now idx).1 = idx.
Proof.
  unfold play_search_result. destruct (_ || _); [by left|].
  destruct (_ !! _) as [s|]; [|by left]. destruct (url s); [by right | by left].
Qed.

Lemma play_playlist_song_index st p now pidx idx :
  playing_index (play_playlist_song st p now pidx idx).1 = playing_index st
  \/ playing_index (play_playlist_song st p now pidx idx).1 = idx.
Proof.
  unfold play_playlist_song. destruct (_ || _); [by left|].
  destruct (_ !! _) as [pl|]; [|by left]. destruct (_ || _); [by left|].
  destruct (_ !! _) as [s|]; [|by left]. destruct (url s); [by right | by left].
Qed.

(** One call of [play_next] moves the position by one step or not at all. *)
Lemma play_next_index st p now :
  playing_index (play_next st p now).1 = playing_index st
  \/ playing_index (play_next st p now).1 = playing_index st + 1.
Proof.
  unfold play_next. destruct (_ && _).
  - destruct (_ <? _); [|by left].
    pose proof (play_playlist_song_index st p now (playing_playlist_idx st)
                  (playing_index st + 1)) as H.
    destruct (play_playlist_song _ _ _ _ _) as [st' p']. exact H.
  - destruct (_ >? _); [|by left]. destruct (_ <? _); [|by left].
    pose proof (play_search_result_index st p now (playing_index st + 1)) as H.
    destruct (play_search_result _ _ _ _) as [st' p']. exact H.
Qed.


(** ** The control channel *)

(** Closed decidable facts about the constant texts of the formats. *)
Ltac by_computation := apply (bool_decide_unpack _); vm_compute; exact I.











(** On an open descriptor [mpv_connect] has nothing to do, and a command
    goes out as a line of its own. *)
Lemma mpv_connect_connected p : 0 <= mpv_ipc_fd p -> mpv_connect p = (true, p).
Proof. intros H. unfold mpv_connect. destruct (Z.geb_spec (mpv_ipc_fd p) 0); [done | lia]. Qed.

Lemma mpv_send_command_connected cmd p :
  0 <= mpv_ipc_fd p -> mpv_send_command cmd p = write_line (write_line p cmd) [LF].
Proof. intros H. unfold mpv_send_command. by rewrite mpv_connect_connected. Qed.

Lemma mpv_start_if_needed_connected p : connected p -> mpv_start_if_needed p = p.
Proof.
  intros [Hfd Hs]. unfold mpv_start_if_needed.
  by rewrite Hs, mpv_connect_connected.
Qed.








(** ** Escaping and extraction of string values *)

(** The [j < alloc - 2] guard of [json_escape_string] never fires. *)
Lemma json_escape_loop_spec bound s j :
  j + 2 * Z.of_nat (length s) - 1 <= bound ->
  json_escape_loop bound s j = escaped s.
Proof.
  revert j. induction s as [|c s IH]; intros j Hj; [done|].
  simpl length in Hj. cbn [json_escape_loop].
  destruct (Z.ltb_spec j bound); [|lia]. cbn [negb].
  change (escaped (c :: s)) with (escape_char c ++ escaped s). unfold escape_char.
  destruct (_ || _); [|destruct (c =? LF)%char; [|destruct (c =? CR)%char;
    [|destruct (c =? TAB)%char]]]; simpl; rewrite IH; try done; lia.
Qed.

Lemma json_escape_string_spec s : json_escape_string (Some s) = escaped s.
Proof. unfold json_escape_string. apply json_escape_loop_spec. lia. Qed.

Lemma escaped_cons c s : escaped (c :: s) = escape_char c ++ escaped s.
Proof. reflexivity. Qed.

(** An escaped byte is the byte itself, or a backslash and one more byte,
    which is a quote only for a quote. *)
Lemma escape_char_cases c :
  (special c = false /\ escape_char c = [c])
  \/ (special c = true /\ exists e, escape_char c = [BACKSLASH; e]
        /\ (e = DQUOTE -> c = DQUOTE)
        /\ (if (e =? "n")%char then LF else if (e =? "r")%char then CR
            else if (e =? "t")%char then TAB else e) = c).
Proof.
  unfold special, escape_char.
  destruct (Ascii.eqb_spec c DQUOTE) as [->|Hq].
  { right. split; [done|]. exists DQUOTE. by repeat split. }
  destruct (Ascii.eqb_spec c BACKSLASH) as [->|Hb].
  { right. split; [done|]. exists BACKSLASH. by repeat split. }
  destruct (Ascii.eqb_spec c LF) as [->|Hl].
  { right. split; [done|]. exists "n"%char. by repeat split. }
  destruct (Ascii.eqb_spec c CR) as [->|Hr].
  { right. split; [done|]. exists "r"%char. by repeat split. }
  destruct (Ascii.eqb_spec c TAB) as [->|Ht].
  { right. split; [done|]. exists "t"%char. by repeat split. }
  by left.
Qed.

Lemma special_false c :
  special c = false -> c <> DQUOTE /\ c <> BACKSLASH.
Proof.
  unfold special. intros H. split; intros ->; discriminate.
Qed.

Lemma eqb_false c d : c <> d -> (c =? d)%char = false.
Proof. intros H. by apply Ascii.eqb_neq. Qed.

(** The scan stops at the quote that closes an escaped value. *)
Lemma scan_string_escaped s rest :
  scan_string (escaped s ++ DQUOTE :: rest) = DQUOTE :: rest.
Proof.
  induction s as [|c s IH]; [reflexivity|].
  rewrite escaped_cons.
  destruct (escape_char_cases c) as [[Hs ->]|[_ (e & -> & _)]].
  - apply special_false in Hs as [Hq Hb]. simpl.
    by rewrite (eqb_false _ _ Hq), (eqb_false _ _ Hb).
  - simpl. exact IH.
Qed.

(** Unescaping undoes escaping: quote, backslash, newline, carriage return
    and tab come back as they were, and so does every other byte. *)
Lemma json_unescape_escaped s : json_unescape (escaped s) = s.
Proof.
  induction s as [|c s IH]; [reflexivity|].
  rewrite escaped_cons.
  destruct (escape_char_cases c) as [[Hs ->]|[_ (e & -> & _ & He)]].
  - apply special_false in Hs as [_ Hb]. simpl.
    by rewrite (eqb_false _ _ Hb), IH.
  - simpl. by rewrite He, IH.
Qed.

Lemma escaped_not_elem c s :
  c <> BACKSLASH -> c <> "n"%char -> c <> "r"%char -> c <> "t"%char ->
  c ∉ s -> c ∉ escaped s.
Proof.
  intros Hb Hn Hr Ht. induction s as [|x s IH]; [done|].
  intros [Hx Hs]%not_elem_of_cons. rewrite escaped_cons. apply not_elem_of_app. split; [|auto].
  unfold escape_char.
  destruct (_ || _); [|destruct (x =? LF)%char; [|destruct (x =? CR)%char;
    [|destruct (x =? TAB)%char]]];
    repeat (apply not_elem_of_cons; split; [congruence|]); apply not_elem_of_nil.
Qed.

Lemma snprintf_fits size s : Z.of_nat (length s) < size -> snprintf size s = s.
Proof. intros H. unfold snprintf. apply take_ge. lia. Qed.

(** The value extracted once [strstr] has found the label in front of an
    escaped value. *)
Lemma json_get_string_at json key v rest :
  Z.of_nat (length (quoted key)) < 256 ->
  strstr json (quoted key)
    = Some (quoted key ++ lit ": " ++ DQUOTE :: escaped v ++ DQUOTE :: rest) ->
  json_get_string json key = Some v.
Proof.
  intros Hlen Hstr. unfold json_get_string.
  change (DQUOTE :: key ++ [DQUOTE]) with (quoted key).
  rewrite (snprintf_fits _ _ Hlen). cbv zeta. rewrite Hstr, drop_app_length.
  change (skip_separators (lit ": " ++ DQUOTE :: escaped v ++ DQUOTE :: rest))
    with (DQUOTE :: escaped v ++ DQUOTE :: rest).
  cbv beta iota. rewrite Ascii.eqb_refl.
  rewrite scan_string_escaped.
  replace (length (escaped v ++ DQUOTE :: rest) - length (DQUOTE :: rest))%nat
    with (length (escaped v)) by (rewrite length_app; lia).
  by rewrite take_app_length, json_unescape_escaped.
Qed.

(** A label that does not occur in the object is a missing field. *)
Lemma json_get_string_missing json key :
  Z.of_nat (length (quoted key)) < 256 ->
  ~ contains (quoted key) json -> json_get_string json key = None.
Proof.
  intros Hlen Hno. unfold json_get_string.
  change (DQUOTE :: key ++ [DQUOTE]) with (quoted key).
  rewrite (snprintf_fits _ _ Hlen). cbv zeta.
  by apply strstr_None in Hno as ->.
Qed.

Lemma strstr_cons_skip c h pat :
  starts_with pat (c :: h) = false -> strstr (c :: h) pat = strstr h pat.
Proof. intros H. rewrite strstr_unfold. by rewrite H. Qed.

Lemma strstr_here h pat : starts_with pat h = true -> strstr h pat = Some h.
Proof. intros H. rewrite strstr_unfold. by rewrite H. Qed.

(** The first occurrence is at or before any given occurrence. *)
Lemma strstr_at_or_before a pat b :
  exists a1 a2, a = a1 ++ a2 /\ strstr (a ++ pat ++ b) pat = Some (a2 ++ pat ++ b).
Proof.
  induction a as [|c a (a1 & a2 & -> & IH)].
  - exists [], []. split; [done|]. simpl. apply strstr_here, starts_with_app.
  - destruct (starts_with pat ((c :: a1 ++ a2) ++ pat ++ b)) eqn:E.
    + exists [], (c :: a1 ++ a2). split; [done|]. by apply strstr_here.
    + exists (c :: a1), a2. split; [done|].
      simpl app in *. rewrite strstr_cons_skip by done. exact IH.
Qed.

(** A plain label followed by a quote is a prefix of an escaped value and
    its closing quote only when the value is the label. *)
Lemma starts_with_plain_escaped k t r :
  (forall c, c ∈ k -> c <> DQUOTE /\ c <> BACKSLASH) ->
  starts_with (k ++ [DQUOTE]) (escaped t ++ DQUOTE :: r) = true -> t = k.
Proof.
  revert t. induction k as [|x k IH]; intros t Hk.
  - destruct t as [|c t]; [done|]. rewrite escaped_cons.
    destruct (escape_char_cases c) as [[Hs ->]|[_ (e & -> & _)]]; cbn [app starts_with].
    + apply special_false in Hs as [Hq _].
      rewrite (eqb_false DQUOTE c) by congruence. done.
    + done.
  - destruct (Hk x) as [Hxq Hxb]; [left|].
    assert (Hk' : forall c, c ∈ k -> c <> DQUOTE /\ c <> BACKSLASH)
      by (intros c Hc; apply Hk; by right).
    destruct t as [|c t].
    + cbn [app starts_with escaped mbind list_bind]. by rewrite (eqb_false _ _ Hxq).
    + rewrite escaped_cons.
      destruct (escape_char_cases c) as [[Hs ->]|[_ (e & -> & _)]]; cbn [app starts_with].
      * intros [Hxc Hrest]%andb_true_iff. apply Ascii.eqb_eq in Hxc as ->.
        f_equal. by apply IH.
      * by rewrite (eqb_false _ _ Hxb).
Qed.

(** No occurrence of a quoted plain label starts inside an escaped value
    that does not end with a quote and the label. *)
Lemma strstr_skip_escaped k t r :
  (forall c, c ∈ k -> c <> DQUOTE /\ c <> BACKSLASH) ->
  ~ (DQUOTE :: k) `suffix_of` t ->
  strstr (escaped t ++ DQUOTE :: r) (quoted k) = strstr (DQUOTE :: r) (quoted k).
Proof.
  intros Hk. induction t as [|c t IH]; intros Hsuf; [done|].
  assert (Hsuf' : ~ (DQUOTE :: k) `suffix_of` t)
    by (intros H; apply Hsuf; by apply suffix_cons_r).
  rewrite escaped_cons.
  destruct (escape_char_cases c) as [[Hs ->]|[_ (e & -> & He & _)]].
  - apply special_false in Hs as [Hq _]. simpl app.
    rewrite strstr_cons_skip; [auto|].
    unfold quoted. cbn [starts_with]. by rewrite (eqb_false DQUOTE c) by congruence.
  - simpl app. rewrite strstr_cons_skip by done.
    rewrite strstr_cons_skip; [auto|].
    unfold quoted. cbn [starts_with].
    destruct (Ascii.eqb_spec DQUOTE e) as [<-|]; [|done]. cbn [andb].
    destruct (starts_with _ _) eqn:E; [|done].
    apply starts_with_plain_escaped in E; [|done]. subst t.
    rewrite (He eq_refl) in Hsuf. destruct Hsuf. done.
Qed.

(** A quoted plain label that occurs in an escaped value and its closing
    quote ends at the closing quote: [strstr] stops there. *)
Lemma strstr_confused k t r :
  (forall c, c ∈ k -> c <> DQUOTE /\ c <> BACKSLASH) ->
  escaped k = k ->
  (DQUOTE :: k) `suffix_of` t ->
  strstr (escaped t ++ DQUOTE :: r) (quoted k) = Some (quoted k ++ r).
Proof.
  intros Hk Hesc. induction t as [|c t IH]; intros Hsuf.
  { apply suffix_nil_inv in Hsuf. discriminate. }
  assert (Hhit : forall t', starts_with (quoted k) (DQUOTE :: escaped t' ++ DQUOTE :: r) = true ->
            strstr (DQUOTE :: escaped t' ++ DQUOTE :: r) (quoted k) = Some (quoted k ++ r)).
  { intros t' E. rewrite (strstr_here _ _ E).
    unfold quoted in E. cbn [starts_with app] in E. rewrite Ascii.eqb_refl in E.
    apply starts_with_plain_escaped in E as ->; [|done].
    rewrite Hesc. unfold quoted. cbn [app]. by rewrite <- app_assoc. }
  apply suffix_cons_inv in Hsuf as [[= <- <-]|Hsuf].
  - rewrite escaped_cons.
    change (escape_char DQUOTE) with [BACKSLASH; DQUOTE]. simpl app.
    rewrite strstr_cons_skip by done.
    apply Hhit. rewrite Hesc. unfold quoted.
    replace (DQUOTE :: k ++ DQUOTE :: r) with ((DQUOTE :: k ++ [DQUOTE]) ++ r)
      by (cbn; by rewrite <- app_assoc).
    apply starts_with_app.
  - rewrite escaped_cons.
    destruct (escape_char_cases c) as [[Hs ->]|[_ (e & -> & _)]].
    + apply special_false in Hs as [Hq _]. simpl app.
      rewrite strstr_cons_skip; [auto|].
      unfold quoted. cbn [starts_with]. by rewrite (eqb_false DQUOTE c) by congruence.
    + simpl app. rewrite strstr_cons_skip by done.
      destruct (starts_with (quoted k) (e :: escaped t ++ DQUOTE :: r)) eqn:E.
      * assert (e = DQUOTE) as ->.
        { unfold quoted in E. cbn [starts_with] in E.
          by destruct (Ascii.eqb_spec DQUOTE e). }
        by apply Hhit.
      * rewrite strstr_cons_skip by done. auto.
Qed.

Section TwoFieldObject.

Variables k1 k2 : cstring.

Hypothesis k1_short : Z.of_nat (length (quoted k1)) < 256.
Hypothesis k2_short : Z.of_nat (length (quoted k2)) < 256.
Hypothesis k2_plain : forall c, c ∈ k2 -> c <> DQUOTE /\ c <> BACKSLASH.
Hypothesis k1_first : forall tail,
  strstr ("{"%char :: quoted k1 ++ tail) (quoted k1) = Some (quoted k1 ++ tail).
Hypothesis k2_not_in_k1 : forall tail,
  strstr ("{"%char :: quoted k1 ++ lit ": " ++ tail) (quoted k2)
  = strstr tail (quoted k2).
Hypothesis k2_after : forall tail,
  strstr (DQUOTE :: lit ", " ++ quoted k2 ++ tail) (quoted k2)
  = Some (quoted k2 ++ tail).
Hypothesis brace_free : "}"%char ∉ quoted k1 ++ lit ": " ++ lit ", " ++ quoted k2.

Lemma object_first_field v1 v2 :
  json_get_string (object_text k1 k2 v1 v2) k1 = Some v1.
Proof.
  apply json_get_string_at with
    (rest := lit ", " ++ quoted k2 ++ lit ": " ++ quoted (escaped v2) ++ ["}"%char]);
    [done|].
  unfold object_text, object_body. rewrite <- !app_assoc. rewrite k1_first.
  unfold quoted. simpl. by rewrite <- !app_assoc.
Qed.

Lemma object_second_field v1 v2 :
  ~ confuses k2 v1 -> json_get_string (object_text k1 k2 v1 v2) k2 = Some v2.
Proof.
  intros Hc. apply json_get_string_at with (rest := ["}"%char]); [done|].
  unfold object_text, object_body. rewrite <- !app_assoc. rewrite k2_not_in_k1.
  unfold quoted at 1.
  assert (Hne : v1 <> k2) by (intros ->; apply Hc; by exists []).
  assert (Hsuf : ~ (DQUOTE :: k2) `suffix_of` v1)
    by (intros H; apply Hc; by apply suffix_cons_r).
  rewrite <- app_comm_cons, <- app_assoc. cbn [app].
  rewrite strstr_cons_skip.
  2:{ unfold quoted. cbn [starts_with]. rewrite Ascii.eqb_refl. cbn [andb].
      destruct (starts_with _ _) eqn:E; [|done].
      by apply starts_with_plain_escaped in E. }
  rewrite strstr_skip_escaped by done.
  rewrite k2_after. unfold quoted. cbn [app]. by rewrite <- !app_assoc.
Qed.

(** A first value that is mistaken for the second label hides the second
    field: the search for the label stops at the end of the first value,
    where no string follows. *)
Lemma object_second_field_confused v1 v2 :
  escaped k2 = k2 -> confuses k2 v1 ->
  json_get_string (object_text k1 k2 v1 v2) k2 = None.
Proof.
  intros Hesc Hc. unfold json_get_string.
  change (DQUOTE :: k2 ++ [DQUOTE]) with (quoted k2).
  rewrite (snprintf_fits _ _ k2_short). cbv zeta.
  unfold object_text, object_body. rewrite <- !app_assoc. rewrite k2_not_in_k1.
  set (r := lit ", " ++ quoted k2 ++ lit ": " ++ quoted (escaped v2) ++ ["}"%char]).
  assert (Hs : strstr (quoted (escaped v1) ++ r) (quoted k2) = Some (quoted k2 ++ r)).
  { unfold quoted at 1. rewrite <- app_comm_cons, <- app_assoc. cbn [app].
    destruct (starts_with (quoted k2) (DQUOTE :: escaped v1 ++ DQUOTE :: r)) eqn:E.
    - rewrite (strstr_here _ _ E).
      unfold quoted in E. cbn [starts_with app] in E. rewrite Ascii.eqb_refl in E.
      apply starts_with_plain_escaped in E as ->; [|done].
      rewrite Hesc. unfold quoted. cbn [app]. by rewrite <- app_assoc.
    - rewrite strstr_cons_skip by done.
      apply strstr_confused; [done | done|].
      apply suffix_cons_inv in Hc as [[= <-]|Hc]; [|done].
      exfalso. revert E. rewrite Hesc. unfold quoted.
      replace (DQUOTE :: k2 ++ DQUOTE :: r) with ((DQUOTE :: k2 ++ [DQUOTE]) ++ r)
        by (cbn; by rewrite <- app_assoc).
      by rewrite starts_with_app. }
  rewrite Hs, drop_app_length. reflexivity.
Qed.

Lemma object_body_brace_free v1 v2 :
  "}"%char ∉ v1 -> "}"%char ∉ v2 -> "}"%char ∉ object_body k1 k2 v1 v2.
Proof.
  intros H1 H2. unfold object_body.
  assert (He : forall v, "}"%char ∉ v -> "}"%char ∉ quoted (escaped v)).
  { intros v Hv. unfold quoted. apply not_elem_of_cons. split; [done|].
    apply not_elem_of_app. split; [by apply escaped_not_elem|].
    apply not_elem_of_cons. split; [done | apply not_elem_of_nil]. }
  repeat (apply not_elem_of_app in brace_free as [? brace_free]).
  repeat (apply not_elem_of_app; split; auto).
Qed.

Context {A : Type}.
Variable accept : cstring -> option A.
Variable make : cstring -> cstring -> A.
Variable max : Z.

(** The scan over the lines of an array of such objects. *)
Lemma scan_entry_lines es junk footer n :
  "{"%char ∉ junk -> "{"%char ∉ footer ->
  Forall (scannable k1 k2 accept make) es ->
  n + Z.of_nat (length es) <= max ->
  let p := junk ++ entry_lines k1 k2 es ++ footer in
  parse_objects accept max (length p) n p = (fun e => make (fst e) (snd e)) <$> es.
Proof.
  intros Hj Hf Hes. revert junk n Hj.
  induction Hes as [|e es (Hb1 & Hb2 & Hacc) Hes IH]; intros junk n Hj Hn p.
  - unfold p. simpl entry_lines. simpl app.
    destruct (length (junk ++ footer)); [done|]. rewrite parse_objects_S.
    destruct (negb _); [done|].
    assert (Hnone : strchr (junk ++ footer) "{" = None).
    { apply strchr_None. by apply not_elem_of_app. }
    by rewrite Hnone.
  - simpl length in Hn.
    set (sep := (if match es with [] => true | _ => false end then [] else lit ",")
                  ++ [LF]).
    assert (Hp : p = (junk ++ lit "    ") ++ "{"%char :: object_body k1 k2 (fst e) (snd e)
                       ++ "}"%char :: (sep ++ entry_lines k1 k2 es ++ footer)).
    { unfold p, sep. cbn [entry_lines]. unfold entry_line, object_text.
      rewrite <- !app_assoc, <- !app_comm_cons, <- !app_assoc. reflexivity. }
    rewrite Hp, parse_objects_step.
    + fold (object_text k1 k2 (fst e) (snd e)). rewrite Hacc. rewrite fmap_cons. f_equal.
      apply IH; [|lia].
      unfold sep. destruct es; by_computation.
    + apply not_elem_of_app. split; [done | by_computation].
    + by apply object_body_brace_free.
    + lia.
Qed.

(** The array behind its label: [strstr] stops at the label or before
    it, and the next bracket is the one of the array. *)
Lemma parse_array_at label pre tail :
  "["%char ∉ pre -> "["%char ∉ quoted label ->
  parse_array label accept max (pre ++ quoted label ++ lit ": " ++ "["%char :: tail)
  = parse_objects accept max (length ("["%char :: tail)) 0 ("["%char :: tail).
Proof.
  intros Hpre Hlabel. unfold parse_array.
  destruct (strstr_at_or_before pre (quoted label) (lit ": " ++ "["%char :: tail))
    as (a1 & a2 & -> & ->).
  apply not_elem_of_app in Hpre as [_ Ha2].
  rewrite strchr_skip by done. rewrite strchr_skip by done.
  reflexivity.
Qed.

End TwoFieldObject.

(** ** The two record formats *)

Lemma plain_label (k : cstring) :
  Forall (fun c => c <> DQUOTE /\ c <> BACKSLASH) k ->
  forall c, c ∈ k -> c <> DQUOTE /\ c <> BACKSLASH.
Proof. intros H c Hc. by apply (proj1 (Forall_forall _ _) H). Qed.

Lemma song_object_title t v :
  json_get_string (object_text (lit "title") (lit "video_id") t v) (lit "title") = Some t.
Proof. apply object_first_field; [by_computation | intros; reflexivity]. Qed.

Lemma song_object_video_id t v :
  ~ confuses (lit "video_id") t ->
  json_get_string (object_text (lit "title") (lit "video_id") t v) (lit "video_id") = Some v.
Proof.
  apply object_second_field; [by_computation | | intros; reflexivity..].
  apply plain_label. by_computation.
Qed.

Lemma index_object_name n f :
  json_get_string (object_text (lit "name") (lit "filename") n f) (lit "name") = Some n.
Proof. apply object_first_field; [by_computation | intros; reflexivity]. Qed.

Lemma index_object_filename n f :
  ~ confuses (lit "filename") n ->
  json_get_string (object_text (lit "name") (lit "filename") n f) (lit "filename") = Some f.
Proof.
  apply object_second_field; [by_computation | | intros; reflexivity..].
  apply plain_label. by_computation.
Qed.

Lemma song_line_entry s last :
  song_line s last = entry_line (lit "title") (lit "video_id") (song_fields s) last.
Proof.
  unfold song_line, entry_line, object_text, object_body, song_fields.
  assert (He : forall o, json_escape_string o = escaped (default [] o))
    by (intros [x|]; [apply json_escape_string_spec | done]).
  rewrite !He. cbn [fst snd].
  rewrite <- !app_assoc, <- !app_comm_cons, <- !app_assoc. reflexivity.
Qed.

Lemma song_lines_entries songs :
  song_lines songs = entry_lines (lit "title") (lit "video_id") (song_fields <$> songs).
Proof.
  induction songs as [|s songs IH]; [done|].
  cbn [song_lines entry_lines fmap list_fmap]. rewrite song_line_entry, IH.
  by destruct songs.
Qed.

Lemma index_line_entry pl last :
  index_line pl last = entry_line (lit "name") (lit "filename") (index_fields pl) last.
Proof.
  unfold index_line, entry_line, object_text, object_body, index_fields.
  rewrite !json_escape_string_spec. cbn [fst snd].
  rewrite <- !app_assoc, <- !app_comm_cons, <- !app_assoc. reflexivity.
Qed.

Lemma index_lines_entries pls :
  index_lines pls = entry_lines (lit "name") (lit "filename") (index_fields <$> pls).
Proof.
  induction pls as [|pl pls IH]; [done|].
  cbn [index_lines entry_lines fmap list_fmap]. rewrite index_line_entry, IH.
  by destruct pls.
Qed.

(** ** C8: what the playlist decoder does with incomplete entries *)

(** C8, as stated, fails: an entry with a source id and no title is dropped;
    no song with a placeholder title comes out of the decoder. *)
Lemma title_less_entry_dropped :
  contains title_less_object title_less_file
  /\ json_get_string title_less_object (lit "video_id") = Some (lit "abc123")
  /\ json_get_string title_less_object (lit "title") = None
  /\ decode_songs title_less_file = [].
Proof.
  split; [|by vm_compute].
  eexists (lit "{" ++ [LF] ++ lit "  " ++ quoted (lit "name") ++ lit ": "
           ++ quoted (lit "mix") ++ lit "," ++ [LF] ++ lit "  " ++ quoted (lit "songs")
           ++ lit ": [" ++ [LF] ++ lit "    "), _.
  vm_compute. reflexivity.
Qed.

Lemma song_object_hidden_id t v :
  confuses (lit "video_id") t ->
  json_get_string (object_text (lit "title") (lit "video_id") t v) (lit "video_id") = None.
Proof.
  apply object_second_field_confused; [by_computation | | intros; reflexivity | reflexivity].
  apply plain_label. by_computation.
Qed.

Lemma song_object_brace_free t v :
  "}"%char ∉ t -> "}"%char ∉ v ->
  "}"%char ∉ object_body (lit "title") (lit "video_id") t v.
Proof. apply object_body_brace_free. by_computation. Qed.

(** C8, amended.  At any point of the scan of a playlist text, with the
    next entry between its braces.  An entry in which the source id label
    does not occur is dropped, whatever else it holds; an entry in which
    the title label does not occur is dropped as well, source id or not:
    there is no placeholder title.  Of the entries written as
    [save_playlist] writes them, with the title [t] and the source id [v]
    and no closing brace in either, those with an empty source id are
    dropped, and so are those whose title is mistaken for the source id
    label; every other one gives the song with exactly this title,
    possibly empty, and this source id. *)
Theorem decoder_field_tolerance junk rest n :
  "{"%char ∉ junk ->
  n < MAX_PLAYLIST_ITEMS ->
  let scan := fun m q => parse_objects song_of_object MAX_PLAYLIST_ITEMS (length q) m q in
  let here := fun body => scan n (junk ++ "{"%char :: body ++ "}"%char :: rest) in
  (forall body, "}"%char ∉ body ->
     ~ contains (quoted (lit "video_id")) ("{"%char :: body ++ ["}"%char]) ->
     here body = scan n rest)
  /\ (forall body, "}"%char ∉ body ->
        ~ contains (quoted (lit "title")) ("{"%char :: body ++ ["}"%char]) ->
        here body = scan n rest)
  /\ (forall t v, "}"%char ∉ t -> "}"%char ∉ v ->
        let entry := object_body (lit "title") (lit "video_id") t v in
        (v = [] \/ confuses (lit "video_id") t -> here entry = scan n rest)
        /\ (v <> [] -> ~ confuses (lit "video_id") t ->
            here entry = decoded_song t v :: scan (n + 1) rest)).
Proof.
  intros Hj Hn scan here.
  assert (Hstep : forall body, "}"%char ∉ body ->
            here body = match song_of_object ("{"%char :: body ++ ["}"%char]) with
                        | Some x => x :: scan (n + 1) rest
                        | None => scan n rest
                        end).
  { intros body Hb. by apply parse_objects_step. }
  split; [|split].
  - intros body Hb Hno. rewrite (Hstep body Hb). unfold song_of_object.
    rewrite (json_get_string_missing _ (lit "video_id")); [|by_computation | done].
    by destruct (json_get_string _ (lit "title")).
  - intros body Hb Hno. rewrite (Hstep body Hb). unfold song_of_object.
    by rewrite (json_get_string_missing _ (lit "title")); [|by_computation | done].
  - intros t v Ht Hv entry.
    pose proof (Hstep entry (song_object_brace_free t v Ht Hv)) as He.
    change ("{"%char :: entry ++ ["}"%char])
      with (object_text (lit "title") (lit "video_id") t v) in He.
    unfold song_of_object in He. rewrite song_object_title in He.
    split.
    + intros Hdrop. rewrite He.
      destruct (decide (confuses (lit "video_id") t)) as [Hc|Hc].
      * by rewrite song_object_hidden_id.
      * rewrite song_object_video_id by done. by destruct Hdrop as [->|].
    + intros Hne Hc. rewrite He, song_object_video_id by done. by destruct v.
Qed.

Lemma decoder_field_tolerance_witness :
  let scan := fun m q => parse_objects song_of_object MAX_PLAYLIST_ITEMS (length q) m q in
  let entry := object_text (lit "title") (lit "video_id") in
  scan 0 (lit "[ " ++ title_less_object ++ lit " ]") = scan 0 (lit " ]")
  /\ scan 0 (lit "[ " ++ entry (lit "untitled") [] ++ lit " ]") = scan 0 (lit " ]")
  /\ scan 0 (lit "[ " ++ entry (lit "video_id") (lit "abc123") ++ lit " ]") = scan 0 (lit " ]")
  /\ scan 0 (lit "[ " ++ entry [] (lit "abc123") ++ lit " ]")
     = decoded_song [] (lit "abc123") :: scan (0 + 1) (lit " ]").
Proof.
  intros scan entry.
  destruct (decoder_field_tolerance (lit "[ ") (lit " ]") 0) as (_ & Hmissing & Hwritten);
    [by_computation | unfold MAX_PLAYLIST_ITEMS; lia |].
  split; [|split; [|split]].
  - apply (Hmissing (quoted (lit "video_id") ++ lit ": " ++ quoted (lit "abc123")));
      [by_computation|].
    apply strstr_None. reflexivity.
  - apply (Hwritten (lit "untitled") []); [by_computation | by_computation|]. by left.
  - apply (Hwritten (lit "video_id") (lit "abc123")); [by_computation | by_computation|].
    right. by_computation.
  - apply (Hwritten [] (lit "abc123")); [by_computation | by_computation | discriminate|].
    by_computation.
Defined.

(** ** C1: encoding, then decoding *)

Ltac not_in :=
  repeat first
    [ assumption
    | apply not_elem_of_nil
    | apply not_elem_of_app; split
    | apply escaped_not_elem; [by_computation | by_computation | by_computation
                               | by_computation | assumption]
    | by_computation
    | apply not_elem_of_cons; split; [by_computation|] ].

Lemma entry_lines_wf k1 k2 es :
  NUL ∉ k1 -> NUL ∉ k2 ->
  Forall (fun e => (NUL ∉ fst e) /\ (NUL ∉ snd e)) es ->
  NUL ∉ entry_lines k1 k2 es.
Proof.
  intros Hk1 Hk2 Hes.
  induction Hes as [|e es [He1 He2] Hes IH]; [apply not_elem_of_nil|].
  cbn [entry_lines]. apply not_elem_of_app. split; [|exact IH].
  unfold entry_line, object_text, object_body, quoted.
  destruct es; not_in.
Qed.

Lemma storable_song_fields s :
  storable_song s ->
  scannable (lit "title") (lit "video_id") song_of_object decoded_song (song_fields s)
  /\ decoded_song (fst (song_fields s)) (snd (song_fields s)) = s
  /\ (NUL ∉ fst (song_fields s)) /\ (NUL ∉ snd (song_fields s)).
Proof.
  intros (t & v & -> & Hv & Ht0 & Hv0 & Htb & Hvb & Hconf).
  unfold scannable, song_fields. cbn [title video_id decoded_song default fst snd].
  repeat split; try done.
  unfold song_of_object. rewrite song_object_title, song_object_video_id by done.
  by destruct v.
Qed.

Lemma storable_entry_fields pl :
  storable_entry pl ->
  scannable (lit "name") (lit "filename") playlist_of_object
    (fun n f => mkPlaylist n f []) (index_fields pl).
Proof.
  intros (Hn & Hf & _ & _ & Hnb & Hfb & Hconf).
  unfold scannable, index_fields. cbn [fst snd]. repeat split; try done.
  unfold playlist_of_object. rewrite index_object_name, index_object_filename by done.
  destruct (name pl), (filename pl); done.
Qed.

Lemma storable_songs_decoded songs :
  Forall storable_song songs ->
  (fun e => decoded_song (fst e) (snd e)) <$> (song_fields <$> songs) = songs.
Proof.
  induction 1 as [|s songs Hs _ IH]; [done|].
  cbn [fmap list_fmap]. f_equal; [|exact IH].
  by destruct (storable_song_fields s Hs) as (_ & -> & _).
Qed.

(** The decoder gives back the songs the encoder printed. *)
Lemma decode_songs_playlist_text pl :
  "["%char ∉ name pl ->
  Forall storable_song (items pl) ->
  count pl <= MAX_PLAYLIST_ITEMS ->
  decode_songs (playlist_text pl) = items pl.
Proof.
  intros Hname Hsongs Hcount. unfold decode_songs.
  set (pre := lit "{" ++ [LF] ++ lit "  " ++ quoted (lit "name") ++ lit ": "
              ++ quoted (name pl) ++ lit "," ++ [LF] ++ lit "  ").
  set (footer := lit "  ]" ++ [LF] ++ lit "}" ++ [LF]).
  assert (Htext : playlist_text pl
                  = pre ++ quoted (lit "songs") ++ lit ": "
                    ++ "["%char :: ([LF] ++ song_lines (items pl) ++ footer)).
  { unfold playlist_text, pre, footer. rewrite <- !app_assoc. reflexivity. }
  rewrite Htext, parse_array_at.
  2:{ unfold pre, quoted. not_in. }
  2:{ by_computation. }
  rewrite song_lines_entries.
  change ("["%char :: [LF] ++ ?x) with (["["%char; LF] ++ x).
  rewrite scan_entry_lines with (make := decoded_song).
  - by apply storable_songs_decoded.
  - by_computation.
  - by_computation.
  - by_computation.
  - apply Forall_fmap. eapply Forall_impl; [exact Hsongs|].
    intros s Hs. by destruct (storable_song_fields s Hs) as (? & _).
  - rewrite length_fmap. unfold count in Hcount. lia.
Qed.

(** The decoder gives back the names and storage keys the index encoder
    printed; the songs are not part of the index. *)
Lemma decode_index_index_text pls :
  Forall storable_entry pls ->
  Z.of_nat (length pls) <= MAX_PLAYLISTS ->
  decode_index (index_text pls) = unloaded <$> pls.
Proof.
  intros Hpls Hcount. unfold decode_index.
  set (footer := lit "  ]" ++ [LF] ++ lit "}" ++ [LF]).
  assert (Htext : index_text pls
                  = (lit "{" ++ [LF] ++ lit "  ") ++ quoted (lit "playlists") ++ lit ": "
                    ++ "["%char :: ([LF] ++ index_lines pls ++ footer)).
  { unfold index_text, footer. rewrite <- !app_assoc. reflexivity. }
  rewrite Htext, parse_array_at; [|by_computation..].
  rewrite index_lines_entries.
  change ("["%char :: [LF] ++ ?x) with (["["%char; LF] ++ x).
  rewrite scan_entry_lines with (make := fun n f => mkPlaylist n f []).
  - by rewrite <- list_fmap_compose.
  - by_computation.
  - by_computation.
  - by_computation.
  - apply Forall_fmap. eapply Forall_impl; [exact Hpls|].
    intros pl Hpl. by apply storable_entry_fields.
  - rewrite length_fmap. lia.
Qed.

Lemma playlist_text_wf pl :
  NUL ∉ name pl -> Forall storable_song (items pl) -> cstr_wf (playlist_text pl).
Proof.
  intros Hname Hsongs. unfold cstr_wf, playlist_text, quoted.
  assert (NUL ∉ song_lines (items pl)).
  { rewrite song_lines_entries. apply entry_lines_wf; try by_computation.
    apply Forall_fmap. eapply Forall_impl; [exact Hsongs|].
    intros s Hs. by destruct (storable_song_fields s Hs) as (_ & _ & ? & ?). }
  not_in.
Qed.

Lemma index_text_wf pls : Forall storable_entry pls -> cstr_wf (index_text pls).
Proof.
  intros Hpls. unfold cstr_wf, index_text, quoted.
  assert (NUL ∉ index_lines pls).
  { rewrite index_lines_entries. apply entry_lines_wf; try by_computation.
    apply Forall_fmap. eapply Forall_impl; [exact Hpls|].
    by intros pl (_ & _ & ? & ? & _). }
  not_in.
Qed.

Lemma read_content_written d path text :
  text <> [] -> Z.of_nat (length text) <= 1024 * 1024 -> cstr_wf text ->
  read_content (write_file d path text) path = Some text.
Proof.
  intros Hne Hsize Hwf. unfold read_content, write_file. cbn [files].
  rewrite lookup_insert_eq.
  destruct (Z.leb_spec (Z.of_nat (length text)) 0) as [Hz|_].
  { destruct text; [done | simpl in Hz; lia]. }
  destruct (Z.gtb_spec (Z.of_nat (length text)) (1024 * 1024)); [lia|].
  cbn [orb]. by rewrite c_str_wf.
Qed.

Lemma set_items_same st i pl :
  playlists st !! i = Some pl -> set_items st i (items pl) = st.
Proof.
  intros Hl. unfold set_items, set_playlists. rewrite Hl.
  replace (mkPlaylist (name pl) (filename pl) (items pl)) with pl by (by destruct pl).
  rewrite list_insert_id by done. by destruct st.
Qed.

(** Entries that do not come back.  A song whose title is the text of the
    source id label, or ends with a quote followed by it, or holds a
    closing brace, does not come back from the playlist text, and neither
    does a song with an empty source id; a playlist name that holds the
    array label and an object brings back a song that was never added; a
    playlist whose name is the text of the storage key label does not come
    back from the index text. *)
Lemma round_trip_loses_entries :
  let song t := decoded_song t (lit "abc123") in
  let mix t := mkPlaylist (lit "mix") (lit "mix.json") [song t] in
  let key_named := mkPlaylist (lit "filename") (lit "filename.json") [] in
  decode_songs (playlist_text (mix (lit "video_id"))) = []
  /\ decode_songs (playlist_text (mix (lit "video_id"))) <> items (mix (lit "video_id"))
  /\ decode_songs (playlist_text (mix (lit "say " ++ [DQUOTE] ++ lit "video_id"))) = []
  /\ decode_songs (playlist_text (mix (lit "a}b"))) = []
  /\ decode_songs (playlist_text
       (mkPlaylist (lit "mix") (lit "mix.json") [decoded_song (lit "untitled") []])) = []
  /\ decode_songs (playlist_text (mkPlaylist phantom_name (lit "x.json") []))
     = [decoded_song (lit "ghost") (lit "ghost1")]
  /\ decode_index (index_text [key_named]) = []
  /\ decode_index (index_text [key_named]) <> [key_named].
Proof. vm_compute. repeat split; discriminate. Qed.

(** C1.  On the empty library a playlist is created and a song whose title
    holds a closing brace is added: [add_song_to_playlist] returns true,
    the playlist holds the song and its file holds the text
    [save_playlist] prints for it.  Read back as at the next start, by
    [load_playlists] and [load_playlist_songs], the playlist has no song:
    the decoder gives nothing for the text the encoder wrote.  The same
    happens to a title with a quote in front of the text of the source id
    label, while the song comes back when the brace is left out of its
    title. *)
Theorem saved_song_lost :
  let '(i, st1, d1) := create_playlist (sample_state []) sample_disk (Some (lit "mix")) in
  let '(ok, st2, d2) := add_song_to_playlist st1 d1 i (Some braced_song) in
  let st3 := load_playlist_songs (load_playlists (sample_state []) d2) d2 0 in
  let mix songs := mkPlaylist (lit "mix") (lit "mix.json") songs in
  (i, ok) = (0, true)
  /\ playlists st2 = [mix [braced_song]]
  /\ files d2 !! lit "/home/u/.shellbeats/playlists/mix.json"
     = Some (playlist_text (mix [braced_song]))
  /\ playlists st3 = [mix []]
  /\ decode_songs (playlist_text (mix [braced_song])) = []
  /\ decode_songs (playlist_text (mix [quoted_label_song])) = []
  /\ decode_songs (playlist_text (mix [decoded_song (lit "ab") (lit "abc123")]))
     = [decoded_song (lit "ab") (lit "abc123")].
Proof. vm_compute. repeat split. Qed.

Lemma skip_spaces_spec s :
  exists pre, s = pre ++ skip_spaces s /\ all_space pre
    /\ forall c, head (skip_spaces s) = Some c -> isspace c = false.
Proof.
  induction s as [|c s (pre & Hs & Hpre & Hhd)]; simpl.
  - exists []. repeat split; [constructor | done].
  - destruct (isspace c) eqn:Hc.
    + exists (c :: pre). repeat split; [simpl; by f_equal | by constructor | done].
    + exists []. repeat split; [constructor|]. simpl. by intros ? [= <-].
Qed.

Lemma skip_spaces_id s :
  (forall c, head s = Some c -> isspace c = false) -> skip_spaces s = s.
Proof.
  destruct s as [|c s]; [done|]. simpl. intros H. by rewrite (H c eq_refl).
Qed.

(** Where the backward loop stops: not after where it started, all bytes
    behind it up to the start are spaces, and the byte it stops at is no
    space unless it is the first. *)
Lemma trim_end_spec s e :
  let k := trim_end s e in
  (k <= e)%nat
  /\ (forall i, (k < i <= e)%nat -> isspace (nth i s NUL) = true)
  /\ (k <> 0%nat -> isspace (nth k s NUL) = false).
Proof.
  induction e as [|e (Hle & Hsp & Hk)]; simpl.
  - repeat split; [lia | intros; lia | done].
  - destruct (isspace (nth (S e) s NUL)) eqn:He.
    + repeat split; [lia | | done].
      intros i Hi. destruct (decide (i = S e)) as [->|]; [done | apply Hsp; lia].
    + repeat split; [lia | intros; lia | done].
Qed.

Lemma trim_end_stop s e :
  e = 0%nat \/ isspace (nth e s NUL) = false -> trim_end s e = e.
Proof.
  destruct e as [|e]; [done|]. intros [?|H]; [done|]. cbn [trim_end]. by rewrite H.
Qed.

Lemma nth_lookup_default (s : cstring) i : nth i s NUL = default NUL (s !! i).
Proof. revert i. induction s; intros [|i]; simpl; auto. Qed.

(** X1.  [trim_whitespace] takes the white space off both ends and nothing
    else. *)
Theorem trim_whitespace_spec s :
  exists pre t suf,
    trim_whitespace (Some s) = Some t
    /\ s = pre ++ t ++ suf
    /\ all_space pre /\ all_space suf
    /\ (forall c, head t = Some c -> isspace c = false)
    /\ (forall c, last t = Some c -> isspace c = false)
    /\ trim_whitespace (Some t) = Some t.
Proof.
  destruct (skip_spaces_spec s) as (pre & Hs & Hpre & Hhd).
  unfold trim_whitespace at 1.
  destruct (skip_spaces s) as [|c rest] eqn:Hskip.
  - exists pre, [], []. repeat split; try done. constructor.
  - set (s1 := c :: rest) in *.
    destruct (trim_end_spec s1 (length s1 - 1)) as (Hle & Hsp & Hk).
    set (k := trim_end s1 (length s1 - 1)) in *.
    assert (Hlen : (S k <= length s1)%nat) by (unfold s1 in *; simpl in *; lia).
    assert (Hc : isspace c = false) by (by apply Hhd).
    assert (Hlast : forall x, last (take (S k) s1) = Some x -> isspace x = false).
    { intros x Hx. rewrite last_lookup, length_take, Nat.min_l in Hx by done.
      change (Init.Nat.pred (S k)) with k in Hx. apply lookup_take_Some in Hx as [Hx _].
      destruct (decide (k = 0%nat)) as [Hz|Hnz].
      - rewrite Hz in Hx. unfold s1 in Hx. simpl in Hx. by injection Hx as <-.
      - specialize (Hk Hnz). rewrite nth_lookup_default, Hx in Hk. done. }
    exists pre, (take (S k) s1), (drop (S k) s1). repeat split.
    + by rewrite take_drop.
    + done.
    + apply Forall_forall. intros x Hx.
      apply list_elem_of_lookup in Hx as [i Hi]. rewrite lookup_drop in Hi.
      pose proof (lookup_lt_Some _ _ _ Hi).
      specialize (Hsp (S k + i)%nat). rewrite nth_lookup_default, Hi in Hsp.
      apply Hsp. lia.
    + intros x. unfold s1. simpl. by intros [= <-].
    + exact Hlast.
    + assert (Ht : take (S k) s1 = c :: take k rest) by reflexivity.
      assert (Hstop : trim_end (take (S k) s1) (length (take (S k) s1) - 1) = k).
      { rewrite length_take, Nat.min_l by done. replace (S k - 1)%nat with k by lia.
        apply trim_end_stop. destruct (decide (k = 0%nat)) as [|Hnz]; [by left | right].
        rewrite nth_lookup_default, lookup_take_lt, <- nth_lookup_default by lia. auto. }
      unfold trim_whitespace. rewrite skip_spaces_id.
      2:{ intros x. rewrite Ht. simpl. by intros [= <-]. }
      rewrite Ht. cbv beta iota zeta. rewrite <- Ht, Hstop.
      f_equal. rewrite take_take. f_equal. lia.
Qed.

(** ** Durations *)

Lemma decimal_digits_length fuel k n acc :
  (1 <= k <= fuel)%nat -> 0 <= n < 10 ^ Z.of_nat k ->
  (length acc < length (decimal_digits fuel n acc) <= k + length acc)%nat.
Proof.
  revert k n acc. induction fuel as [|fuel IH]; intros k n acc Hk Hn; [lia|].
  cbn [decimal_digits]. destruct (Z.eqb_spec (n / 10) 0) as [Hz|Hnz].
  - simpl. lia.
  - destruct k as [|[|k]]; [lia| |].
    + change (10 ^ Z.of_nat 1) with 10 in Hn. destruct Hnz. apply Z.div_small. lia.
    + specialize (IH (S k) (n / 10) (digit_char (n mod 10) :: acc)).
      simpl length in IH.
      assert (0 <= n / 10 < 10 ^ Z.of_nat (S k)).
      { split; [apply Z.div_pos; lia|]. apply Z.div_lt_upper_bound; [lia|].
        replace (Z.of_nat (S (S k))) with (Z.succ (Z.of_nat (S k))) in Hn by lia.
        rewrite Z.pow_succ_r in Hn by lia. lia. }
      lia.
Qed.

Lemma print_int_length k n :
  (1 <= k <= 20)%nat -> 0 <= n < 10 ^ Z.of_nat k -> (1 <= length (print_int n) <= k)%nat.
Proof.
  intros Hk Hn. unfold print_int. destruct (Z.ltb_spec n 0); [lia|].
  pose proof (decimal_digits_length 20 k n [] Hk Hn) as Hd. cbn [length] in Hd. lia.
Qed.

Lemma print_02d_length n : 0 <= n < 100 -> length (print_02d n) = 2%nat.
Proof.
  intros Hn. unfold print_02d. rewrite length_app, length_replicate.
  pose proof (print_int_length 2 n) as Hp. change (10 ^ Z.of_nat 2) with 100 in Hp. lia.
Qed.

(** X2.  The 16 bytes of the buffer are enough for every duration an [int]
    holds: [format_duration] never cuts the text; the text is at most 12
    bytes long, and 5 bytes long below one hour. *)
Theorem format_duration_fits sec :
  sec <= INT_MAX ->
  format_duration sec = duration_text sec
  /\ (length (format_duration sec) <= 12)%nat
  /\ (sec < 3600 -> length (format_duration sec) = 5%nat).
Proof.
  intros Hmax. unfold INT_MAX in Hmax.
  assert (Hlen : (length (duration_text sec) <= 12)%nat
                 /\ (sec < 3600 -> length (duration_text sec) = 5%nat)).
  { unfold duration_text. destruct (Z.leb_spec sec 0) as [|Hpos]; [split; [simpl; lia | intros; reflexivity]|].
    cbv zeta.
    assert (Hm : 0 <= sec mod 3600 / 60 < 100).
    { pose proof (Z.mod_pos_bound sec 3600). split; [apply Z.div_pos; lia|].
      apply Z.div_lt_upper_bound; lia. }
    assert (Hs : 0 <= sec mod 60 < 100) by (pose proof (Z.mod_pos_bound sec 60); lia).
    destruct (Z.gtb_spec (sec / 3600) 0) as [Hh|Hh].
    - rewrite !length_app, !print_02d_length by done.
      assert (Hhr : 0 <= sec / 3600 < 10 ^ Z.of_nat 6).
      { split; [lia|]. apply Z.div_lt_upper_bound; [lia|]. simpl. lia. }
      pose proof (print_int_length 6 (sec / 3600)). simpl length.
      split; [lia|]. intros Hlt. assert (sec / 3600 = 0) by (apply Z.div_small; lia). lia.
    - rewrite !length_app, !print_02d_length by done. simpl. split; [lia | done]. }
  assert (Hfit : format_duration sec = duration_text sec).
  { unfold format_duration. apply snprintf_fits. lia. }
  rewrite Hfit. by destruct Hlen.
Qed.

Lemma format_duration_fits_witness :
  format_duration 3725 = lit "1:02:05"
  /\ format_duration 59 = lit "00:59"
  /\ (length (format_duration INT_MAX) <= 12)%nat.
Proof.
  destruct (format_duration_fits INT_MAX) as (_ & Hlen & _); [unfold INT_MAX; lia|].
  split; [reflexivity | split; [reflexivity | exact Hlen]].
Defined.

(** ** Search: the command line *)

Lemma shell_special_backslash c : shell_special c = false -> (c =? BACKSLASH)%char = false.
Proof.
  unfold shell_special. destruct (c =? BACKSLASH)%char; [|done].
  by rewrite orb_true_r.
Qed.

Lemma shell_escape_loop_safe bound q j : dq_safe (shell_escape_loop bound q j) = true.
Proof.
  revert j. induction q as [|c q IH]; intros j; [done|].
  cbn [shell_escape_loop]. destruct (negb (j <? bound)); [done|].
  destruct (shell_special c) eqn:Hc.
  - cbn [dq_safe]. rewrite Ascii.eqb_refl. apply IH.
  - cbn [dq_safe]. rewrite (shell_special_backslash c Hc), Hc. apply IH.
Qed.

(** The guard of the loop lets through every byte of a short query. *)
Lemma shell_escape_loop_spec bound q j :
  j + 2 * Z.of_nat (length q) - 1 <= bound ->
  shell_escape_loop bound q j = q ≫= shell_escape_char.
Proof.
  revert j. induction q as [|c q IH]; intros j Hj; [done|].
  simpl length in Hj. cbn [shell_escape_loop].
  destruct (Z.ltb_spec j bound); [|lia]. cbn [negb].
  change ((c :: q) ≫= shell_escape_char) with (shell_escape_char c ++ (q ≫= shell_escape_char)).
  unfold shell_escape_char at 1.
  destruct (shell_special c); simpl; rewrite IH; try done; lia.
Qed.

(** What the loop writes is the escaped text of the bytes it got to. *)
Lemma shell_escape_loop_prefix bound q j :
  exists k, shell_escape_loop bound q j = take k q ≫= shell_escape_char.
Proof.
  revert j. induction q as [|c q IH]; intros j; [by exists 0%nat|].
  cbn [shell_escape_loop]. destruct (negb (j <? bound)); [by exists 0%nat|].
  destruct (shell_special c) eqn:Hc.
  - destruct (IH (j + 2)) as [k ->]. exists (S k). cbn [take].
    change ((c :: take k q) ≫= shell_escape_char)
      with (shell_escape_char c ++ (take k q ≫= shell_escape_char)).
    unfold shell_escape_char at 2. by rewrite Hc.
  - destruct (IH (j + 1)) as [k ->]. exists (S k). cbn [take].
    change ((c :: take k q) ≫= shell_escape_char)
      with (shell_escape_char c ++ (take k q ≫= shell_escape_char)).
    unfold shell_escape_char at 2. by rewrite Hc.
Qed.

Lemma shell_escape_loop_length bound q j :
  Z.of_nat (length (shell_escape_loop bound q j)) <= Z.max 0 (bound + 1 - j).
Proof.
  revert j. induction q as [|c q IH]; intros j; [simpl; lia|].
  cbn [shell_escape_loop]. destruct (Z.ltb_spec j bound); cbn [negb]; [|simpl; lia].
  destruct (shell_special c); simpl length.
  - specialize (IH (j + 2)). lia.
  - specialize (IH (j + 1)). lia.
Qed.

(** X3.  The query goes into the command line of [run_search] between
    double quotes, with a backslash before every quote, backslash, dollar
    and backquote: whatever the query, the escaped text stays inside the
    quotes, it is never cut in the middle of an escape, and the command
    line is never cut; a query of at most 254 bytes is escaped whole. *)
Theorem search_command_quoting q :
  let esc := shell_escape_loop (512 - 5) q 0 in
  dq_safe esc = true
  /\ (exists k, esc = take k q ≫= shell_escape_char)
  /\ (Z.of_nat (length q) <= 254 -> esc = q ≫= shell_escape_char)
  /\ search_command esc
     = lit "yt-dlp --flat-playlist --print '%(title)s|||%(id)s' "
         ++ [DQUOTE] ++ lit "ytsearch50:" ++ esc ++ [DQUOTE] ++ lit " 2>/dev/null".
Proof.
  intros esc. split; [apply shell_escape_loop_safe|].
  split; [apply shell_escape_loop_prefix|].
  split; [intros Hlen; apply shell_escape_loop_spec; lia|].
  unfold search_command.
  change (lit "ytsearch" ++ print_int MAX_RESULTS ++ lit ":" ++ esc ++ [DQUOTE] ++ lit " 2>/dev/null")
    with (lit "ytsearch50:" ++ esc ++ [DQUOTE] ++ lit " 2>/dev/null").
  apply snprintf_fits.
  pose proof (shell_escape_loop_length (512 - 5) q 0) as Hlen. fold esc in Hlen.
  rewrite !length_app. simpl length. lia.
Qed.

(** ** Search: reading the results *)

Lemma read_line_length stream :
  (length (read_line stream).2 <= length stream)%nat
  /\ (stream <> [] -> length (read_line stream).2 < length stream)%nat.
Proof.
  induction stream as [|c s [IH1 IH2]]; simpl; [split; [lia | done]|].
  destruct (c =? LF)%char; simpl; [split; [lia | intros; lia]|].
  destruct (read_line s) as [line rest]. simpl in *. split; [lia | intros; lia].
Qed.

Lemma search_loop_bound fuel n stream :
  0 <= n <= MAX_RESULTS ->
  Z.of_nat (length (search_loop fuel n stream)) <= MAX_RESULTS - n.
Proof.
  revert n stream. induction fuel as [|fuel IH]; intros n stream Hn; simpl; [lia|].
  destruct (Z.ltb_spec n MAX_RESULTS); simpl; [|lia].
  destruct (getline stream) as [[raw rest]|]; [|simpl; lia].
  destruct (search_line raw).
  - simpl length. specialize (IH (n + 1) rest). lia.
  - specialize (IH n rest). lia.
Qed.

Lemma search_loop_Forall (P : Song -> Prop) fuel n stream :
  (forall raw s, search_line raw = Some s -> P s) ->
  Forall P (search_loop fuel n stream).
Proof.
  intros HP. revert n stream. induction fuel as [|fuel IH]; intros n stream; simpl; [constructor|].
  destruct (negb _); [constructor|].
  destruct (getline stream) as [[raw rest]|]; [|constructor].
  destruct (search_line raw) eqn:E; [constructor; eauto | auto].
Qed.

Lemma youtube_url_fits vid :
  Z.of_nat (length vid) <= 223 ->
  youtube_url vid = lit "https://www.youtube.com/watch?v=" ++ vid.
Proof.
  intros H. unfold youtube_url. apply snprintf_fits. rewrite length_app. simpl length. lia.
Qed.

(** A line that gives a song has a separator, and the song holds the
    text before the first separator as its title and the 5 to 20 bytes
    behind it as its source id. *)
Lemma search_line_Some raw s :
  search_line raw = Some s ->
  exists t vid,
    s = search_result t vid /\ 5 <= Z.of_nat (length vid) <= 20
    /\ contains (t ++ lit "|||" ++ vid) raw.
Proof.
  unfold search_line.
  set (line0 := c_str raw). set (line := take (strip_eol line0 (length line0)) line0).
  destruct line as [|c l] eqn:Hline; [done|]. rewrite <- Hline.
  destruct (starts_with (lit "ERROR") line); [done|].
  destruct (starts_with (lit "WARNING") line); [done|].
  destruct (strstr line (lit "|||")) as [sep|] eqn:Hsep; [|done].
  destruct (drop 3 sep) as [|v vid] eqn:Hvid; [done|]. rewrite <- Hvid.
  destruct (Z.ltb_spec (Z.of_nat (length (drop 3 sep))) 5); [done|].
  destruct (Z.gtb_spec (Z.of_nat (length (drop 3 sep))) 20); [done|].
  cbn [orb]. intros [= <-].
  apply strstr_Some in Hsep as (pre & Hpre & [k Hk]%starts_with_spec).
  exists (take (length line - length sep) line), (drop 3 sep).
  split; [|split; [lia|]].
  - unfold search_result. by rewrite youtube_url_fits by lia.
  - assert (Ht : take (length line - length sep) line = pre).
    { rewrite Hpre, length_app. replace (length pre + length sep - length sep)%nat
        with (length pre) by lia. apply take_app_length. }
    rewrite Ht. subst sep. change (drop 3 (lit "|||" ++ k)) with k.
    destruct (c_str_prefix raw) as [r Hr]. fold line0 in Hr.
    exists [], (drop (strip_eol line0 (length line0)) line0 ++ r).
    rewrite Hr at 1. rewrite <- (take_drop (strip_eol line0 (length line0)) line0) at 1.
    fold line. rewrite Hpre. simpl. by rewrite <- !app_assoc.
Qed.

(** X4.  Whatever the search command prints and whatever the state was,
    [run_search] leaves at most [MAX_RESULTS] results; each holds a title,
    a source id of 5 to 20 bytes and the link derived from the whole id,
    with no duration; the selection is back at the top; the number
    returned is the number of results unless it is -1; after a failure or
    an empty query no result is left; and the playlists and the playback
    session are not touched. *)
Theorem run_search_results popen st raw_query :
  let r := run_search popen st raw_query in
  -1 <= r.1 <= MAX_RESULTS
  /\ (r.1 = -1 \/ r.1 = search_count r.2)
  /\ (r.1 <= 0 -> search_results r.2 = [])
  /\ Forall (fun s => exists t vid,
               s = search_result t vid /\ 5 <= Z.of_nat (length vid) <= 20)
       (search_results r.2)
  /\ search_selected r.2 = 0 /\ search_scroll r.2 = 0
  /\ playlists r.2 = playlists st
  /\ (playing_index r.2, playing_from_playlist r.2, playing_playlist_idx r.2,
      paused r.2, playback_started r.2)
     = (playing_index st, playing_from_playlist st, playing_playlist_idx st,
        paused st, playback_started st).
Proof.
  intros r. unfold r, run_search.
  destruct (trim_whitespace _) as [[|c q]|]; cbn [fst snd].
  1,3: unfold MAX_RESULTS; repeat split; first [lia | by right | constructor].
  destruct (popen _) as [out|]; cbn [fst snd].
  2: unfold MAX_RESULTS; repeat split; first [lia | by left | constructor].
  set (results := search_loop (S (length out)) 0 out).
  pose proof (search_loop_bound (S (length out)) 0 out) as Hb. fold results in Hb.
  unfold MAX_RESULTS in *.
  split; [lia|]. split; [by right|]. split.
  { intros Hz. cbn [search_results set_search]. destruct results; [done | simpl in Hz; lia]. }
  split; [|done]. cbn [search_results set_search].
  apply search_loop_Forall. intros l s Hs.
  apply search_line_Some in Hs as (t & vid & -> & Hlen & _). by exists t, vid.
Qed.







Lemma skip_spaces_all s : all_space s -> skip_spaces s = [].
Proof.
  induction 1 as [|c s Hc _ IH]; [done|]. simpl. by rewrite Hc.
Qed.

(** X6.  A query that is empty or made of white space only (in its first
    255 bytes) starts no search: [run_search] returns 0 whatever [popen]
    would do, the results are cleared, and the query shown stays the one
    of the last search. *)
Theorem run_search_blank popen st raw_query :
  all_space (strncpy 255 raw_query) ->
  run_search popen st raw_query = (0, free_search_results st)
  /\ search_results (run_search popen st raw_query).2 = []
  /\ query (run_search popen st raw_query).2 = query st.
Proof.
  intros Hblank.
  assert (H : run_search popen st raw_query = (0, free_search_results st)).
  { unfold run_search, trim_whitespace. by rewrite skip_spaces_all. }
  rewrite H. by repeat split.
Qed.

Lemma run_search_blank_witness :
  run_search (fun _ => Some (lit "Song A|||abc123" ++ [LF]))
    (search_session 2 100) (lit "   " ++ [TAB])
  = (0, free_search_results (search_session 2 100)).
Proof.
  apply (run_search_blank (fun _ => Some (lit "Song A|||abc123" ++ [LF]))
           (search_session 2 100) (lit "   " ++ [TAB])).
  by_computation.
Defined.

Lemma read_line_app l rest : LF ∉ l -> read_line (l ++ LF :: rest) = (l ++ [LF], rest).
Proof.
  induction l as [|c l IH]; intros Hl; simpl; [done|].
  apply not_elem_of_cons in Hl as [Hne Hl].
  rewrite (eqb_false c LF) by congruence. by rewrite IH.
Qed.

Lemma getline_app l rest : LF ∉ l -> getline (l ++ LF :: rest) = Some (l ++ [LF], rest).
Proof.
  intros Hl. unfold getline. rewrite <- (read_line_app l rest Hl). by destruct l.
Qed.


Lemma search_loop_lines lines : forall fuel n,
  Forall (fun l => LF ∉ l) lines ->
  (length (unlines lines) < fuel)%nat -> 0 <= n <= MAX_RESULTS ->
  search_loop fuel n (unlines lines)
  = take (Z.to_nat (MAX_RESULTS - n)) (omap (fun l => search_line (l ++ [LF])) lines).
Proof.
  unfold MAX_RESULTS.
  induction lines as [|l lines IH]; intros fuel n Hl Hfuel Hn.
  - destruct fuel; [simpl in Hfuel; lia|]. simpl. rewrite take_nil. by destruct (negb _).
  - apply Forall_cons in Hl as [Hl Hls].
    destruct fuel as [|fuel]; [lia|]. cbn [search_loop].
    destruct (Z.ltb_spec n MAX_RESULTS) as [Hlt|Hge]; unfold MAX_RESULTS in *; cbn [negb].
    2:{ replace (50 - n) with 0 by lia. done. }
    change (unlines (l :: lines)) with ((l ++ [LF]) ++ unlines lines) in *.
    rewrite <- app_assoc. cbn [app]. rewrite getline_app by done.
    rewrite length_app, length_app in Hfuel. simpl in Hfuel.
    cbn [omap list_omap]. fold (omap (fun l => search_line (l ++ [LF])) lines).
    destruct (search_line (l ++ [LF])) as [s|].
    + replace (Z.to_nat (50 - n)) with (S (Z.to_nat (50 - (n + 1)))) by lia.
      cbn [take]. f_equal. apply IH; [done | lia | lia].
    + apply IH; [done | lia | lia].
Qed.

Lemma skip_spaces_length s : (length (skip_spaces s) <= length s)%nat.
Proof. induction s as [|c s IH]; simpl; [done|]. destruct (isspace c); simpl; lia. Qed.

Lemma trim_whitespace_length s t :
  trim_whitespace (Some s) = Some t -> (length t <= length s)%nat.
Proof.
  unfold trim_whitespace. pose proof (skip_spaces_length s) as Hs.
  destruct (skip_spaces s) as [|c rest]; intros [= <-]; [simpl; lia|].
  simpl in *. rewrite length_take. lia.
Qed.

(** X7.  When the search command prints whole lines, the results are the
    songs of the lines that are accepted, in the order printed, and only
    the first [MAX_RESULTS] of them; the number returned is their number
    and the query kept is the trimmed query. *)
Theorem run_search_lines popen st raw_query q lines :
  trim_whitespace (Some (strncpy 255 raw_query)) = Some q ->
  q <> [] ->
  Forall (fun l => LF ∉ l) lines ->
  popen (search_command (shell_escape_loop (512 - 5) q 0)) = Some (unlines lines) ->
  let accepted := omap (fun l => search_line (l ++ [LF])) lines in
  run_search popen st raw_query
  = (Z.of_nat (length (take 50 accepted)), set_search st (take 50 accepted) 0 0 q).
Proof.
  intros Htrim Hq Hlines Hout accepted.
  assert (Hfit : strncpy 255 q = q).
  { apply trim_whitespace_length in Htrim. unfold strncpy in *.
    rewrite length_take in Htrim. apply take_ge. lia. }
  unfold run_search. rewrite Htrim, Hfit.
  destruct q as [|c q]; [done|]. rewrite Hout.
  rewrite (search_loop_lines lines (S (length (unlines lines))) 0 Hlines)
    by (unfold MAX_RESULTS; lia).
  reflexivity.
Qed.

Lemma run_search_lines_witness :
  run_search (fun _ => Some (unlines [lit "Song A|||abc123"; lit "WARNING: slow";
                                      lit "Song B|||xyz98765"]))
    (search_session 2 100) (lit " two songs ")
  = (2, set_search (search_session 2 100)
          [search_result (lit "Song A") (lit "abc123");
           search_result (lit "Song B") (lit "xyz98765")] 0 0 (lit "two songs")).
Proof.
  apply (run_search_lines _ (search_session 2 100) (lit " two songs ") (lit "two songs")
           [lit "Song A|||abc123"; lit "WARNING: slow"; lit "Song B|||xyz98765"]).
  - reflexivity.
  - discriminate.
  - by_computation.
  - reflexivity.
Defined.

(** ** Storage keys *)

Lemma sanitize_char_key c : Forall (fun x => key_char x = true) (sanitize_char c).
Proof.
  assert (H : forallb (fun c => forallb key_char (sanitize_char c))
                (map (fun n => ascii_of_nat n) (seq 0 256)) = true) by (vm_compute; reflexivity).
  rewrite forallb_forall in H. specialize (H c).
  assert (Hin : In c (map (fun n => ascii_of_nat n) (seq 0 256))).
  { rewrite <- (ascii_nat_embedding c). apply in_map. apply in_seq.
    pose proof (nat_ascii_bounded c). lia. }
  specialize (H Hin). apply Forall_forall. intros x Hx.
  rewrite forallb_forall in H. apply H. by apply list_elem_of_In.
Qed.

Lemma sanitize_stem_key nm : Forall (fun x => key_char x = true) (nm ≫= sanitize_char).
Proof.
  induction nm as [|c nm IH]; [constructor|].
  change ((c :: nm) ≫= sanitize_char) with (sanitize_char c ++ (nm ≫= sanitize_char)).
  apply Forall_app. split; [apply sanitize_char_key | exact IH].
Qed.

Lemma digit_char_key d : 0 <= d < 10 -> key_char (digit_char d) = true.
Proof.
  intros Hd.
  assert (H : d = 0 \/ d = 1 \/ d = 2 \/ d = 3 \/ d = 4 \/ d = 5 \/ d = 6 \/ d = 7
              \/ d = 8 \/ d = 9) by lia.
  repeat (destruct H as [-> | H]; [reflexivity|]). by subst.
Qed.

Lemma decimal_digits_key fuel n acc :
  0 <= n -> Forall (fun x => key_char x = true) acc ->
  Forall (fun x => key_char x = true) (decimal_digits fuel n acc).
Proof.
  revert n acc. induction fuel as [|fuel IH]; intros n acc Hn Hacc; [done|].
  cbn [decimal_digits].
  assert (Hacc' : Forall (fun x => key_char x = true) (digit_char (n mod 10) :: acc)).
  { constructor; [|done]. apply digit_char_key. apply Z.mod_pos_bound. lia. }
  destruct (n / 10 =? 0); [done|]. apply IH; [apply Z.div_pos; lia | done].
Qed.

Lemma print_int_key n : 0 <= n -> Forall (fun x => key_char x = true) (print_int n).
Proof.
  intros Hn. unfold print_int. destruct (Z.ltb_spec n 0); [lia|].
  apply decimal_digits_key; [done | constructor].
Qed.

Lemma decimal_digits_short n acc :
  0 <= n < 100 -> (length (decimal_digits 20 n acc) <= 2 + length acc)%nat.
Proof.
  intros Hn. cbn [decimal_digits]. destruct (Z.eqb_spec (n / 10) 0); [simpl; lia|].
  assert (Hq : n / 10 / 10 = 0).
  { apply Z.div_small. split; [apply Z.div_pos; lia|]. apply Z.div_lt_upper_bound; lia. }
  rewrite Hq. simpl. lia.
Qed.

Lemma key_char_not c x : key_char x = false -> Forall (fun c => key_char c = true) c -> x ∉ c.
Proof.
  intros Hx Hc Hin. apply (proj1 (Forall_forall _ _) Hc) in Hin. congruence.
Qed.

(** X8.  The storage key [create_playlist] gives a new playlist is a plain
    file name: lower-case letters, digits, dashes and underscores followed
    by [.json].  It holds no path separator and no NUL, so that the file of
    the playlist lies in the playlist directory itself, whatever the name
    typed. *)
Theorem storage_key_is_file_name st d nm i st' d' :
  create_playlist st d (Some nm) = (i, st', d') -> 0 <= i ->
  exists stem,
    playlists st' = playlists st ++ [mkPlaylist nm (stem ++ lit ".json") []]
    /\ Forall (fun c => key_char c = true) stem
    /\ ("/"%char ∉ stem ++ lit ".json")
    /\ (NUL ∉ stem ++ lit ".json").
Proof.
  intros Hc Hi.
  assert (Hroom : playlist_count st < MAX_PLAYLISTS).
  { unfold create_playlist in Hc. destruct (Z.geb_spec (playlist_count st) MAX_PLAYLISTS);
      [injection Hc as <- _ _; lia | done]. }
  destruct (create_playlist_success _ _ _ _ _ _ Hc Hi) as (_ & _ & Hpl).
  rewrite sanitize_filename_spec in Hpl.
  pose proof (sanitize_stem_key nm) as Hstem.
  assert (Hshape : forall stem, Forall (fun c => key_char c = true) stem ->
            ("/"%char ∉ stem ++ lit ".json") /\ (NUL ∉ stem ++ lit ".json")).
  { intros stem Hk. split; apply not_elem_of_app; split;
      first [by apply key_char_not | by_computation]. }
  destruct (existsb _ _).
  - exists (print_int (playlist_count st) ++ lit "_" ++ (nm ≫= sanitize_char)).
    assert (Hk : Forall (fun c => key_char c = true)
                   (print_int (playlist_count st) ++ lit "_" ++ (nm ≫= sanitize_char))).
    { apply Forall_app. split; [apply print_int_key; unfold playlist_count; lia|].
      apply Forall_app. split; [by repeat constructor | done]. }
    split; [|split; [exact Hk | by apply Hshape]].
    rewrite Hpl. do 3 f_equal. rewrite <- !app_assoc. apply snprintf_fits.
    pose proof (decimal_digits_short (playlist_count st) []) as Hd.
    unfold print_int. destruct (Z.ltb_spec (playlist_count st) 0);
      [unfold playlist_count in *; lia|].
    assert (Hd' := Hd ltac:(unfold MAX_PLAYLISTS in *; lia)). cbn [length] in Hd'.
    rewrite !length_app. change (length (lit "_")) with 1%nat.
    change (length (lit ".json")) with 5%nat. lia.
  - exists (nm ≫= sanitize_char). split; [exact Hpl | split; [exact Hstem | by apply Hshape]].
Qed.

Lemma storage_key_is_file_name_witness :
  exists stem,
    playlists (create_playlist (sample_state [road_trip]) sample_disk
                 (Some (lit "../Road Trip/../etc"))).1.2
    = [road_trip; mkPlaylist (lit "../Road Trip/../etc") (stem ++ lit ".json") []]
    /\ Forall (fun c => key_char c = true) stem
    /\ ("/"%char ∉ stem ++ lit ".json")
    /\ (NUL ∉ stem ++ lit ".json").
Proof.
  apply (storage_key_is_file_name (sample_state [road_trip]) sample_disk
           (lit "../Road Trip/../etc") 1 _
           (create_playlist (sample_state [road_trip]) sample_disk
              (Some (lit "../Road Trip/../etc"))).2).
  - reflexivity.
  - lia.
Defined.

(** ** What the mutators of the library do to memory and to the files *)

Lemma set_items_other st i j songs :
  i <> j -> playlists (set_items st i songs) !! j = playlists st !! j.
Proof.
  intros Hij. unfold set_items. destruct (playlists st !! i); [|done].
  cbn [playlists set_playlists]. by apply list_lookup_insert_ne.
Qed.

Lemma set_items_twice st i a b : set_items (set_items st i a) i b = set_items st i b.
Proof.
  destruct (playlists st !! i) as [pl|] eqn:Hl.
  - unfold set_items at 1. rewrite (set_items_lookup _ _ _ _ Hl).
    unfold set_items. rewrite Hl. unfold set_playlists. cbn.
    by rewrite list_insert_insert_eq.
  - unfold set_items. by rewrite Hl, Hl.
Qed.

Lemma set_items_dir st i songs :
  playlists_dir (set_items st i songs) = playlists_dir st
  /\ playlists_index (set_items st i songs) = playlists_index st.
Proof. unfold set_items. by destruct (playlists st !! i). Qed.

Lemma playlist_path_set_items st i songs f :
  playlist_path (set_items st i songs) f = playlist_path st f.
Proof. unfold playlist_path. by rewrite (proj1 (set_items_dir st i songs)). Qed.

Lemma save_playlist_written st d idx pl :
  0 <= idx -> playlists st !! Z.to_nat idx = Some pl ->
  save_playlist st d idx =
    if fopen_w d (playlist_path st (filename pl))
    then write_file d (playlist_path st (filename pl)) (playlist_text pl)
    else d.
Proof.
  intros Hge Hl. unfold save_playlist, playlist_count.
  rewrite (index_in_range _ _ _ Hge Hl), Hl. by destruct (fopen_w d _).
Qed.

Lemma save_playlists_index_written st d :
  save_playlists_index st d =
    if fopen_w d (playlists_index st)
    then write_file d (playlists_index st) (index_text (playlists st))
    else d.
Proof. unfold save_playlists_index. by destruct (fopen_w d _). Qed.

(** [add_song_to_playlist] for a song with a source id and a valid index. *)
Lemma add_song_to_playlist_eq st d idx song vid pl :
  0 <= idx -> playlists st !! Z.to_nat idx = Some pl -> video_id song = Some vid ->
  let songs := songs_on_add st d pl in
  add_song_to_playlist st d idx (Some song) =
    if (Z.of_nat (length songs) >=? MAX_PLAYLIST_ITEMS) || existsb (same_video vid) songs
    then (false, set_items st (Z.to_nat idx) songs, d)
    else
      let st' := set_items st (Z.to_nat idx) (songs ++ [stored_song song vid]) in
      (true, st', save_playlist st' d idx).
Proof.
  intros Hge Hl Hvid songs. unfold add_song_to_playlist, playlist_count.
  rewrite (index_in_range _ _ _ Hge Hl), Hvid, Hl.
  match goal with |- context [if ?c then ?a else st] => set (st1 := if c then a else st) end.
  assert (Hst1 : st1 = set_items st (Z.to_nat idx) songs).
  { unfold st1, songs, songs_on_add.
    destruct ((count pl =? 0) && file_exists d (playlists_dir st)).
    - unfold load_playlist_songs, playlist_count.
      rewrite (index_in_range _ _ _ Hge Hl), Hl. by destruct (read_content d _).
    - symmetry. by apply set_items_same. }
  rewrite Hst1, (set_items_lookup _ _ _ _ Hl). unfold count. cbn [items].
  destruct (_ >=? _); [done|]. cbn [orb].
  destruct (existsb _ _); [done|].
  cbv zeta. rewrite set_items_twice. unfold stored_song.
  by destruct (title song).
Qed.

(** X9.  [add_song_to_playlist] on a playlist with room that has no song
    with the source id: the song goes to the end of the list, with the
    title given, or [Unknown] when there is none, with the link derived
    from the source id, whatever link the song offered carried, and with
    its duration; the other playlists stay as they were, and when the file
    of the playlist can be opened for writing it then holds the text of the
    new list. *)
Theorem add_song_appends st d idx song vid pl :
  0 <= idx -> playlists st !! Z.to_nat idx = Some pl -> video_id song = Some vid ->
  let songs := songs_on_add st d pl in
  Z.of_nat (length songs) < MAX_PLAYLIST_ITEMS ->
  existsb (same_video vid) songs = false ->
  exists st' d',
    add_song_to_playlist st d idx (Some song) = (true, st', d')
    /\ playlists st' !! Z.to_nat idx
       = Some (mkPlaylist (name pl) (filename pl) (songs ++ [stored_song song vid]))
    /\ (forall j, j <> Z.to_nat idx -> playlists st' !! j = playlists st !! j)
    /\ (fopen_w d (playlist_path st (filename pl)) = true ->
        files d' !! playlist_path st (filename pl)
        = Some (playlist_text
                  (mkPlaylist (name pl) (filename pl) (songs ++ [stored_song song vid])))).
Proof.
  intros Hge Hl Hvid songs Hroom Hnew.
  rewrite (add_song_to_playlist_eq st d idx song vid pl Hge Hl Hvid). fold songs.
  destruct (Z.geb_spec (Z.of_nat (length songs)) MAX_PLAYLIST_ITEMS); [lia|].
  rewrite Hnew. cbn [orb]. eexists _, _. split; [reflexivity|].
  pose proof (set_items_lookup st (Z.to_nat idx) pl (songs ++ [stored_song song vid]) Hl) as Hl'.
  split; [exact Hl'|]. split.
  - intros j Hj. by apply set_items_other.
  - intros Hrw. rewrite (save_playlist_written _ _ _ _ Hge Hl').
    cbn [filename]. rewrite playlist_path_set_items, Hrw. apply lookup_insert_eq.
Qed.

Lemma add_song_appends_witness :
  exists st' d',
    add_song_to_playlist (sample_state [three_songs]) sample_disk 0
      (Some (mkSong None (Some (lit "bbbbb4")) (Some (lit "file:///etc/passwd")) 7))
    = (true, st', d')
    /\ playlists st' !! 0%nat
       = Some (mkPlaylist (lit "mix") (lit "mix.json")
                 (items three_songs
                  ++ [mkSong (Some (lit "Unknown")) (Some (lit "bbbbb4"))
                        (Some (lit "https://www.youtube.com/watch?v=bbbbb4")) 7])).
Proof.
  destruct (add_song_appends (sample_state [three_songs]) sample_disk 0
              (mkSong None (Some (lit "bbbbb4")) (Some (lit "file:///etc/passwd")) 7)
              (lit "bbbbb4") three_songs) as (st' & d' & Hadd & Hl & _).
  - lia.
  - reflexivity.
  - reflexivity.
  - vm_compute. reflexivity.
  - reflexivity.
  - exists st', d'. split; [exact Hadd | exact Hl].
Defined.

Lemma add_song_rejected st d idx song :
  idx < 0 \/ playlist_count st <= idx \/ song = None
  \/ (exists s, song = Some s /\ video_id s = None) ->
  add_song_to_playlist st d idx song = (false, st, d).
Proof.
  unfold add_song_to_playlist.
  intros [H|[H|[->|(s & -> & Hs)]]].
  - destruct (Z.ltb_spec idx 0); [done | lia].
  - destruct (Z.geb_spec idx (playlist_count st)); [by rewrite orb_true_r | lia].
  - by destruct (_ || _).
  - rewrite Hs. by destruct (_ || _).
Qed.

(** X10.  A call of [add_song_to_playlist] that returns false has written
    nothing; and it returns false, with memory untouched as well, for an
    index outside the library, for no song and for a song without a source
    id. *)
Theorem add_song_failure_writes_nothing st d idx song :
  ((add_song_to_playlist st d idx song).1.1 = false ->
   (add_song_to_playlist st d idx song).2 = d)
  /\ (idx < 0 \/ playlist_count st <= idx \/ song = None
      \/ (exists s, song = Some s /\ video_id s = None) ->
      add_song_to_playlist st d idx song = (false, st, d)).
Proof.
  split.
  - unfold add_song_to_playlist.
    destruct (_ || _); [done|]. destruct song as [song|]; [|done].
    destruct (video_id song) as [vid|]; [|done].
    destruct (playlists st !! Z.to_nat idx) as [pl|]; [|done].
    match goal with |- context [if ?c then ?a else st] => set (st1 := if c then a else st) end.
    destruct (playlists st1 !! Z.to_nat idx) as [pl1|]; [|done].
    destruct (_ >=? _); [done|]. destruct (existsb _ _); [done|]. done.
  - apply add_song_rejected.
Qed.

(** X11.  [remove_song_from_playlist] with valid indices takes out exactly
    the song at the index: the songs before it keep their places, those
    behind it move up by one, the other playlists stay as they were, and
    when the file of the playlist can be opened for writing it then holds
    the text of the shorter list; with a song index outside the list
    nothing changes. *)
Theorem remove_song_spec st d pidx sidx pl :
  0 <= pidx -> playlists st !! Z.to_nat pidx = Some pl ->
  (0 <= sidx < count pl ->
   exists st' d',
     remove_song_from_playlist st d pidx sidx = (true, st', d')
     /\ playlists st' !! Z.to_nat pidx
        = Some (mkPlaylist (name pl) (filename pl) (delete (Z.to_nat sidx) (items pl)))
     /\ (forall j, (j < Z.to_nat sidx)%nat ->
           delete (Z.to_nat sidx) (items pl) !! j = items pl !! j)
     /\ (forall j, (Z.to_nat sidx <= j)%nat ->
           delete (Z.to_nat sidx) (items pl) !! j = items pl !! S j)
     /\ (forall j, j <> Z.to_nat pidx -> playlists st' !! j = playlists st !! j)
     /\ (fopen_w d (playlist_path st (filename pl)) = true ->
         files d' !! playlist_path st (filename pl)
         = Some (playlist_text
                   (mkPlaylist (name pl) (filename pl)
                      (delete (Z.to_nat sidx) (items pl))))))
  /\ (sidx < 0 \/ count pl <= sidx ->
      remove_song_from_playlist st d pidx sidx = (false, st, d)).
Proof.
  intros Hge Hl. unfold remove_song_from_playlist, playlist_count.
  rewrite (index_in_range _ _ _ Hge Hl), Hl. split.
  - intros Hs. destruct (Z.ltb_spec sidx 0); [lia|].
    destruct (Z.geb_spec sidx (count pl)); [lia|]. cbn [orb].
    eexists _, _. split; [reflexivity|].
    pose proof (set_items_lookup st (Z.to_nat pidx) pl
                  (delete (Z.to_nat sidx) (items pl)) Hl) as Hl'.
    split; [exact Hl'|]. split; [|split; [|split]].
    + intros j Hj. by apply list_lookup_delete_lt.
    + intros j Hj. by apply list_lookup_delete_ge.
    + intros j Hj. by apply set_items_other.
    + intros Hrw. rewrite (save_playlist_written _ _ _ _ Hge Hl').
      cbn [filename]. rewrite playlist_path_set_items, Hrw. apply lookup_insert_eq.
  - intros [H|H].
    + destruct (Z.ltb_spec sidx 0); [done | lia].
    + destruct (Z.geb_spec sidx (count pl)); [by rewrite orb_true_r | lia].
Qed.

Lemma remove_song_spec_witness :
  exists st' d',
    remove_song_from_playlist (sample_state [three_songs]) sample_disk 0 1 = (true, st', d')
    /\ playlists st' !! 0%nat
       = Some (mkPlaylist (lit "mix") (lit "mix.json")
                 [decoded_song (lit "one") (lit "aaaaa1");
                  decoded_song (lit "three") (lit "aaaaa3")]).
Proof.
  destruct (remove_song_spec (sample_state [three_songs]) sample_disk 0 1 three_songs)
    as [Hok _]; [lia | reflexivity|].
  destruct Hok as (st' & d' & Hrm & Hl & _); [unfold count; cbn; lia|].
  exists st', d'. split; [exact Hrm | exact Hl].
Defined.








Lemma save_playlist_read_only st d idx : read_only d = true -> save_playlist st d idx = d.
Proof.
  intros Hro. unfold save_playlist, fopen_w. rewrite Hro.
  destruct (_ || _); [done|]. by destruct (_ !! _).
Qed.

Lemma save_playlists_index_read_only st d : read_only d = true -> save_playlists_index st d = d.
Proof. intros Hro. unfold save_playlists_index, fopen_w. by rewrite Hro. Qed.

(** X14.  The mutators of the library do not look at what became of their
    writes.  What [create_playlist], [delete_playlist] and
    [remove_song_from_playlist] return and leave in memory is the same
    whatever the files are; and on a tree that refuses writes these three
    and [add_song_to_playlist] leave every file as it was. *)
Theorem write_failures_are_silent st d d0 nm idx sidx song :
  (create_playlist st d nm).1 = (create_playlist st d0 nm).1
  /\ (delete_playlist st d idx).1 = (delete_playlist st d0 idx).1
  /\ (remove_song_from_playlist st d idx sidx).1
     = (remove_song_from_playlist st d0 idx sidx).1
  /\ (read_only d = true ->
      (create_playlist st d nm).2 = d
      /\ (delete_playlist st d idx).2 = d
      /\ (remove_song_from_playlist st d idx sidx).2 = d
      /\ (add_song_to_playlist st d idx song).2 = d).
Proof.
  split; [|split; [|split]].
  - unfold create_playlist. destruct (_ >=? _); [done|].
    destruct nm as [[|c nm]|]; try done. by destruct (existsb _ _).
  - unfold delete_playlist. destruct (_ || _); [done|]. by destruct (_ !! _).
  - unfold remove_song_from_playlist. destruct (_ || _); [done|].
    destruct (_ !! _); [|done]. by destruct (_ || _).
  - intros Hro. split; [|split; [|split]].
    + unfold create_playlist. destruct (_ >=? _); [done|].
      destruct nm as [[|c nm]|]; try done. destruct (existsb _ _); [done|].
      cbn [snd]. by rewrite save_playlists_index_read_only, save_playlist_read_only.
    + unfold delete_playlist. destruct (_ || _); [done|]. destruct (_ !! _); [|done].
      cbn [snd]. unfold unlink. rewrite Hro. by apply save_playlists_index_read_only.
    + unfold remove_song_from_playlist. destruct (_ || _); [done|].
      destruct (_ !! _); [|done]. destruct (_ || _); [done|].
      cbn [snd]. by apply save_playlist_read_only.
    + unfold add_song_to_playlist. destruct (_ || _); [done|].
      destruct song as [song|]; [|done]. destruct (video_id song); [|done].
      destruct (playlists st !! Z.to_nat idx); [|done].
      match goal with |- context [if ?c then ?a else st] => set (st1 := if c then a else st) end.
      destruct (playlists st1 !! Z.to_nat idx); [|done].
      destruct (_ >=? _); [done|]. destruct (existsb _ _); [done|].
      cbn [snd]. by apply save_playlist_read_only.
Qed.



Lemma delete_last {A} (l : list A) (x : A) : delete (length l) (l ++ [x]) = l.
Proof. induction l as [|y l IH]; simpl; [done | by rewrite IH]. Qed.

(** X16.  Taking out the song that [add_song_to_playlist] has just added to
    a playlist that had songs in memory restores the application state:
    the song had gone to the position that was the length of the list, and
    removing it there leaves the list, and all the rest of memory, as
    before the two calls; when it can be opened for writing the file of the
    playlist holds the text of this list again. *)
Theorem add_then_remove st0 d0 idx pl0 song st1 d1 :
  0 <= idx -> playlists st0 !! Z.to_nat idx = Some pl0 ->
  items pl0 <> [] ->
  add_song_to_playlist st0 d0 idx (Some song) = (true, st1, d1) ->
  exists d2,
    remove_song_from_playlist st1 d1 idx (count pl0) = (true, st0, d2)
    /\ (fopen_w d0 (playlist_path st0 (filename pl0)) = true ->
        files d2 !! playlist_path st0 (filename pl0) = Some (playlist_text pl0)).
Proof.
  intros Hge Hl Hitems Hadd.
  destruct (video_id song) as [vid|] eqn:Hvid.
  2:{ unfold add_song_to_playlist in Hadd. rewrite Hvid in Hadd.
      by destruct (_ || _). }
  rewrite (add_song_to_playlist_eq st0 d0 idx song vid pl0 Hge Hl Hvid) in Hadd.
  assert (Hsongs : songs_on_add st0 d0 pl0 = items pl0).
  { unfold songs_on_add, count. by destruct (items pl0). }
  rewrite Hsongs in Hadd. destruct (_ || _); [done|].
  injection Hadd as <- <-.
  set (new := stored_song song vid).
  pose proof (set_items_lookup st0 (Z.to_nat idx) pl0 (items pl0 ++ [new]) Hl) as Hl1.
  unfold remove_song_from_playlist, playlist_count.
  rewrite (index_in_range _ _ _ Hge Hl1), Hl1.
  assert (Hin : (count pl0 <? 0)
                || (count pl0 >=? count (mkPlaylist (name pl0) (filename pl0)
                                           (items pl0 ++ [new]))) = false).
  { unfold count. cbn [items]. rewrite length_app. simpl length.
    apply orb_false_iff. split; [apply Z.ltb_ge; lia | rewrite Z.geb_leb; apply Z.leb_gt; lia]. }
  rewrite Hin. cbn [items]. unfold count. rewrite Nat2Z.id, delete_last.
  rewrite set_items_twice, (set_items_same _ _ _ Hl).
  eexists. split; [reflexivity|].
  intros Hrw. rewrite (save_playlist_written st0 _ _ pl0 Hge Hl).
  rewrite (save_playlist_written _ _ _ _ Hge Hl1). cbn [filename].
  rewrite playlist_path_set_items, Hrw.
  rewrite (fopen_w_files d0) by done. rewrite Hrw. cbn [files write_file].
  apply lookup_insert_eq.
Qed.

Lemma add_then_remove_witness :
  let st0 := sample_state [three_songs] in
  let r := add_song_to_playlist st0 sample_disk 0
             (Some (decoded_song (lit "four") (lit "aaaaa4"))) in
  r.1.1 = true
  /\ exists d2, remove_song_from_playlist r.1.2 r.2 0 3 = (true, st0, d2).
Proof.
  intros st0 r.
  destruct (add_then_remove st0 sample_disk 0 three_songs
              (decoded_song (lit "four") (lit "aaaaa4")) r.1.2 r.2) as (d2 & Hrm & _).
  - lia.
  - reflexivity.
  - discriminate.
  - reflexivity.
  - split; [reflexivity|]. exists d2. exact Hrm.
Defined.




(** ** Writing, then reading *)

(** X18.  The songs of a playlist come back from its file.  For a playlist
    of at most [MAX_PLAYLIST_ITEMS] storable songs whose name holds no NUL
    and no opening bracket, the decoder gives back from the text of
    [save_playlist] exactly the song list, whatever quotes, backslashes,
    newlines, carriage returns and tabs the titles and source ids hold.
    When the text is within the size limit of the reader and the file can
    be opened for writing, [load_playlist_songs] after [save_playlist]
    restores the application state, also from a state in which the songs
    of the playlist are not in memory. *)
Theorem playlist_round_trip st d idx pl :
  0 <= idx ->
  playlists st !! Z.to_nat idx = Some pl ->
  NUL ∉ name pl ->
  "["%char ∉ name pl ->
  Forall storable_song (items pl) ->
  count pl <= MAX_PLAYLIST_ITEMS ->
  decode_songs (playlist_text pl) = items pl
  /\ (Z.of_nat (length (playlist_text pl)) <= 1024 * 1024 ->
      fopen_w d (playlist_path st (filename pl)) = true ->
      let d' := save_playlist st d idx in
      files d' !! playlist_path st (filename pl) = Some (playlist_text pl)
      /\ load_playlist_songs st d' idx = st
      /\ load_playlist_songs (set_items st (Z.to_nat idx) []) d' idx = st).
Proof.
  intros Hge Hl Hnul Hbr Hsongs Hcount.
  pose proof (decode_songs_playlist_text pl Hbr Hsongs Hcount) as Hdec.
  split; [exact Hdec|]. intros Hsize Hopen d'.
  assert (Hd' : d' = write_file d (playlist_path st (filename pl)) (playlist_text pl)).
  { unfold d'. by rewrite (save_playlist_written _ _ _ _ Hge Hl), Hopen. }
  assert (Hread : read_content d' (playlist_path st (filename pl)) = Some (playlist_text pl)).
  { rewrite Hd'. apply read_content_written; [|done|by apply playlist_text_wf].
    unfold playlist_text. discriminate. }
  split; [rewrite Hd'; cbn [files write_file]; apply lookup_insert_eq|]. split.
  - unfold load_playlist_songs, playlist_count.
    rewrite (index_in_range _ _ _ Hge Hl), Hl, Hread, Hdec. by apply set_items_same.
  - pose proof (set_items_lookup st (Z.to_nat idx) pl [] Hl) as Hl0.
    unfold load_playlist_songs, playlist_count.
    rewrite (index_in_range _ _ _ Hge Hl0), Hl0. cbn [filename].
    rewrite playlist_path_set_items, Hread, Hdec, set_items_twice.
    by apply set_items_same.
Qed.

Lemma playlist_round_trip_witness :
  let st := sample_state [tricky_playlist] in
  decode_songs (playlist_text tricky_playlist) = items tricky_playlist
  /\ load_playlist_songs st (save_playlist st sample_disk 0) 0 = st
  /\ load_playlist_songs (sample_state [unloaded tricky_playlist])
       (save_playlist st sample_disk 0) 0 = st.
Proof.
  intros st.
  destruct (playlist_round_trip st sample_disk 0 tricky_playlist) as [Hdec Hload].
  - lia.
  - reflexivity.
  - by_computation.
  - by_computation.
  - repeat constructor.
    + exists tricky_title, (lit "abc123"). repeat split; by_computation.
    + exists [], (lit "xyz"). repeat split; by_computation.
  - by_computation.
  - destruct Hload as (_ & H1 & H2); [by_computation | reflexivity|].
    split; [exact Hdec|]. split; [exact H1 | exact H2].
Defined.

(** X19.  The library comes back from the index.  For a library of at most
    [MAX_PLAYLISTS] storable entries the decoder gives back from the index
    text the same names and storage keys in the same order, whatever
    quotes, backslashes, newlines, carriage returns and tabs they hold;
    the songs are not part of the index.  When the text is within the size
    limit of the reader and the index can be opened for writing,
    [load_playlists] after [save_playlists_index] gives the library with
    its song lists left to be loaded. *)
Theorem index_round_trip st d :
  Forall storable_entry (playlists st) ->
  playlist_count st <= MAX_PLAYLISTS ->
  decode_index (index_text (playlists st)) = unloaded <$> playlists st
  /\ (Z.of_nat (length (index_text (playlists st))) <= 1024 * 1024 ->
      fopen_w d (playlists_index st) = true ->
      load_playlists st (save_playlists_index st d)
      = set_playlists st (unloaded <$> playlists st)).
Proof.
  intros Hpls Hcount.
  pose proof (decode_index_index_text _ Hpls Hcount) as Hidx.
  split; [exact Hidx|]. intros Hsize Hopen.
  rewrite save_playlists_index_written, Hopen. unfold load_playlists.
  rewrite read_content_written; [| |done|by apply index_text_wf].
  - by rewrite Hidx.
  - unfold index_text. discriminate.
Qed.

Lemma index_round_trip_witness :
  let st := sample_state [tricky_playlist; road_trip] in
  decode_index (index_text (playlists st)) = [unloaded tricky_playlist; road_trip]
  /\ load_playlists st (save_playlists_index st sample_disk)
     = sample_state [unloaded tricky_playlist; road_trip].
Proof.
  intros st.
  destruct (index_round_trip st sample_disk) as [Hdec Hload].
  - repeat constructor; by_computation.
  - by_computation.
  - split; [exact Hdec|]. apply Hload; [by_computation | reflexivity].
Defined.

(** ** The control channel: connecting and sending *)

(** X20.  [mpv_connect] returns true exactly when a descriptor is open
    afterwards; a failed call changes nothing, a call on an open
    descriptor changes nothing, a call that opens one sends the request
    to observe the end of file as the first line, and a second call in a
    row returns the same and changes nothing. *)
Theorem mpv_connect_spec p :
  let r := mpv_connect p in
  (r.1 = true <-> 0 <= mpv_ipc_fd r.2)
  /\ (r.1 = false -> r.2 = p)
  /\ (0 <= mpv_ipc_fd p -> r = (true, p))
  /\ (mpv_ipc_fd p < 0 -> r.1 = true ->
      outbox r.2 = outbox p ++ [observe_cmd] /\ mpv_ipc_fd r.2 = socket_fd p
      /\ socket_present p = true /\ accepting p = true)
  /\ mpv_connect r.2 = r.
Proof.
  intros r. unfold r, mpv_connect.
  destruct (Z.geb_spec (mpv_ipc_fd p) 0) as [Hfd|Hfd]; cbn [fst snd].
  { destruct (Z.geb_spec (mpv_ipc_fd p) 0); [|lia]. repeat split; try done; lia. }
  destruct (socket_present p) eqn:Hs; cbn [negb fst snd].
  2:{ destruct (Z.geb_spec (mpv_ipc_fd p) 0); [lia|]. rewrite Hs.
      repeat split; try done; lia. }
  destruct (Z.ltb_spec (socket_fd p) 0) as [Hsock|Hsock]; cbn [fst snd].
  { destruct (Z.geb_spec (mpv_ipc_fd p) 0); [lia|]. rewrite Hs.
    destruct (Z.ltb_spec (socket_fd p) 0); [|lia]. repeat split; try done; lia. }
  destruct (accepting p) eqn:Ha; cbn [negb fst snd].
  2:{ destruct (Z.geb_spec (mpv_ipc_fd p) 0); [lia|]. rewrite Hs, Ha.
      destruct (Z.ltb_spec (socket_fd p) 0); [lia|]. repeat split; try done; lia. }
  cbn [mpv_ipc_fd write_line set_fd outbox].
  destruct (Z.geb_spec (socket_fd p) 0); [|lia].
  repeat split; try done; lia.
Qed.



(** ** The command that loads a link *)

Lemma escape_url_length u : (length (escape_url u) <= 2 * length u)%nat.
Proof.
  induction u as [|c u IH]; simpl; [lia|]. destruct (_ || _); simpl; lia.
Qed.

Lemma scan_string_escape_url u rest :
  scan_string (escape_url u ++ DQUOTE :: rest) = DQUOTE :: rest.
Proof.
  induction u as [|c u IH]; [reflexivity|]. cbn [escape_url].
  destruct (Ascii.eqb_spec c DQUOTE) as [->|Hq]; [exact IH|].
  destruct (Ascii.eqb_spec c BACKSLASH) as [->|Hb]; [exact IH|].
  cbn [orb app scan_string]. by rewrite (eqb_false _ _ Hq), (eqb_false _ _ Hb).
Qed.

Lemma json_unescape_escape_url u :
  json_unescape (escape_url u) = u.
Proof.
  induction u as [|c u IH]; [reflexivity|]. cbn [escape_url].
  destruct (Ascii.eqb_spec c DQUOTE) as [->|Hq]; [simpl; by rewrite IH|].
  destruct (Ascii.eqb_spec c BACKSLASH) as [->|Hb]; [simpl; by rewrite IH|].
  cbn [orb json_unescape]. by rewrite (eqb_false _ _ Hb), IH.
Qed.

Lemma escape_url_no_newline u : LF ∉ u -> LF ∉ escape_url u.
Proof.
  induction u as [|c u IH]; [done|]. intros [Hc Hu]%not_elem_of_cons. cbn [escape_url].
  destruct (_ || _); repeat (apply not_elem_of_cons; split; [done|]); auto.
Qed.

(** X21.  With a descriptor open, [mpv_load_url] for a link of at most 2000
    bytes writes one command and a newline: the [loadfile] command with
    the link as a string in which every quote and backslash has a
    backslash before it.  The command is not cut, the string ends at the
    quote the program wrote, reading it back gives the link, and a link
    without a newline gives a command of one line. *)
Theorem mpv_load_url_line u p :
  0 <= mpv_ipc_fd p ->
  Z.of_nat (length u) <= 2000 ->
  outbox (mpv_load_url u p) = outbox p ++ [loadfile_line u; [LF]]
  /\ (forall rest, scan_string (escape_url u ++ DQUOTE :: rest) = DQUOTE :: rest)
  /\ json_unescape (escape_url u) = u
  /\ (LF ∉ u -> LF ∉ loadfile_line u).
Proof.
  intros Hfd Hlen. split; [|split; [|split]].
  - unfold mpv_load_url. fold (loadfile_line u). rewrite snprintf_fits.
    + rewrite mpv_send_command_connected by done. cbn [outbox write_line].
      by rewrite <- app_assoc.
    + unfold loadfile_line, quoted. pose proof (escape_url_length u).
      rewrite !length_app. simpl length. rewrite !length_app. simpl length. lia.
  - apply scan_string_escape_url.
  - apply json_unescape_escape_url.
  - intros Hlf. unfold loadfile_line, quoted.
    repeat first [ apply not_elem_of_app; split
                 | apply not_elem_of_cons; split; [by_computation|]
                 | by apply escape_url_no_newline
                 | by_computation ].
Qed.

Lemma mpv_load_url_line_witness :
  outbox (mpv_load_url (youtube_url (lit "abc123")) (connected_player []))
  = [lit "{" ++ quoted (lit "command") ++ lit ":[" ++ quoted (lit "loadfile") ++ lit ","
       ++ quoted (lit "https://www.youtube.com/watch?v=abc123") ++ lit ","
       ++ quoted (lit "replace") ++ lit "]}"; [LF]].
Proof.
  destruct (mpv_load_url_line (youtube_url (lit "abc123")) (connected_player []))
    as (Hout & _); [cbn; lia | vm_compute; discriminate|].
  exact Hout.
Defined.

(** ** Starting the player *)


(** ** Losing the connection *)

(** X23.  When nothing is buffered and the player has closed its end,
    [mpv_check_track_end] reports no end of track and sends nothing.  It
    closes the descriptor, unless [errno] still holds [EAGAIN] or
    [EWOULDBLOCK] from an earlier call: then the descriptor stays open and
    the player is as it was.  Once the descriptor is closed, the head of
    the main loop neither polls nor advances, whatever the clock reads. *)
Theorem connection_loss_stops_polling errno_again p st now now_play :
  0 <= mpv_ipc_fd p -> inbox p = [] -> peer_open p = false ->
  let r := mpv_check_track_end errno_again p in
  r.1 = false /\ outbox r.2 = outbox p
  /\ (if errno_again then r.2 = p
      else mpv_ipc_fd r.2 = -1
           /\ forall e, check_track_end_step e st r.2 now now_play = (st, r.2, 0%nat)).
Proof.
  intros Hfd Hin Hpeer r. unfold r, mpv_check_track_end.
  destruct (Z.ltb_spec (mpv_ipc_fd p) 0); [lia|]. rewrite Hin, Hpeer.
  destruct errno_again; cbn [fst snd]; [done|].
  unfold mpv_disconnect. destruct (Z.geb_spec (mpv_ipc_fd p) 0); [|lia].
  cbn [mpv_ipc_fd outbox set_inbox set_fd]. repeat split.
  intros e. unfold check_track_end_step. cbn [mpv_ipc_fd set_inbox set_fd].
  by rewrite andb_false_r.
Qed.

Lemma connection_loss_stops_polling_witness :
  let p := mkPlayer 4242 3 true true false 4 4243 true [] [] in
  let r := mpv_check_track_end false p in
  r.1 = false /\ mpv_ipc_fd r.2 = -1
  /\ check_track_end_step false (search_session 2 100) r.2 200 200
     = (search_session 2 100, r.2, 0%nat)
  /\ mpv_check_track_end true p = (false, p).
Proof.
  intros p r.
  destruct (connection_loss_stops_polling false p (search_session 2 100) 200 200)
    as (H1 & _ & H2 & H3); [cbn; lia | reflexivity | reflexivity|].
  destruct (connection_loss_stops_polling true p (search_session 2 100) 200 200)
    as (H4 & _ & H5); [cbn; lia | reflexivity | reflexivity|].
  split; [exact H1|]. split; [exact H2|]. split; [apply H3|].
  rewrite <- H5 at 2. rewrite <- H4. apply surjective_pairing.
Defined.

(** ** Playing a song *)

Lemma mpv_load_url_connected u p :
  0 <= mpv_ipc_fd p -> Z.of_nat (length u) <= 2000 ->
  mpv_load_url u p = write_line (write_line p (loadfile_line u)) [LF].
Proof.
  intros Hfd Hlen. unfold mpv_load_url. fold (loadfile_line u). rewrite snprintf_fits.
  - by apply mpv_send_command_connected.
  - unfold loadfile_line, quoted. pose proof (escape_url_length u).
    rewrite !length_app. simpl length. rewrite !length_app. simpl length. lia.
Qed.

(** X24.  With the player connected, playing a search result or a song of a
    playlist that has a link sends exactly one command, the one that loads
    this link, and a newline; the session moves to the index played, in
    the source played, not paused, with the clock reading as its start;
    results, playlists and selections stay as they were.  With an index
    outside the source nothing is sent and nothing changes. *)
Theorem play_sends_loadfile st p now :
  connected p ->
  (forall idx s u,
     0 <= idx -> search_results st !! Z.to_nat idx = Some s -> url s = Some u ->
     Z.of_nat (length u) <= 2000 ->
     play_search_result st p now idx
     = (set_playback st idx false (-1) false now,
        write_line (write_line p (loadfile_line u)) [LF]))
  /\ (forall pidx sidx pl s u,
        0 <= pidx -> playlists st !! Z.to_nat pidx = Some pl ->
        0 <= sidx -> items pl !! Z.to_nat sidx = Some s -> url s = Some u ->
        Z.of_nat (length u) <= 2000 ->
        play_playlist_song st p now pidx sidx
        = (set_playback st sidx true pidx false now,
           write_line (write_line p (loadfile_line u)) [LF]))
  /\ (forall idx, idx < 0 \/ search_count st <= idx ->
        play_search_result st p now idx = (st, p))
  /\ (forall pidx sidx, pidx < 0 \/ playlist_count st <= pidx
                        \/ sidx < 0 \/ slot_count st pidx <= sidx ->
        play_playlist_song st p now pidx sidx = (st, p)).
Proof.
  intros Hconn. pose proof Hconn as [Hfd _]. split; [|split; [|split]].
  - intros idx s u Hge Hl Hu Hlen. unfold play_search_result, search_count.
    rewrite (index_in_range _ _ _ Hge Hl), Hl, Hu.
    by rewrite mpv_start_if_needed_connected, mpv_load_url_connected.
  - intros pidx sidx pl s u Hge Hl Hsge Hs Hu Hlen.
    unfold play_playlist_song, playlist_count.
    rewrite (index_in_range _ _ _ Hge Hl), Hl. unfold count.
    rewrite (index_in_range _ _ _ Hsge Hs), Hs, Hu.
    by rewrite mpv_start_if_needed_connected, mpv_load_url_connected.
  - intros idx H. unfold play_search_result.
    destruct (Z.ltb_spec idx 0); [done|].
    destruct (Z.geb_spec idx (search_count st)); [done | lia].
  - intros pidx sidx H. unfold play_playlist_song.
    destruct (Z.ltb_spec pidx 0); [done|].
    destruct (Z.geb_spec pidx (playlist_count st)); [done|]. cbn [orb].
    unfold slot_count in H. destruct (playlists st !! Z.to_nat pidx) as [pl|]; [|done].
    destruct (Z.ltb_spec sidx 0); [done|].
    destruct (Z.geb_spec sidx (count pl)); [done | lia].
Qed.

Lemma play_sends_loadfile_witness :
  play_playlist_song (playlist_session 0 100) (connected_player []) 200 0 2
  = (set_playback (playlist_session 0 100) 2 true 0 false 200,
     write_line (write_line (connected_player [])
                   (loadfile_line (lit "https://www.youtube.com/watch?v=aaaaa3"))) [LF])
  /\ play_search_result (search_session 2 100) (connected_player []) 200 5
     = (search_session 2 100, connected_player []).
Proof.
  destruct (play_sends_loadfile (playlist_session 0 100) (connected_player []) 200)
    as (_ & Hpl & _); [split; [cbn; lia | reflexivity]|].
  destruct (play_sends_loadfile (search_session 2 100) (connected_player []) 200)
    as (_ & _ & Hout & _); [split; [cbn; lia | reflexivity]|].
  split.
  - apply (Hpl 0 2 three_songs (decoded_song (lit "three") (lit "aaaaa3"))
             (lit "https://www.youtube.com/watch?v=aaaaa3"));
      first [lia | reflexivity | by_computation].
  - apply Hout. right. vm_compute. discriminate.
Defined.

(** ** Moving through the source *)

Lemma play_search_result_cases st p now idx :
  (play_search_result st p now idx).1 = st
  \/ ((play_search_result st p now idx).1 = set_playback st idx false (-1) false now
      /\ 0 <= idx < search_count st).
Proof.
  unfold play_search_result.
  destruct (Z.ltb_spec idx 0); [by left|].
  destruct (Z.geb_spec idx (search_count st)); [by left|]. cbn [orb].
  destruct (_ !! _) as [s|]; [|by left]. destruct (url s); [|by left].
  right. split; [done | lia].
Qed.

Lemma play_playlist_song_cases st p now pidx sidx :
  (play_playlist_song st p now pidx sidx).1 = st
  \/ ((play_playlist_song st p now pidx sidx).1 = set_playback st sidx true pidx false now
      /\ 0 <= pidx /\ 0 <= sidx < slot_count st pidx).
Proof.
  unfold play_playlist_song, slot_count.
  destruct (Z.ltb_spec pidx 0); [by left|].
  destruct (Z.geb_spec pidx (playlist_count st)); [by left|]. cbn [orb].
  destruct (playlists st !! Z.to_nat pidx) as [pl|]; [|by left].
  destruct (Z.ltb_spec sidx 0); [by left|].
  destruct (Z.geb_spec sidx (count pl)); [by left|]. cbn [orb].
  destruct (_ !! _) as [s|]; [|by left]. destruct (url s); [|by left].
  right. split; [done | lia].
Qed.







(** ** Start-up *)

Lemma mkdir_keeps d path d' :
  mkdir d path = Some d' ->
  files d' = files d /\ dirs d' = {[ path ]} ∪ dirs d /\ read_only d' = read_only d.
Proof. unfold mkdir. destruct (_ || _); [done|]. by intros [= <-]. Qed.

Lemma snprintf_length size s : 0 < size -> Z.of_nat (length (snprintf size s)) < size.
Proof. intros H. unfold snprintf. rewrite length_take. lia. Qed.

Lemma dirname_file a b : "/"%char ∉ b -> dirname (a ++ "/"%char :: b) = a.
Proof.
  intros Hb. induction a as [|c a IH]; cbn [app dirname].
  - by rewrite bool_decide_eq_false_2.
  - rewrite bool_decide_eq_true_2, IH; [done|].
    apply elem_of_app. right. left.
Qed.

(** X26.  [init_config_dirs] never touches a file that is there: every file
    keeps what it held and every directory stays.  When it returns true
    the configuration directory and the playlist directory exist, and a
    second call changes nothing.  With a home directory of at most 990
    bytes on a tree that takes writes the index exists then as well; an
    index it had to create is the one of the empty library, which
    [load_playlists] reads as no playlist at all. *)
Theorem init_config_dirs_spec home st d :
  let r := init_config_dirs home st d in
  (forall q x, files d !! q = Some x -> files r.2 !! q = Some x)
  /\ dirs d ⊆ dirs r.2
  /\ (r.1.1 = true ->
      dir_exists r.2 (config_dir r.1.2) = true
      /\ dir_exists r.2 (playlists_dir r.1.2) = true
      /\ init_config_dirs home r.1.2 r.2 = r
      /\ (Z.of_nat (length (default (lit "/tmp") home)) <= 990 ->
          read_only d = false ->
          file_exists r.2 (playlists_index r.1.2) = true
          /\ (file_exists d (playlists_index r.1.2) = false ->
              files r.2 !! playlists_index r.1.2 = Some empty_index
              /\ playlists (load_playlists r.1.2 r.2) = []))).
Proof.
  intros r. unfold r, init_config_dirs.
  replace (match home with Some h => h | None => lit "/tmp" end)
    with (default (lit "/tmp") home) by (by destruct home).
  set (h := default (lit "/tmp") home).
  set (cd := snprintf 1024 (h ++ lit "/" ++ lit ".shellbeats")).
  set (pd := snprintf 1024 (cd ++ lit "/" ++ lit "playlists")).
  set (pi := snprintf 1024 (cd ++ lit "/" ++ lit "playlists.json")).
  destruct (if dir_exists d cd then Some d else mkdir d cd) as [d1|] eqn:H1.
  2:{ cbn [fst snd]. split; [auto|]. split; done. }
  assert (K1 : files d1 = files d /\ dirs d ⊆ dirs d1 /\ cd ∈ dirs d1
               /\ read_only d1 = read_only d /\ dirs d1 ⊆ {[ cd ]} ∪ dirs d).
  { destruct (dir_exists d cd) eqn:E.
    - injection H1 as <-. apply bool_decide_eq_true in E. repeat split; set_solver.
    - apply mkdir_keeps in H1 as (-> & -> & ->). repeat split; set_solver. }
  destruct K1 as (Hf1 & Hd1 & Hcd & Hr1 & Hu1).
  destruct (if dir_exists d1 pd then Some d1 else mkdir d1 pd) as [d2|] eqn:H2.
  2:{ cbn [fst snd]. rewrite Hf1. split; [auto|]. split; done. }
  assert (K2 : files d2 = files d /\ dirs d1 ⊆ dirs d2 /\ pd ∈ dirs d2
               /\ read_only d2 = read_only d /\ dirs d2 ⊆ {[ pd ]} ∪ dirs d1).
  { destruct (dir_exists d1 pd) eqn:E.
    - injection H2 as <-. apply bool_decide_eq_true in E. repeat split; set_solver.
    - apply mkdir_keeps in H2 as (-> & -> & ->). repeat split; set_solver. }
  destruct K2 as (Hf2 & Hd2 & Hpd & Hr2 & Hu2).
  set (d3 := if file_exists d2 pi then d2
             else if fopen_w d2 pi then write_file d2 pi empty_index else d2).
  assert (K3 : dirs d3 = dirs d2 /\ read_only d3 = read_only d
               /\ (forall q x, files d !! q = Some x -> files d3 !! q = Some x)).
  { unfold d3. destruct (file_exists d2 pi) eqn:E; [by rewrite Hf2|].
    destruct (fopen_w d2 pi); [|by rewrite Hf2].
    cbn [dirs read_only files write_file]. repeat split; [done|].
    intros q x Hq. rewrite lookup_insert_ne; [by rewrite Hf2|].
    intros <-. unfold file_exists in E. apply orb_false_iff in E as [E _].
    apply bool_decide_eq_false in E. destruct E. rewrite Hf2. eauto. }
  destruct K3 as (Hd3 & Hr3 & Hf3).
  cbn [fst snd config_dir playlists_dir playlists_index set_config_paths].
  split; [exact Hf3|]. split; [rewrite Hd3; by etrans|]. intros _.
  assert (Hcd2 : cd ∈ dirs d2) by (by apply (proj1 (elem_of_subseteq _ _) Hd2)).
  assert (Hcd3 : dir_exists d3 cd = true).
  { apply bool_decide_eq_true. by rewrite Hd3. }
  assert (Hpd3 : dir_exists d3 pd = true).
  { apply bool_decide_eq_true. by rewrite Hd3. }
  split; [exact Hcd3|]. split; [exact Hpd3|]. split.
  - fold h cd pd pi. rewrite Hcd3, Hpd3.
    assert (Hagain : (if file_exists d3 pi then d3
                      else if fopen_w d3 pi then write_file d3 pi empty_index else d3) = d3).
    { destruct (file_exists d3 pi) eqn:E; [done|].
      assert (Hsame : fopen_w d3 pi = fopen_w d2 pi) by (apply fopen_w_files; congruence).
      rewrite Hsame. destruct (fopen_w d2 pi) eqn:Hopen; [|done].
      exfalso. revert E. unfold d3. destruct (file_exists d2 pi) eqn:E2; [by rewrite E2|].
      unfold file_exists. cbn [files write_file].
      rewrite lookup_insert_eq. rewrite bool_decide_eq_true_2 by eauto. done. }
    by rewrite Hagain.
  - intros Hshort Hrw.
    assert (Lcd : cd = h ++ lit "/" ++ lit ".shellbeats").
    { apply snprintf_fits. rewrite !length_app. simpl length. lia. }
    assert (Lpd : pd = cd ++ lit "/" ++ lit "playlists").
    { apply snprintf_fits. rewrite Lcd, !length_app. simpl length. lia. }
    assert (Lpi : pi = cd ++ lit "/" ++ lit "playlists.json").
    { apply snprintf_fits. rewrite Lcd, !length_app. simpl length. lia. }
    assert (Hdir : dirname pi = cd).
    { rewrite Lpi. apply (dirname_file cd (lit "playlists.json")). by_computation. }
    assert (Hopen : file_exists d2 pi = false -> fopen_w d2 pi = true).
    { intros E. unfold fopen_w. rewrite Hr2, Hrw, Hdir. cbn [negb andb].
      rewrite bool_decide_eq_true_2 by done. cbn [andb].
      unfold file_exists in E. apply orb_false_iff in E as [_ E].
      by rewrite E. }
    assert (Hpi3 : file_exists d3 pi = true).
    { unfold d3. destruct (file_exists d2 pi) eqn:E; [done|].
      rewrite (Hopen eq_refl). unfold file_exists. cbn [files write_file].
      rewrite lookup_insert_eq. by rewrite bool_decide_eq_true_2 by eauto. }
    split; [exact Hpi3|]. intros Hnew.
    assert (Hne1 : pi <> cd).
    { intros H. apply (f_equal length) in H. rewrite Lpi, !length_app in H.
      simpl in H. lia. }
    assert (Hne2 : pi <> pd).
    { intros H. apply (f_equal length) in H. rewrite Lpi, Lpd, !length_app in H.
      simpl in H. lia. }
    assert (E : file_exists d2 pi = false).
    { unfold file_exists in *. rewrite Hf2. apply orb_false_iff in Hnew as [Hn1 Hn2].
      apply orb_false_iff. split; [done|]. apply bool_decide_eq_false.
      apply bool_decide_eq_false in Hn2. intros Hin.
      apply (proj1 (elem_of_subseteq _ _) Hu2) in Hin.
      apply elem_of_union in Hin as [Hin%elem_of_singleton|Hin]; [done|].
      apply (proj1 (elem_of_subseteq _ _) Hu1) in Hin.
      by apply elem_of_union in Hin as [Hin%elem_of_singleton|Hin]. }
    assert (Hd3' : d3 = write_file d2 pi empty_index).
    { unfold d3. by rewrite E, (Hopen E). }
    assert (Hfile : files d3 !! pi = Some empty_index).
    { rewrite Hd3'. cbn [files write_file]. apply lookup_insert_eq. }
    split; [exact Hfile|].
    unfold load_playlists, read_content.
    cbn [playlists_index set_config_paths]. rewrite Hfile. reflexivity.
Qed.

Lemma init_config_dirs_spec_witness :
  let home_only := mkDisk ∅ {[ lit "/home/u" ]} false in
  let r := init_config_dirs (Some (lit "/home/u")) (sample_state []) home_only in
  r.1.1 = true
  /\ dirs r.2 = {[ lit "/home/u" ]} ∪ dirs sample_disk
  /\ files r.2 !! lit "/home/u/.shellbeats/playlists.json" = Some empty_index
  /\ playlists (load_playlists r.1.2 r.2) = []
  /\ init_config_dirs (Some (lit "/home/u")) r.1.2 r.2 = r
  /\ (init_config_dirs (Some (lit "/home/u")) (sample_state []) (mkDisk ∅ ∅ false)).1.1
     = false.
Proof.
  intros home_only r.
  destruct (init_config_dirs_spec (Some (lit "/home/u")) (sample_state []) home_only)
    as (_ & _ & H).
  destruct H as (_ & _ & Hagain & Hfresh); [reflexivity|].
  destruct Hfresh as [_ Hfresh]; [vm_compute; discriminate | reflexivity|].
  destruct Hfresh as [Hfile Hload]; [reflexivity|].
  split; [reflexivity|].
  split; [|split; [exact Hfile | split; [exact Hload | split; [exact Hagain | reflexivity]]]].
  unfold r, init_config_dirs, sample_disk, dir_exists, mkdir, file_exists, fopen_w.
  cbn. set_solver.
Defined.

(** ** Drawing *)

Lemma adjust_scroll_window sel scroll height :
  1 <= height -> in_window sel (adjust_scroll sel scroll height) height.
Proof.
  intros Hh. unfold in_window, adjust_scroll.
  destruct (Z.ltb_spec sel scroll); [lia|].
  destruct (Z.geb_spec sel (scroll + height)); lia.
Qed.

Lemma adjust_scroll_nonneg sel scroll height :
  0 <= sel -> 0 <= scroll -> 1 <= height -> 0 <= adjust_scroll sel scroll height.
Proof.
  intros Hs Hc Hh. unfold adjust_scroll.
  destruct (Z.ltb_spec sel scroll); [lia|].
  destruct (Z.geb_spec sel (scroll + height)); lia.
Qed.

Lemma list_height_pos rows : 1 <= list_height rows.
Proof. unfold list_height. cbv zeta. destruct (Z.ltb_spec (rows - 5 - 2) 1); lia. Qed.

Lemma set_items_keys st i songs :
  library_keys (playlists (set_items st i songs)) = library_keys (playlists st).
Proof.
  unfold set_items. destruct (playlists st !! i) as [pl|] eqn:Hl; [|done].
  cbn [playlists set_playlists]. unfold library_keys.
  rewrite list_fmap_insert. cbn [name filename]. apply list_insert_id.
  by rewrite list_lookup_fmap, Hl.
Qed.

(** [load_playlist_songs] changes the songs of one playlist and nothing
    else. *)
Lemma load_playlist_songs_frame st d idx :
  exists pls,
    load_playlist_songs st d idx = set_playlists st pls
    /\ library_keys pls = library_keys (playlists st).
Proof.
  unfold load_playlist_songs.
  assert (Hid : exists pls, st = set_playlists st pls
                            /\ library_keys pls = library_keys (playlists st))
    by (exists (playlists st); by destruct st).
  assert (Hset : forall songs, exists pls,
            set_items st (Z.to_nat idx) songs = set_playlists st pls
            /\ library_keys pls = library_keys (playlists st)).
  { intros songs. exists (playlists (set_items st (Z.to_nat idx) songs)).
    split; [|apply set_items_keys].
    unfold set_items. destruct (playlists st !! Z.to_nat idx); [done | by destruct st]. }
  destruct (_ || _); [exact Hid|]. destruct (_ !! _); [|exact Hid].
  destruct (read_content d _); apply Hset.
Qed.

Lemma library_keys_length a b : library_keys a = library_keys b -> length a = length b.
Proof. intros H. apply (f_equal length) in H. unfold library_keys in H. by rewrite !length_fmap in H. Qed.

Lemma draw_playlist_rows_frame fuel i height st d :
  exists pls,
    draw_playlist_rows fuel i height st d = set_playlists st pls
    /\ library_keys pls = library_keys (playlists st).
Proof.
  revert i st. induction fuel as [|fuel IH]; intros i st.
  - exists (playlists st). split; [by destruct st | done].
  - cbn [draw_playlist_rows]. destruct (_ && _).
    2:{ exists (playlists st). split; [by destruct st | done]. }
    destruct (slot_count st (playlist_scroll st + i) =? 0).
    + destruct (load_playlist_songs_frame st d (playlist_scroll st + i)) as (pls1 & -> & Hk1).
      destruct (IH (i + 1) (set_playlists st pls1)) as (pls2 & -> & Hk2).
      exists pls2. split; [done|]. by rewrite Hk2.
    + apply IH.
Qed.

(** Drawing changes scroll offsets and may load songs; nothing else. *)
Lemma draw_ui_frame st d rows :
  let st' := draw_ui st d rows in
  (search_selected st', playlist_selected st', playlist_song_selected st',
   add_to_playlist_selected st', view st', current_playlist_idx st', song_to_add st')
  = (search_selected st, playlist_selected st, playlist_song_selected st,
     add_to_playlist_selected st, view st, current_playlist_idx st, song_to_add st)
  /\ (playing_index st', playing_from_playlist st', playing_playlist_idx st', paused st',
      playback_started st')
     = (playing_index st, playing_from_playlist st, playing_playlist_idx st, paused st,
        playback_started st)
  /\ search_results st' = search_results st
  /\ library_keys (playlists st') = library_keys (playlists st).
Proof.
  intros st'. unfold st', draw_ui. destruct (view st) eqn:Hv.
  - unfold draw_search_view. cbn. rewrite ?Hv. by repeat split.
  - unfold draw_playlists_view.
    destruct (playlist_count st =? 0); [cbn; rewrite ?Hv; by repeat split|].
    match goal with |- context [draw_playlist_rows ?f ?i ?hh ?s ?dd] =>
      destruct (draw_playlist_rows_frame f i hh s dd) as (pls & -> & Hk) end.
    cbn in *. rewrite ?Hv. repeat split; exact Hk.
  - unfold draw_playlist_songs_view.
    destruct (_ || _); [cbn; rewrite ?Hv; by repeat split|].
    destruct (_ =? 0); cbn; rewrite ?Hv; by repeat split.
  - unfold draw_add_to_playlist_view.
    destruct (playlist_count st =? 0); cbn; rewrite ?Hv; by repeat split.
Qed.

(** X27.  After [draw_ui] the selection of the view shown is one of the rows
    shown: the scroll offset is at most the selection and the selection
    less than the offset plus the height of the list (for the three
    playlist views, when their list is not empty).  Drawing moves no
    selection, changes neither the view nor the session nor the search
    results, and keeps the names and storage keys of the library; it may
    load the songs of playlists shown in the playlist view. *)
Theorem draw_ui_shows_selection st d rows :
  let st' := draw_ui st d rows in
  let h := list_height rows in
  match view st with
  | VIEW_SEARCH => in_window (search_selected st') (search_scroll st') h
  | VIEW_PLAYLISTS =>
      playlist_count st <> 0 -> in_window (playlist_selected st') (playlist_scroll st') h
  | VIEW_PLAYLIST_SONGS =>
      0 <= current_playlist_idx st < playlist_count st ->
      slot_count st (current_playlist_idx st) <> 0 ->
      in_window (playlist_song_selected st') (playlist_song_scroll st') h
  | VIEW_ADD_TO_PLAYLIST =>
      playlist_count st <> 0 ->
      in_window (add_to_playlist_selected st') (add_to_playlist_scroll st') h
  end
  /\ (search_selected st', playlist_selected st', playlist_song_selected st',
      add_to_playlist_selected st', view st', current_playlist_idx st')
     = (search_selected st, playlist_selected st, playlist_song_selected st,
        add_to_playlist_selected st, view st, current_playlist_idx st)
  /\ (playing_index st', playing_from_playlist st', playing_playlist_idx st', paused st',
      playback_started st')
     = (playing_index st, playing_from_playlist st, playing_playlist_idx st, paused st,
        playback_started st)
  /\ search_results st' = search_results st
  /\ library_keys (playlists st') = library_keys (playlists st).
Proof.
  intros st' h. pose proof (list_height_pos rows) as Hh. fold h in Hh.
  unfold st', draw_ui. destruct (view st) eqn:Hv.
  - unfold draw_search_view. cbn. rewrite ?Hv. fold h.
    split; [by apply adjust_scroll_window | by repeat split].
  - unfold draw_playlists_view. fold h.
    destruct (Z.eqb_spec (playlist_count st) 0) as [Hz|Hnz]; [cbn; rewrite ?Hv; split; [done | by repeat split]|].
    match goal with |- context [draw_playlist_rows ?f ?i ?hh ?s ?dd] =>
      destruct (draw_playlist_rows_frame f i hh s dd) as (pls & -> & Hk) end.
    cbn in *. rewrite ?Hv.
    split; [intros _; by apply adjust_scroll_window | repeat split; exact Hk].
  - unfold draw_playlist_songs_view. fold h.
    destruct (Z.ltb_spec (current_playlist_idx st) 0); [cbn; rewrite ?Hv; split; [intros; lia | by repeat split]|].
    destruct (Z.geb_spec (current_playlist_idx st) (playlist_count st));
      [cbn; rewrite ?Hv; split; [intros; lia | by repeat split]|].
    cbn [orb]. destruct (Z.eqb_spec (slot_count st (current_playlist_idx st)) 0);
      [cbn; rewrite ?Hv; split; [intros; lia | by repeat split]|].
    cbn. rewrite ?Hv. split; [intros _ _; by apply adjust_scroll_window | by repeat split].
  - unfold draw_add_to_playlist_view. fold h.
    destruct (Z.eqb_spec (playlist_count st) 0) as [Hz|Hnz]; [cbn; rewrite ?Hv; split; [done | by repeat split]|].
    cbn. rewrite ?Hv. split; [intros _; by apply adjust_scroll_window | by repeat split].
Qed.

(** ** Keys *)

Lemma global_key_escape now st d p :
  global_key now 27 (st, d, p) =
    match view st with
    | VIEW_SEARCH => (st, d, p)
    | VIEW_PLAYLISTS => (set_view st VIEW_SEARCH, d, p)
    | VIEW_PLAYLIST_SONGS => (set_view st VIEW_PLAYLISTS, d, p)
    | VIEW_ADD_TO_PLAYLIST => (set_song_to_add (set_view st VIEW_SEARCH) None, d, p)
    end.
Proof. reflexivity. Qed.

Lemma view_keys_escape popen rows cols now typed w :
  search_view_key popen rows cols now typed 27 w = w
  /\ playlists_view_key rows cols typed 27 w = w
  /\ playlist_songs_view_key rows now 27 w = w
  /\ add_to_playlist_view_key cols typed 27 w = w.
Proof. destruct w as [[st d] p]. by repeat split. Qed.

Lemma handle_key_escape popen rows cols now typed st d p :
  handle_key popen rows cols now typed 27 (st, d, p) =
    (let st1 := match view st with
                | VIEW_SEARCH => st
                | VIEW_PLAYLISTS => set_view st VIEW_SEARCH
                | VIEW_PLAYLIST_SONGS => set_view st VIEW_PLAYLISTS
                | VIEW_ADD_TO_PLAYLIST => set_song_to_add (set_view st VIEW_SEARCH) None
                end in
     (draw_ui st1 d rows, d, p), true).
Proof.
  unfold handle_key. 
  change (27 =? ERR) with false. change (27 =? key "q") with false. cbv iota.
  rewrite global_key_escape.
  destruct (view_keys_escape popen rows cols now typed
              (match view st with
               | VIEW_SEARCH => (st, d, p)
               | VIEW_PLAYLISTS => (set_view st VIEW_SEARCH, d, p)
               | VIEW_PLAYLIST_SONGS => (set_view st VIEW_PLAYLISTS, d, p)
               | VIEW_ADD_TO_PLAYLIST => (set_song_to_add (set_view st VIEW_SEARCH) None, d, p)
               end)) as (H1 & H2 & H3 & H4).
  cbv zeta. destruct (view st) eqn:Hv; cbn [fst snd view set_view set_song_to_add] in *;
    rewrite ?Hv; cbv iota; rewrite ?H1, ?H2; reflexivity.
Qed.

Lemma handle_key_eq popen rows cols now typed ch w :
  ch <> ERR -> ch <> key "q" ->
  handle_key popen rows cols now typed ch w =
    (let w1 := global_key now ch w in
     let w2 := match view w1.1.1 with
               | VIEW_SEARCH => search_view_key popen rows cols now typed ch w1
               | VIEW_PLAYLISTS => playlists_view_key rows cols typed ch w1
               | VIEW_PLAYLIST_SONGS => playlist_songs_view_key rows now ch w1
               | VIEW_ADD_TO_PLAYLIST => add_to_playlist_view_key cols typed ch w1
               end in
     ((draw_ui w2.1.1 w2.1.2 rows, w2.1.2, w2.2), true)).
Proof.
  intros H1 H2. unfold handle_key.
  destruct (Z.eqb_spec ch ERR); [done|]. by destruct (Z.eqb_spec ch (key "q")).
Qed.

(** X28.  Escape closes the view shown: from the songs of a playlist to the
    playlists, from the playlists and from the choice of a playlist for a
    song to the search view, where it does nothing; leaving the choice of
    a playlist forgets the song that was to be added.  It touches neither
    the files nor the player nor the session, the results and the
    selections stay, and the library keeps its names and storage keys.
    After a second Escape the search view is shown, whatever the view
    was. *)
Theorem escape_key popen rows cols now typed st d p :
  let r := handle_key popen rows cols now typed 27 (st, d, p) in
  let st' := r.1.1.1 in
  r.2 = true
  /\ view st' = match view st with
                | VIEW_PLAYLIST_SONGS => VIEW_PLAYLISTS
                | _ => VIEW_SEARCH
                end
  /\ song_to_add st' = match view st with
                       | VIEW_ADD_TO_PLAYLIST => None
                       | _ => song_to_add st
                       end
  /\ r.1.1.2 = d /\ r.1.2 = p
  /\ session st' = session st
  /\ search_results st' = search_results st
  /\ library_keys (playlists st') = library_keys (playlists st)
  /\ (search_selected st', playlist_selected st', playlist_song_selected st',
      add_to_playlist_selected st', current_playlist_idx st')
     = (search_selected st, playlist_selected st, playlist_song_selected st,
        add_to_playlist_selected st, current_playlist_idx st)
  /\ view (handle_key popen rows cols now typed 27 r.1).1.1.1 = VIEW_SEARCH.
Proof.
  intros r st'. unfold st', r. rewrite handle_key_escape. cbv zeta. cbn [fst snd].
  match goal with |- context [draw_ui ?s d rows] => set (st1 := s) end.
  destruct (draw_ui_frame st1 d rows) as (Hsel & Hses & Hres & Hkeys).
  injection Hsel as Hs1 Hs2 Hs3 Hs4 Hs5 Hs6 Hs7.
  assert (Hst1 : view st1 = match view st with
                            | VIEW_PLAYLIST_SONGS => VIEW_PLAYLISTS
                            | _ => VIEW_SEARCH
                            end
                 /\ song_to_add st1 = match view st with
                                      | VIEW_ADD_TO_PLAYLIST => None
                                      | _ => song_to_add st
                                      end
                 /\ session st1 = session st /\ search_results st1 = search_results st
                 /\ playlists st1 = playlists st
                 /\ (search_selected st1, playlist_selected st1, playlist_song_selected st1,
                     add_to_playlist_selected st1, current_playlist_idx st1)
                    = (search_selected st, playlist_selected st, playlist_song_selected st,
                       add_to_playlist_selected st, current_playlist_idx st)).
  { unfold st1. by destruct (view st) eqn:Hv. }
  destruct Hst1 as (Hv1 & Hadd1 & Hses1 & Hres1 & Hpl1 & Hsel1).
  split; [done|]. split; [by rewrite Hs5|]. split; [by rewrite Hs7|].
  split; [done|]. split; [done|].
  split; [unfold session in *; by rewrite Hses|].
  split; [by rewrite Hres|]. split; [by rewrite Hkeys, Hpl1|].
  split; [by rewrite Hs1, Hs2, Hs3, Hs4, Hs6|].
  set (st2 := draw_ui st1 d rows) in *.
  rewrite (handle_key_escape _ _ _ _ _ st2). cbv zeta. cbn [fst snd].
  match goal with |- context [draw_ui ?s d rows] =>
    destruct (draw_ui_frame s d rows) as (Hsel2 & _) end.
  injection Hsel2 as _ _ _ _ Hv2 _ _. rewrite Hv2, Hs5, Hv1.
  revert Hv1. destruct (view st); intros Hv1; cbn [view set_view]; try done;
    by rewrite Hs5.
Qed.

(** ** Stopping *)

Lemma global_key_idle now ch st d p :
  playing_index st < 0 -> ch <> 27 -> global_key now ch (st, d, p) = (st, d, p).
Proof.
  intros Hidle Hch. unfold global_key.
  assert (Hi : (playing_index st >=? 0) = false) by (rewrite Z.geb_leb; apply Z.leb_gt; lia).
  rewrite Hi. cbn [andb]. cbv iota.
  destruct (ch =? key " "); [done|]. destruct (ch =? key "n"); [done|].
  destruct (ch =? key "p"); [done|]. by destruct (Z.eqb_spec ch 27).
Qed.

Lemma view_keys_stop popen rows cols now typed w :
  global_key now (key "x") w = w
  /\ search_view_key popen rows cols now typed (key "x") w = stop_key w
  /\ playlist_songs_view_key rows now (key "x") w = stop_key w.
Proof. destruct w as [[st d] p]. by repeat split. Qed.

(** X29.  The x key in the search view and in the view of the songs of a
    playlist, while a session runs: the stop command goes to the player
    and the session is over, with no position, no playlist and no pause;
    the files, the view, the selections, the results and the library
    stay.  From then on the check for the end of a track does nothing,
    and no key other than Escape does anything before the view gets it:
    space, n and p are without effect. *)
Theorem stop_key_ends_session popen rows cols now typed st d p :
  view st = VIEW_SEARCH \/ view st = VIEW_PLAYLIST_SONGS ->
  0 <= playing_index st ->
  let r := handle_key popen rows cols now typed (key "x") (st, d, p) in
  let st' := r.1.1.1 in
  r.2 = true /\ r.1.1.2 = d /\ r.1.2 = mpv_stop_playback p
  /\ session st' = (-1, false, -1, false, playback_started st)
  /\ (search_selected st', playlist_selected st', playlist_song_selected st',
      add_to_playlist_selected st', view st', current_playlist_idx st', song_to_add st')
     = (search_selected st, playlist_selected st, playlist_song_selected st,
        add_to_playlist_selected st, view st, current_playlist_idx st, song_to_add st)
  /\ search_results st' = search_results st
  /\ library_keys (playlists st') = library_keys (playlists st)
  /\ (forall e now1 now2, check_track_end_step e st' r.1.2 now1 now2 = (st', r.1.2, 0%nat))
  /\ (forall now1 ch, ch <> 27 -> global_key now1 ch r.1 = r.1).
Proof.
  intros Hview Hplay r st'. unfold st', r.
  rewrite handle_key_eq by done.
  destruct (view_keys_stop popen rows cols now typed (st, d, p)) as (Hg & Hs & Hp).
  rewrite Hg. cbv zeta. cbn [fst snd].
  assert (Hw : match view st with
               | VIEW_SEARCH => search_view_key popen rows cols now typed (key "x") (st, d, p)
               | VIEW_PLAYLISTS => playlists_view_key rows cols typed (key "x") (st, d, p)
               | VIEW_PLAYLIST_SONGS => playlist_songs_view_key rows now (key "x") (st, d, p)
               | VIEW_ADD_TO_PLAYLIST => add_to_playlist_view_key cols typed (key "x") (st, d, p)
               end
               = (set_playback st (-1) false (-1) false (playback_started st), d,
                  mpv_stop_playback p)).
  { assert (Hstop : stop_key (st, d, p)
                    = (set_playback st (-1) false (-1) false (playback_started st), d,
                       mpv_stop_playback p)).
    { unfold stop_key. destruct (Z.geb_spec (playing_index st) 0); [done | lia]. }
    destruct Hview as [-> | ->]; [by rewrite Hs | by rewrite Hp]. }
  rewrite Hw. cbn [fst snd].
  set (st1 := set_playback st (-1) false (-1) false (playback_started st)).
  destruct (draw_ui_frame st1 d rows) as (Hsel & Hses & Hres & Hkeys).
  set (st2 := draw_ui st1 d rows) in *.
  assert (Hidle : playing_index st2 = -1) by (by injection Hses as ->).
  split; [done|]. split; [done|]. split; [done|].
  split; [unfold session; by rewrite Hses|]. split; [by rewrite Hsel|].
  split; [by rewrite Hres|]. split; [by rewrite Hkeys|]. split.
  - intros e now1 now2. unfold check_track_end_step. by rewrite Hidle.
  - intros now1 ch Hch. apply global_key_idle; [lia | done].
Qed.

Lemma stop_key_ends_session_witness :
  let r := handle_key (fun _ => None) 24 80 200 [] (key "x")
             (search_session 1 100, sample_disk, connected_player []) in
  session r.1.1.1 = (-1, false, -1, false, 100)
  /\ r.1.2 = mpv_stop_playback (connected_player [])
  /\ view r.1.1.1 = VIEW_SEARCH.
Proof.
  intros r.
  destruct (stop_key_ends_session (fun _ => None) 24 80 200 [] (search_session 1 100)
              sample_disk (connected_player [])) as (_ & _ & Hp & Hses & Hsel & _).
  - by left.
  - by_computation.
  - split; [exact Hses|]. split; [exact Hp|].
    exact (f_equal (fun t => t.1.1.2) Hsel).
Defined.

(** ** The selections *)


Ltac fields :=
  cbn [search_selected search_results playlist_selected playlists view
       add_to_playlist_selected playing_index song_to_add current_playlist_idx
       playlist_song_selected
       set_playlists set_playback set_search_selected set_playlist_song_selected
       set_search_scroll set_playlist_selected set_playlist_scroll
       set_current_playlist_idx set_playlist_song_scroll set_view
       set_add_to_playlist_selected set_add_to_playlist_scroll set_song_to_add
       set_search fst snd] in *.

Lemma cursor_frame_refl st : cursor_frame st st.
Proof. by repeat split. Qed.

Lemma cursor_frame_trans a b c : cursor_frame a b -> cursor_frame b c -> cursor_frame a c.
Proof.
  intros (H1 & H2 & H3 & H4 & H5 & H6) (K1 & K2 & K3 & K4 & K5 & K6).
  repeat split; congruence.
Qed.

Lemma cursor_frame_ok st st' : cursor_frame st st' -> cursors_ok st -> cursors_ok st'.
Proof.
  intros (H1 & H2 & H3 & H4 & H5 & H6). unfold cursors_ok, search_count, playlist_count.
  by rewrite H1, H2, H3, H4, H5, H6.
Qed.

Lemma cursor_frame_set_playlists st pls :
  length pls = length (playlists st) -> cursor_frame st (set_playlists st pls).
Proof. intros H. by repeat split. Qed.

Lemma cursor_frame_set_items st i songs : cursor_frame st (set_items st i songs).
Proof.
  unfold set_items. destruct (playlists st !! i); [|apply cursor_frame_refl].
  apply cursor_frame_set_playlists. apply length_insert.
Qed.

Lemma cursor_frame_load_songs st d idx : cursor_frame st (load_playlist_songs st d idx).
Proof.
  destruct (load_playlist_songs_frame st d idx) as (pls & -> & Hk).
  apply cursor_frame_set_playlists. by apply library_keys_length.
Qed.

Lemma cursor_frame_draw_ui st d rows : cursor_frame st (draw_ui st d rows).
Proof.
  destruct (draw_ui_frame st d rows) as (Hsel & _ & Hres & Hk).
  injection Hsel as H1 H2 _ H4 H5 _ _. apply library_keys_length in Hk.
  by repeat split.
Qed.

Lemma cursor_frame_play_search st p now idx :
  cursor_frame st (play_search_result st p now idx).1.
Proof.
  destruct (play_search_result_cases st p now idx) as [-> | [-> _]];
    [apply cursor_frame_refl | by repeat split].
Qed.

Lemma cursor_frame_play_song st p now pidx sidx :
  cursor_frame st (play_playlist_song st p now pidx sidx).1.
Proof.
  destruct (play_playlist_song_cases st p now pidx sidx) as [-> | [-> _]];
    [apply cursor_frame_refl | by repeat split].
Qed.

Lemma cursor_frame_add_song st d idx song :
  cursor_frame st (add_song_to_playlist st d idx song).1.2.
Proof.
  unfold add_song_to_playlist.
  destruct (_ || _); [apply cursor_frame_refl|].
  destruct song as [song|]; [|apply cursor_frame_refl].
  destruct (video_id song); [|apply cursor_frame_refl].
  destruct (playlists st !! Z.to_nat idx) as [pl|]; [|apply cursor_frame_refl].
  match goal with |- context [if ?c then ?a else st] => set (st1 := if c then a else st) end.
  assert (H1 : cursor_frame st st1).
  { unfold st1. destruct (_ && _); [apply cursor_frame_load_songs | apply cursor_frame_refl]. }
  destruct (playlists st1 !! Z.to_nat idx); [|done].
  destruct (_ >=? _); [done|]. destruct (existsb _ _); [done|]. cbn [fst snd].
  eapply cursor_frame_trans; [exact H1 | apply cursor_frame_set_items].
Qed.

Lemma cursor_frame_remove_song st d pidx sidx :
  cursor_frame st (remove_song_from_playlist st d pidx sidx).1.2.
Proof.
  unfold remove_song_from_playlist.
  destruct (_ || _); [apply cursor_frame_refl|].
  destruct (playlists st !! Z.to_nat pidx); [|apply cursor_frame_refl].
  destruct (_ || _); [apply cursor_frame_refl | apply cursor_frame_set_items].
Qed.

(** [create_playlist] adds a playlist at the end, or changes nothing. *)
Lemma create_playlist_cases st d nm :
  let r := create_playlist st d nm in
  (r.1.1 < 0 /\ r.1.2 = st)
  \/ (r.1.1 = playlist_count st
      /\ exists new, r.1.2 = set_playlists st (playlists st ++ [new])).
Proof.
  cbv zeta. unfold create_playlist.
  destruct (_ >=? _); [by left|]. destruct nm as [[|c nm]|]; [by left | | by left].
  destruct (existsb _ _); [by left|]. right. split; [done|]. by eexists.
Qed.

(** [delete_playlist] takes out the playlist at the index, or changes
    nothing. *)
Lemma delete_playlist_cases st d idx :
  let r := delete_playlist st d idx in
  (r.1.1 = false /\ r.1.2 = st)
  \/ (r.1.1 = true /\ 0 <= idx < playlist_count st
      /\ r.1.2 = set_playlists st (delete (Z.to_nat idx) (playlists st))).
Proof.
  cbv zeta. unfold delete_playlist.
  destruct (Z.ltb_spec idx 0); [by left|].
  destruct (Z.geb_spec idx (playlist_count st)); [by left|]. cbn [orb].
  destruct (playlists st !! Z.to_nat idx); [|by left].
  right. split; [done|]. split; [lia | done].
Qed.

Ltac cursors :=
  unfold cursors_ok, cursor_ok, search_count, playlist_count in *; fields;
  rewrite ?length_app, ?length_nil in *; cbn [length] in *;
  intuition (try first [lia | congruence | done]).

Ltac zcmp :=
  repeat match goal with
  | |- context [?a <? ?b] => destruct (Z.ltb_spec a b)
  | |- context [?a >? ?b] => destruct (Z.gtb_spec a b)
  | |- context [?a >=? ?b] => destruct (Z.geb_spec a b)
  end; cbn [andb orb negb fst snd].

Ltac on_key :=
  match goal with
  | |- cursors_ok (fst (fst (if ?c then _ else _))) => destruct c
  end.

Lemma run_search_cursors popen st q :
  cursors_ok st -> cursors_ok (run_search popen st q).2.
Proof.
  intros Hok. unfold run_search, free_search_results.
  destruct (trim_whitespace _) as [[|c t]|]; [cursors | | cursors].
  destruct (popen _); cursors.
Qed.

Lemma load_playlists_cursors st d :
  cursors_ok st -> playlist_selected st = 0 -> view st <> VIEW_ADD_TO_PLAYLIST ->
  cursors_ok (load_playlists st d).
Proof.
  intros Hok Hsel Hview. unfold load_playlists. destruct (read_content _ _); cursors.
Qed.

Lemma stop_key_cursors st d p : cursors_ok st -> cursors_ok (stop_key (st, d, p)).1.1.
Proof. intros Hok. unfold stop_key. zcmp; cursors. Qed.

(** After the c key the new playlist, if any, is the last one and the
    selections are still places of their lists. *)
Lemma create_key_cursors cols typed st d p :
  cursors_ok st ->
  let r := create_key cols typed (st, d, p) in
  cursors_ok r.2.1.1
  /\ (0 <= r.1 -> r.1 < playlist_count r.2.1.1)
  /\ view r.2.1.1 = view st
  /\ r.2.2 = p.
Proof.
  intros Hok. cbv zeta. unfold create_key.
  destruct (get_string_input _ _ _ _) as [len nm].
  destruct (Z.gtb_spec len 0); [|cbn [fst snd]; split; [done | split; [lia | done]]].
  destruct (create_playlist_cases st d (Some nm)) as [[Hi Hs] | [Hi [new Hs]]];
    destruct (create_playlist st d (Some nm)) as [[idx st1] d1]; cbn [fst snd] in *; subst.
  - split; [done | split; [lia | done]].
  - cursors.
Qed.

Lemma global_key_cursors now ch st d p :
  cursors_ok st ->
  (ch = key "p" ->
   playing_index st <= search_count st
   \/ (playing_from_playlist st = true /\ 0 <= playing_playlist_idx st)) ->
  cursors_ok (global_key now ch (st, d, p)).1.1.
Proof.
  intros Hok Hplay. unfold global_key.
  on_key. { destruct (_ && _); [cursors | done]. }
  on_key.
  { destruct (Z.geb_spec (playing_index st) 0) as [Hge|]; [|done].
    unfold play_next.
    destruct (_ && _).
    - destruct (_ <? _); [|done].
      pose proof (cursor_frame_play_song st p now (playing_playlist_idx st)
                    (playing_index st + 1)) as Hf.
      destruct (play_playlist_song _ _ _ _ _) as [st1 p1]. cbn [fst snd] in *.
      apply (cursor_frame_ok st); [|done].
      eapply cursor_frame_trans; [exact Hf | by repeat split].
    - destruct (_ >? _); [|done].
      destruct (Z.ltb_spec (playing_index st + 1) (search_count st)) as [Hlt|]; [|done].
      pose proof (cursor_frame_play_search st p now (playing_index st + 1)) as Hf.
      destruct (play_search_result _ _ _ _) as [st1 p1]. cbn [fst snd] in *.
      assert (Hok1 : cursors_ok st1) by (by apply (cursor_frame_ok st)).
      assert (Hn : search_count st1 = search_count st)
        by (unfold search_count; by rewrite (proj1 (proj2 Hf))).
      clear Hf Hok. cursors. }
  destruct (Z.eqb_spec ch (key "p")) as [Hp|_].
  { specialize (Hplay Hp).
    destruct (Z.geb_spec (playing_index st) 0) as [Hge|]; [|done].
    unfold play_prev.
    destruct (playing_from_playlist st && (playing_playlist_idx st >=? 0)) eqn:Hsrc.
    - destruct (playing_index st - 1 >=? 0); [|done].
      pose proof (cursor_frame_play_song st p now (playing_playlist_idx st)
                    (playing_index st - 1)) as Hf.
      destruct (play_playlist_song _ _ _ _ _) as [st1 p1]. cbn [fst snd] in *.
      apply (cursor_frame_ok st); [|done].
      eapply cursor_frame_trans; [exact Hf | by repeat split].
    - destruct (_ >? _); [|done].
      destruct (Z.geb_spec (playing_index st - 1) 0) as [Hprev|]; [|done].
      assert (Hle : playing_index st <= search_count st).
      { destruct Hplay as [|[Hfrom Hidx]]; [done|]. rewrite Hfrom in Hsrc. cbn [andb] in Hsrc.
        destruct (Z.geb_spec (playing_playlist_idx st) 0); [done | lia]. }
      pose proof (cursor_frame_play_search st p now (playing_index st - 1)) as Hf.
      destruct (play_search_result _ _ _ _) as [st1 p1]. cbn [fst snd] in *.
      assert (Hok1 : cursors_ok st1) by (by apply (cursor_frame_ok st)).
      assert (Hn : search_count st1 = search_count st)
        by (unfold search_count; by rewrite (proj1 (proj2 Hf))).
      clear Hf Hok. cursors. }
  on_key; [|done]. destruct (view st) eqn:Hv; cursors.
Qed.

Lemma search_view_key_cursors popen rows cols now typed ch st d p :
  cursors_ok st ->
  cursors_ok (search_view_key popen rows cols now typed ch (st, d, p)).1.1.
Proof.
  intros Hok. unfold search_view_key. cbv zeta.
  pose proof (list_height_pos rows) as Hh.
  on_key. { zcmp; cursors. }
  on_key. { zcmp; cursors. }
  on_key. { zcmp; cursors. }
  on_key. { zcmp; cursors. }
  on_key. { cursors. }
  on_key. { zcmp; cursors. }
  on_key.
  { destruct (_ >? _); [|done].
    pose proof (cursor_frame_play_search st p now (search_selected st)) as Hf.
    destruct (play_search_result _ _ _ _) as [st1 p1]. by apply (cursor_frame_ok st). }
  on_key.
  { destruct (get_string_input _ _ _ _) as [len q]. destruct (_ >? _); [|done].
    cbn [fst snd]. apply run_search_cursors.
    apply (cursor_frame_ok st); [apply cursor_frame_draw_ui | done]. }
  on_key. { by apply stop_key_cursors. }
  on_key. { apply load_playlists_cursors; [cursors | done | done]. }
  on_key. { zcmp; cursors. }
  on_key; [|done]. by apply create_key_cursors.
Qed.

Lemma playlists_view_key_cursors rows cols typed ch st d p :
  cursors_ok st -> view st = VIEW_PLAYLISTS ->
  cursors_ok (playlists_view_key rows cols typed ch (st, d, p)).1.1.
Proof.
  intros Hok Hview. unfold playlists_view_key. cbv zeta.
  pose proof (list_height_pos rows) as Hh.
  on_key. { zcmp; cursors. }
  on_key. { zcmp; cursors. }
  on_key. { zcmp; cursors. }
  on_key. { zcmp; cursors. }
  on_key.
  { destruct (_ >? _); [|done]. cbn [fst].
    pose proof (cursor_frame_load_songs (set_current_playlist_idx st (playlist_selected st)) d
                  (current_playlist_idx
                     (set_current_playlist_idx st (playlist_selected st)))) as Hf.
    assert (Hok1 : cursors_ok (set_current_playlist_idx st (playlist_selected st)))
      by cursors.
    apply (cursor_frame_ok _ _ Hf) in Hok1. apply proj2, proj2, proj2, proj2, proj1 in Hf.
    revert Hok1 Hf. generalize (load_playlist_songs
      (set_current_playlist_idx st (playlist_selected st)) d
      (current_playlist_idx (set_current_playlist_idx st (playlist_selected st)))).
    intros st1 Hok1 Hf. cursors. }
  on_key.
  { destruct (create_key_cursors cols typed st d p Hok) as (Hc & Hidx & Hv & _).
    destruct (create_key cols typed (st, d, p)) as [idx [[st1 d1] p1]]. cbn [fst snd] in *.
    destruct (Z.geb_spec idx 0); [|done]. cbn [fst]. specialize (Hidx ltac:(lia)).
    cursors. }
  on_key; [|done].
  destruct (Z.gtb_spec (playlist_count st) 0) as [Hn|]; [|done].
  destruct (get_string_input _ _ _ _) as [len [|c confirm]]; [done|].
  destruct (_ || _); [|done].
  destruct (delete_playlist_cases st d (playlist_selected st))
    as [[Hr Hs] | (Hr & Hin & Hs)];
    destruct (delete_playlist st d (playlist_selected st)) as [[ok st1] d1];
    cbn [fst snd] in *; subst; [done|].
  assert (Hlen : Z.of_nat (length (delete (Z.to_nat (playlist_selected st)) (playlists st)))
                 = playlist_count st - 1).
  { unfold playlist_count in *.
    destruct (lookup_lt_is_Some_2 (playlists st) (Z.to_nat (playlist_selected st))
                ltac:(lia)) as [pl Hpl].
    rewrite (length_delete _ _ (ex_intro _ pl Hpl)). lia. }
  unfold playlist_count at 1 2 3. fields. rewrite Hlen. zcmp; cursors.
Qed.

Lemma playlist_songs_view_key_cursors rows now ch st d p :
  cursors_ok st ->
  cursors_ok (playlist_songs_view_key rows now ch (st, d, p)).1.1.
Proof.
  intros Hok. unfold playlist_songs_view_key. cbv zeta.
  pose proof (list_height_pos rows) as Hh.
  set (valid := negb _). set (n := slot_count st (current_playlist_idx st)).
  on_key. { destruct (_ >? _); cursors. }
  on_key. { destruct (_ && _); cursors. }
  on_key. { cursors. }
  on_key. { destruct valid; cursors. }
  on_key.
  { destruct (_ && _); [|done].
    pose proof (cursor_frame_play_song st p now (current_playlist_idx st)
                  (playlist_song_selected st)) as Hf.
    destruct (play_playlist_song _ _ _ _ _) as [st1 p1]. by apply (cursor_frame_ok st). }
  on_key.
  { destruct (_ && _); [|done].
    pose proof (cursor_frame_remove_song st d (current_playlist_idx st)
                  (playlist_song_selected st)) as Hf.
    destruct (remove_song_from_playlist _ _ _ _) as [[ok st1] d1]. cbn [fst snd] in *.
    apply (cursor_frame_ok _ _ Hf) in Hok. destruct ok; [|done].
    cbn [fst]. destruct (_ && _); cursors. }
  on_key; [|done]. by apply stop_key_cursors.
Qed.

Lemma add_to_playlist_view_key_cursors cols typed ch st d p :
  cursors_ok st ->
  cursors_ok (add_to_playlist_view_key cols typed ch (st, d, p)).1.1.
Proof.
  intros Hok. unfold add_to_playlist_view_key.
  on_key. { zcmp; cursors. }
  on_key. { zcmp; cursors. }
  on_key.
  { destruct (song_to_add st) as [i|]; [|done]. destruct (_ >? _); [|done].
    pose proof (cursor_frame_add_song st d (add_to_playlist_selected st)
                  (Some (song_at st i))) as Hf.
    destruct (add_song_to_playlist _ _ _ _) as [[r st1] d1]. cbn [fst snd] in *.
    apply (cursor_frame_ok _ _ Hf) in Hok. cursors. }
  on_key; [|done].
  destruct (create_key_cursors cols typed st d p Hok) as (Hc & _).
  destruct (create_key cols typed (st, d, p)) as [idx [[st1 d1] p1]]. cbn [fst snd] in *.
  destruct (_ >=? _); [|done]. destruct (song_to_add st1) as [i|]; [|done].
  pose proof (cursor_frame_add_song st1 d1 idx (Some (song_at st1 i))) as Hf.
  destruct (add_song_to_playlist _ _ _ _) as [[r st2] d2]. cbn [fst snd] in *.
  apply (cursor_frame_ok _ _ Hf) in Hc. cursors.
Qed.

(** X30.  One key event keeps the selections in their lists: if the
    selection of the search results, the one of the playlists and, in
    the view that adds a song, the one of that view are places of their
    lists (or zero on an empty list) before the key, they are after it,
    whatever the key, the files, the player and the text typed at a
    prompt.  For the p key this needs that the position of the session
    is not beyond the search results or that the session plays a
    playlist. *)
Theorem handle_key_keeps_selections popen rows cols now typed ch st d p :
  cursors_ok st ->
  (ch = key "p" ->
   playing_index st <= search_count st
   \/ (playing_from_playlist st = true /\ 0 <= playing_playlist_idx st)) ->
  cursors_ok (handle_key popen rows cols now typed ch (st, d, p)).1.1.1.
Proof.
  intros Hok Hplay. unfold handle_key.
  destruct (ch =? ERR); [done|]. destruct (ch =? key "q"); [done|].
  cbv zeta. cbn [fst snd].
  pose proof (global_key_cursors now ch st d p Hok Hplay) as Hg.
  destruct (global_key now ch (st, d, p)) as [[st1 d1] p1]. cbn [fst snd] in *.
  apply (cursor_frame_ok _ _ (cursor_frame_draw_ui _ _ _)).
  destruct (view st1) eqn:Hview.
  - by apply search_view_key_cursors.
  - by apply playlists_view_key_cursors.
  - by apply playlist_songs_view_key_cursors.
  - by apply add_to_playlist_view_key_cursors.
Qed.

Lemma handle_key_keeps_selections_witness :
  cursors_ok (handle_key (fun _ => None) 24 80 200 [] (key "p")
                (search_session 1 100, sample_disk, connected_player [])).1.1.1.
Proof.
  apply handle_key_keeps_selections.
  - unfold cursors_ok, cursor_ok. vm_compute. intuition (try discriminate). 
  - intros _. left. vm_compute. discriminate.
Defined.
